(** * skaled snapshot subsystem: hash agreement and snapshot management

    A shallow embedding of [libskale/SnapshotHashAgent.cpp] and
    [libskale/SnapshotManager.cpp], with the properties of the snapshot
    specification stated and proved over it.

    C++ exceptions are values of a [result] type; member functions that
    mutate [*this] or the filesystem take the state and return the new one
    next to the result, so that what was written before a [throw] stays
    written. *)

From stdpp Require Import gmap strings list fin_maps pretty sorting.

Set Default Proof Using "Type".

(** ** Outcomes of a call that may throw *)

Inductive result (E A : Type) : Type :=
  | Ret (a : A)
  | Throw (e : E).
Arguments Ret {E A} a.
Arguments Throw {E A} e.

(** * SnapshotHashAgent *)

Module SnapshotHashAgent.

(** [dev::h256]: a 256-bit value, ordered as an unsigned number (the order
    [std::map< dev::h256, size_t >] iterates in). *)
Definition h256 : Type := N.

(** [sChain.nodes[i]]: id, ip and base port of a node ([id] and [port] are
    [dev::u256]). *)
Record sChainNode : Type := mkNode {
  id : N;
  ip : string;
  port : N
}.

Global Instance sChainNode_inhabited : Inhabited sChainNode :=
  populate (mkNode 0 "" 0).

(** The part of [dev::eth::ChainParams] the agent reads. *)
Record ChainParams : Type := mkChainParams {
  nodeInfo_id : N;
  sChain_nodes : list sChainNode;
  insecureCommonBLSPublicKeys : string * string * string * string
}.

(** [signatures::Bls( t, n )]. *)
Record Bls : Type := mkBls { bls_t : nat; bls_n : nat }.

(** What [verifyAllData] and [voteForHash] throw. *)
Inductive inner_exn : Type :=
  | NotVerified (i : nat)   (* std::logic_error: signature of node i was not verified *)
  | BlsThrew (i : nat).     (* Bls::Verification itself threw on node i's data *)

Inductive exn : Type :=
  | NestedVerification (inner : inner_exn)  (* std::runtime_error nesting [inner] *)
  | NotEnoughVotes.                         (* std::logic_error "note enough votes to choose hash" *)

(** Addition on [dev::u256]. *)
Definition u256_add (x y : N) : N := ((x + y) mod 2 ^ 256)%N.

(** "http://" + ip + ":" + ( port + 3 ), the port printed in decimal. *)
Definition endpoint (nd : sChainNode) : string :=
  "http://" +:+ ip nd +:+ ":" +:+ pretty (u256_add (port nd) 3).

(** ** [std::map< dev::h256, size_t >]

    The map is kept as the list of its entries in key order, least key
    first: the order [begin() .. end()] walks, hence the order in which
    [std::find_if] tries the entries. *)

Fixpoint map_incr (h : h256) (m : list (h256 * nat)) : list (h256 * nat) :=
  match m with
  | [] => [(h, 1)]
  | (k, c) :: m' =>
      if (h <? k)%N then (h, 1) :: (k, c) :: m'
      else if (h =? k)%N then (k, S c) :: m'
      else (k, c) :: map_incr h m'
  end.

(** The whole first loop over the hashes that are counted. *)
Definition tally_list (hs : list h256) : list (h256 * nat) :=
  foldl (λ m h, map_incr h m) [] hs.

(** The count the map holds for a key ([0] when the key is absent). *)
Fixpoint map_at (h : h256) (m : list (h256 * nat)) : nat :=
  match m with
  | [] => 0
  | (k, c) :: m' => if (h =? k)%N then c else map_at h m'
  end.

(** How many of the hashes are [H]. *)
Definition count_hash (H : h256) (hs : list h256) : nat :=
  length (filter (λ h, h = H) hs).

(** [3 * p.second > 2 * n_] *)
Definition supermajority (n : nat) (p : h256 * nat) : bool :=
  bool_decide (2 * n < 3 * p.2).

Section Agent.

(** The curve groups and the operations of libBLS are external to the
    repository; the agent is parametric in them.  [inhabitant] stands for
    the default-constructed point of a group. *)
Context {G1 G2 Fr : Type}.
Context `{!Inhabited G1, !Inhabited G2}.

(** [Bls::Verification]: [None] when it throws. *)
Variable Verification : Bls → h256 → G1 → G2 → option bool.
(** [Bls::LagrangeCoeffs] and [Bls::SignatureRecover]: [None] when they throw. *)
Variable LagrangeCoeffs : Bls → list nat → option (list Fr).
Variable SignatureRecover : Bls → list G1 → list Fr → option G1.
(** The G2 point assembled from four decimal field elements, [Z = one]. *)
Variable G2_of_strings : string * string * string * string → G2.

(** The members of [SnapshotHashAgent].  [n_] is the number of nodes; the
    three vectors are indexed by the position of a node in
    [sChain.nodes].  Counts of nodes are natural numbers: none of the
    loops below counts beyond [n_]. *)
Record Agent : Type := mkAgent {
  chain_params_ : ChainParams;
  n_ : nat;
  bls_ : Bls;
  hashes_ : list h256;
  signatures_ : list G1;
  public_keys_ : list G2;
  nodes_to_download_snapshot_from_ : list nat;
  voted_hash_ : h256 * G1
}.

Definition set_bls (b : Bls) (a : Agent) : Agent :=
  mkAgent (chain_params_ a) (n_ a) b (hashes_ a) (signatures_ a)
    (public_keys_ a) (nodes_to_download_snapshot_from_ a) (voted_hash_ a).

Definition set_slot (i : nat) (h : h256) (s : G1) (pk : G2) (a : Agent) : Agent :=
  mkAgent (chain_params_ a) (n_ a) (bls_ a) (<[i:=h]> (hashes_ a))
    (<[i:=s]> (signatures_ a)) (<[i:=pk]> (public_keys_ a))
    (nodes_to_download_snapshot_from_ a) (voted_hash_ a).

Definition push_nodes (l : list nat) (a : Agent) : Agent :=
  mkAgent (chain_params_ a) (n_ a) (bls_ a) (hashes_ a) (signatures_ a)
    (public_keys_ a) (nodes_to_download_snapshot_from_ a ++ l) (voted_hash_ a).

Definition set_voted_hash (v : h256 * G1) (a : Agent) : Agent :=
  mkAgent (chain_params_ a) (n_ a) (bls_ a) (hashes_ a) (signatures_ a)
    (public_keys_ a) (nodes_to_download_snapshot_from_ a) v.

(** [chain_params_.sChain.nodes[i]].  The code indexes its vectors with
    [operator[]] at [i < n_] only; [!!!] gives them a value at every
    index. *)
Definition node (a : Agent) (i : nat) : sChainNode :=
  sChain_nodes (chain_params_ a) !!! i.

(** [chain_params_.nodeInfo.id == chain_params_.sChain.nodes[i].id] *)
Definition is_self (a : Agent) (i : nat) : bool :=
  bool_decide (nodeInfo_id (chain_params_ a) = id (node a i)).

(** *** [verifyAllData] *)

Fixpoint verify_from (a : Agent) (ixs : list nat) : option exn :=
  match ixs with
  | [] => None
  | i :: ixs' =>
      if is_self a i then verify_from a ixs'
      else
        match Verification (bls_ a) (hashes_ a !!! i) (signatures_ a !!! i)
                (public_keys_ a !!! i) with
        | Some true => verify_from a ixs'
        | Some false => Some (NestedVerification (NotVerified i))
        | None => Some (NestedVerification (BlsThrew i))
        end
  end.

(** [None]: returned normally; [Some e]: threw [e]. *)
Definition verifyAllData (a : Agent) : option exn :=
  verify_from a (seq 0 (n_ a)).

(** *** [voteForHash] *)

(** The first loop: [map_hash[hashes_[i]] += 1] for every non-self [i]. *)
Definition tally_step (a : Agent) (m : list (h256 * nat)) (i : nat) :
    list (h256 * nat) :=
  if is_self a i then m else map_incr (hashes_ a !!! i) m.

Definition tally (a : Agent) : list (h256 * nat) :=
  foldl (tally_step a) [] (seq 0 (n_ a)).

(** The second loop: the non-self indices whose hash is the chosen one. *)
Definition agreeing (a : Agent) (H : h256) : list nat :=
  filter (λ i, is_self a i = false ∧ hashes_ a !!! i = H) (seq 0 (n_ a)).

(** The signature recovered from the shares of the peers agreeing on
    [H]; a throw of either step is caught and leaves the
    default-constructed point. *)
Definition common_signature (a : Agent) (H : h256) : G1 :=
  let idx := (λ i, i + 1) <$> agreeing a H in
  let signatures := (λ i, signatures_ a !!! i) <$> agreeing a H in
  match LagrangeCoeffs (bls_ a) idx with
  | Some lagrange_coeffs =>
      match SignatureRecover (bls_ a) signatures lagrange_coeffs with
      | Some s => s
      | None => inhabitant
      end
  | None => inhabitant
  end.

Definition common_public (a : Agent) : G2 :=
  G2_of_strings (insecureCommonBLSPublicKeys (chain_params_ a)).

(** [voteForHash( to_vote )]: the result, the value left in [to_vote], the
    agent afterwards.  The indices of the agreeing peers are pushed onto
    [nodes_to_download_snapshot_from_] before the recovered signature is
    checked, and stay there when the check fails. *)
Definition voteForHash (a : Agent) (to_vote : h256 * G1) :
    result exn bool * (h256 * G1) * Agent :=
  match verifyAllData a with
  | Some e => (Throw e, to_vote, a)
  | None =>
      match List.find (supermajority (n_ a)) (tally a) with
      | None => (Throw NotEnoughVotes, to_vote, a)
      | Some it =>
          let a' := push_nodes (agreeing a it.1) a in
          match Verification (bls_ a) it.1 (common_signature a it.1)
                  (common_public a) with
          | Some true => (Ret true, (it.1, common_signature a it.1), a')
          | Some false => (Ret false, to_vote, a')
          | None => (Ret false, to_vote, a')
          end
      end
  end.

(** *** The tally holds the number of votes of every hash *)

Definition votes_cast (a : Agent) : list h256 :=
  (λ i, hashes_ a !!! i) <$> filter (λ i, is_self a i = false) (seq 0 (n_ a)).

(** The number of non-self peers whose slot holds [H]. *)
Definition votes (a : Agent) (H : h256) : nat := length (agreeing a H).

(** *** [getNodesToDownloadSnapshotFrom] *)

(** What one peer's task obtains inside its [try] block from the node at
    the given URL for the given block: the decoded hash, signature share
    and public key share, or [None] when the RPC or a decoding throws. *)
Variable rpc : string → N → option (h256 * G1 * G2).

(** One task.  A throw is caught and logged inside the task; the three
    slots of the peer are only assigned after every call and decoding has
    succeeded. *)
Definition collect_one (block_number : N) (a : Agent) (i : nat) : Agent :=
  if is_self a i then a
  else
    match rpc (endpoint (node a i)) block_number with
    | Some (h, s, pk) => set_slot i h s pk a
    | None => a
    end.

(** All tasks joined.  Each task writes the slots of its own index only,
    under the mutex, so every interleaving leaves the state the tasks
    leave when run one after the other. *)
Definition collect (block_number : N) (a : Agent) : Agent :=
  foldl (collect_one block_number) a (seq 0 (n_ a)).

(** [bls_.reset( new signatures::Bls( ( 2 * n_ + 2 ) / 3, n_ ) )] *)
Definition round_start (a : Agent) : Agent :=
  set_bls (mkBls ((2 * n_ a + 2) / 3) (n_ a)) a.

(** The agent when every task has been joined. *)
Definition collected (block_number : N) (a : Agent) : Agent :=
  collect block_number (round_start a).

(** [voteForHash( this->voted_hash_ )] writes its out-parameter through to
    the member. *)
Definition getNodesToDownloadSnapshotFrom (block_number : N) (a : Agent) :
    result exn (list string) * Agent :=
  let a1 := collected block_number a in
  match voteForHash a1 (voted_hash_ a1) with
  | (Throw e, v, a2) => (Throw e, set_voted_hash v a2)
  | (Ret false, v, a2) => (Ret [], set_voted_hash v a2)
  | (Ret true, v, a2) =>
      (Ret ((λ idx, endpoint (node a2 idx)) <$> nodes_to_download_snapshot_from_ a2),
       set_voted_hash v a2)
  end.

(** Modelled from the spec: the constructor lives in SnapshotHashAgent.h,
    which is not among the sources.  The node list supplies [n]; the
    per-peer slots are sized [n] and start empty (zero hash,
    default-constructed points); nothing has been voted. *)
Definition SnapshotHashAgent_new (chain_params : ChainParams) : Agent :=
  let n := length (sChain_nodes chain_params) in
  mkAgent chain_params n (mkBls ((2 * n + 2) / 3) n)
    (replicate n 0%N) (replicate n inhabitant) (replicate n inhabitant)
    [] (0%N, inhabitant).

(** ** Properties *)

(** *** The map of the tally *)

Definition keys_sorted (m : list (h256 * nat)) : Prop :=
  StronglySorted N.lt m.*1.

Lemma map_at_below h m :
  Forall (N.lt h) m.*1 → map_at h m = 0.
Proof.
  induction m as [|[k c] m IH]; simpl; [done|].
  intros Hall. apply Forall_cons in Hall as [Hk Hm].
  destruct (N.eqb_spec h k) as [->|_]; [lia|]. by apply IH.
Qed.

Lemma map_incr_keys h m k :
  k ∈ (map_incr h m).*1 ↔ k = h ∨ k ∈ m.*1.
Proof.
  induction m as [|[k' c] m IH]; simpl.
  - set_solver.
  - destruct (N.ltb_spec h k'); simpl; [set_solver|].
    destruct (N.eqb_spec h k') as [->|_]; simpl; [set_solver|].
    rewrite !elem_of_cons, IH. naive_solver.
Qed.

Lemma map_incr_sorted h m :
  keys_sorted m → keys_sorted (map_incr h m).
Proof.
  unfold keys_sorted. induction m as [|[k c] m IH]; simpl; intros Hs.
  - repeat constructor.
  - apply StronglySorted_inv in Hs as [Hm Hk].
    destruct (N.ltb_spec h k) as [Hlt|Hge]; simpl.
    + constructor; [by constructor|].
      constructor; [done|]. eapply Forall_impl; [exact Hk|]. simpl. lia.
    + destruct (N.eqb_spec h k) as [->|Hne]; simpl; [by constructor|].
      constructor; [by apply IH|].
      apply Forall_forall. intros k' Hk'. apply map_incr_keys in Hk' as [->|Hk'].
      * lia.
      * rewrite Forall_forall in Hk. by apply Hk.
Qed.

Lemma map_incr_at h h' m :
  keys_sorted m →
  map_at h' (map_incr h m) = if decide (h' = h) then S (map_at h m) else map_at h' m.
Proof.
  unfold keys_sorted. induction m as [|[k c] m IH]; simpl; intros Hs.
  - destruct (N.eqb_spec h' h), (decide (h' = h)); done.
  - apply StronglySorted_inv in Hs as [Hm Hk].
    destruct (N.ltb_spec h k) as [Hlt|Hge]; simpl.
    + destruct (N.eqb_spec h k) as [->|_]; [lia|].
      rewrite (map_at_below h m); [|eapply Forall_impl; [exact Hk|]; simpl; lia].
      destruct (N.eqb_spec h' h), (decide (h' = h)); done.
    + destruct (N.eqb_spec h k) as [->|Hne]; simpl.
      * destruct (N.eqb_spec h' k), (decide (h' = k)); done.
      * rewrite IH by done.
        destruct (decide (h' = h)) as [->|_]; [|done].
        destruct (N.eqb_spec h k); done.
Qed.

Lemma map_at_elem h c m :
  keys_sorted m → (h, c) ∈ m → map_at h m = c.
Proof.
  unfold keys_sorted. induction m as [|[k c'] m IH]; simpl; intros Hs Hin.
  - by apply elem_of_nil in Hin.
  - apply StronglySorted_inv in Hs as [Hm Hk].
    apply elem_of_cons in Hin as [[= -> ->]|Hin].
    + by rewrite N.eqb_refl.
    + destruct (N.eqb_spec h k) as [->|_]; [|by apply IH].
      rewrite Forall_forall in Hk.
      assert (k < k)%N; [|lia]. apply Hk.
      apply list_elem_of_fmap. by exists (k, c).
Qed.

Lemma map_at_pos_elem h m :
  0 < map_at h m → (h, map_at h m) ∈ m.
Proof.
  induction m as [|[k c] m IH]; simpl; [lia|].
  destruct (N.eqb_spec h k) as [->|_]; [left|right; auto].
Qed.

Lemma tally_list_snoc hs h :
  tally_list (hs ++ [h]) = map_incr h (tally_list hs).
Proof. unfold tally_list. by rewrite foldl_app. Qed.

Lemma count_hash_snoc H hs h :
  count_hash H (hs ++ [h]) = if decide (H = h) then S (count_hash H hs) else count_hash H hs.
Proof.
  unfold count_hash. rewrite filter_app, length_app. simpl.
  unfold filter at 2. simpl.
  destruct (decide (h = H)) as [->|Hne], (decide _); simpl; try done; try lia.
Qed.

Lemma map_incr_pos h m :
  Forall (λ p, 0 < p.2) m → Forall (λ p, 0 < p.2) (map_incr h m).
Proof.
  induction m as [|[k c] m IH]; simpl; intros Hall.
  - repeat constructor.
  - apply Forall_cons in Hall as [Hc Hm]. simpl in Hc.
    destruct (N.ltb_spec h k); [repeat constructor; simpl; done || lia|].
    destruct (N.eqb_spec h k); constructor; simpl; auto with lia.
Qed.

Lemma tally_list_spec hs :
  keys_sorted (tally_list hs) ∧
  (∀ H, map_at H (tally_list hs) = count_hash H hs) ∧
  Forall (λ p, 0 < p.2) (tally_list hs).
Proof.
  induction hs as [|h hs IH] using rev_ind.
  - split_and!; [constructor|done|constructor].
  - destruct IH as (Hs & Hat & Hpos). rewrite tally_list_snoc.
    split_and!; [by apply map_incr_sorted| |by apply map_incr_pos].
    intros H. rewrite map_incr_at, count_hash_snoc, !Hat by done.
    destruct (decide (H = h)) as [->|]; done.
Qed.

(** An entry of the tally is a hash together with the number of counted
    slots holding it, and every hash held by a counted slot has one. *)
Lemma elem_of_tally_list H c hs :
  (H, c) ∈ tally_list hs ↔ c = count_hash H hs ∧ 0 < c.
Proof.
  destruct (tally_list_spec hs) as (Hs & Hat & Hpos). split.
  - intros Hin. split.
    + rewrite <-Hat. symmetry. by apply map_at_elem.
    + rewrite Forall_forall in Hpos. by apply (Hpos (H, c)).
  - intros [-> Hc]. rewrite <-Hat in *. by apply map_at_pos_elem.
Qed.

Lemma count_hash_two H1 H2 hs :
  H1 ≠ H2 → count_hash H1 hs + count_hash H2 hs ≤ length hs.
Proof.
  intros Hne. unfold count_hash. induction hs as [|h hs IH]; simpl; [done|].
  rewrite !filter_cons. repeat case_decide; simpl; lia || congruence.
Qed.

(** At most one hash can hold more than two thirds of [n] when at most
    [n] votes are cast. *)
Lemma supermajority_unique n H1 H2 hs :
  length hs ≤ n →
  2 * n < 3 * count_hash H1 hs → 2 * n < 3 * count_hash H2 hs → H1 = H2.
Proof.
  intros Hlen Hc1 Hc2. destruct (decide (H1 = H2)) as [|Hne]; [done|].
  pose proof (count_hash_two H1 H2 hs Hne). lia.
Qed.

(** What [std::find_if] returns on the tally. *)
Lemma find_supermajority n hs H c :
  length hs ≤ n →
  List.find (supermajority n) (tally_list hs) = Some (H, c) ↔
  c = count_hash H hs ∧ 2 * n < 3 * c.
Proof.
  intros Hlen. split.
  - intros Hfind. apply find_some in Hfind as [Hin Hp].
    apply list_elem_of_In, elem_of_tally_list in Hin as [-> _].
    split; [done|]. unfold supermajority in Hp. simpl in Hp.
    by apply bool_decide_eq_true in Hp.
  - intros [-> Hc].
    destruct (List.find (supermajority n) (tally_list hs)) as [[H' c']|] eqn:Hfind.
    + apply find_some in Hfind as [Hin Hp].
      apply list_elem_of_In, elem_of_tally_list in Hin as [-> _].
      unfold supermajority in Hp. simpl in Hp. apply bool_decide_eq_true in Hp.
      by rewrite (supermajority_unique n H H' hs).
    + exfalso.
      assert (supermajority n (H, count_hash H hs) = false) as Hp.
      { apply (find_none _ _ Hfind).
        apply list_elem_of_In, elem_of_tally_list. split; [done|lia]. }
      unfold supermajority in Hp. simpl in Hp.
      by apply bool_decide_eq_false in Hp.
Qed.


(** *** The tally of an agent *)

Lemma tally_votes_cast a : tally a = tally_list (votes_cast a).
Proof.
  unfold tally, tally_list, votes_cast. generalize (@nil (h256 * nat)).
  induction (seq 0 (n_ a)) as [|i l IH]; intros m; simpl; [done|].
  rewrite filter_cons. unfold tally_step at 2.
  destruct (is_self a i); simpl; repeat case_decide; try done; simpl; apply IH.
Qed.

Lemma votes_count a H : votes a H = count_hash H (votes_cast a).
Proof.
  unfold votes, agreeing, count_hash, votes_cast.
  induction (seq 0 (n_ a)) as [|i l IH]; simpl; [done|].
  rewrite !filter_cons.
  destruct (is_self a i); simpl; repeat case_decide; simpl;
    try rewrite filter_cons; repeat case_decide; simpl; naive_solver.
Qed.

Lemma votes_cast_length a : length (votes_cast a) ≤ n_ a.
Proof.
  unfold votes_cast. rewrite length_fmap.
  etrans; [apply length_filter|]. by rewrite length_seq.
Qed.

Lemma find_tally a H c :
  List.find (supermajority (n_ a)) (tally a) = Some (H, c) ↔
  c = votes a H ∧ 2 * n_ a < 3 * c.
Proof.
  rewrite tally_votes_cast, votes_count.
  apply find_supermajority, votes_cast_length.
Qed.

Lemma find_tally_None a :
  List.find (supermajority (n_ a)) (tally a) = None ↔
  ∀ H, 3 * votes a H ≤ 2 * n_ a.
Proof.
  split.
  - intros Hfind H. destruct (decide (3 * votes a H ≤ 2 * n_ a)) as [|Hgt]; [done|].
    assert (List.find (supermajority (n_ a)) (tally a) = Some (H, votes a H)) as Hs
      by (apply find_tally; split; [done|lia]).
    congruence.
  - intros Hall.
    destruct (List.find (supermajority (n_ a)) (tally a)) as [[H c]|] eqn:Hfind; [|done].
    apply find_tally in Hfind as [-> Hc]. specialize (Hall H). lia.
Qed.

Lemma elem_of_agreeing a H i :
  i ∈ agreeing a H ↔ i < n_ a ∧ is_self a i = false ∧ hashes_ a !!! i = H.
Proof.
  unfold agreeing. rewrite list_elem_of_filter, elem_of_seq. naive_solver lia.
Qed.

(** *** [verifyAllData] throws exactly when a counted share fails *)

Definition share_ok (a : Agent) (i : nat) : Prop :=
  Verification (bls_ a) (hashes_ a !!! i) (signatures_ a !!! i)
    (public_keys_ a !!! i) = Some true.

Lemma verify_from_None a l :
  verify_from a l = None ↔ ∀ i, i ∈ l → is_self a i = false → share_ok a i.
Proof.
  unfold share_ok. induction l as [|i l IH]; simpl.
  - split; [|done]. intros _ i Hi. by apply elem_of_nil in Hi.
  - destruct (is_self a i) eqn:Hself.
    + rewrite IH. split; intros Hall j Hj Hs.
      * apply elem_of_cons in Hj as [->|Hj]; [congruence|by apply Hall].
      * apply Hall; [by right|done].
    + destruct (Verification _ _ _ _) as [[]|] eqn:Hv.
      * rewrite IH. split; intros Hall j Hj Hs.
        -- apply elem_of_cons in Hj as [->|Hj]; [done|by apply Hall].
        -- apply Hall; [by right|done].
      * split; [done|]. intros Hall. specialize (Hall i). rewrite Hv in Hall.
        discriminate Hall; [by left|done].
      * split; [done|]. intros Hall. specialize (Hall i). rewrite Hv in Hall.
        discriminate Hall; [by left|done].
Qed.

Lemma verify_from_Some a l e :
  verify_from a l = Some e → ∃ inner, e = NestedVerification inner.
Proof.
  induction l as [|i l IH]; simpl; [done|].
  destruct (is_self a i); [done|].
  destruct (Verification _ _ _ _) as [[]|]; [done| |]; intros [= <-]; eauto.
Qed.

Lemma verifyAllData_None a :
  verifyAllData a = None ↔
  ∀ i, i < n_ a → is_self a i = false → share_ok a i.
Proof.
  unfold verifyAllData. rewrite verify_from_None.
  split; intros Hall i Hi; apply Hall; apply elem_of_seq in Hi || apply elem_of_seq; lia.
Qed.

(** *** What [voteForHash] returns *)

Lemma voteForHash_true_iff a to_vote H sig a' :
  voteForHash a to_vote = (Ret true, (H, sig), a') ↔
  verifyAllData a = None ∧
  2 * n_ a < 3 * votes a H ∧
  Verification (bls_ a) H (common_signature a H) (common_public a) = Some true ∧
  sig = common_signature a H ∧
  a' = push_nodes (agreeing a H) a.
Proof.
  unfold voteForHash. split.
  - destruct (verifyAllData a); [done|].
    destruct (List.find _ _) as [[H' c]|] eqn:Hfind; [|done]. simpl.
    apply find_tally in Hfind as [-> Hc].
    destruct (Verification _ _ _ _) as [[]|] eqn:Hv; [|done..].
    intros [= <- <- <-]. done.
  - intros (-> & Hc & Hv & -> & ->).
    assert (List.find (supermajority (n_ a)) (tally a) = Some (H, votes a H)) as ->
      by by apply find_tally.
    simpl. by rewrite Hv.
Qed.

Lemma voteForHash_not_enough a to_vote :
  verifyAllData a = None →
  (∀ H, 3 * votes a H ≤ 2 * n_ a) →
  voteForHash a to_vote = (Throw NotEnoughVotes, to_vote, a).
Proof.
  intros Hver Hall. unfold voteForHash. rewrite Hver.
  by apply find_tally_None in Hall as ->.
Qed.

Lemma voteForHash_aggregate_fails a to_vote H :
  verifyAllData a = None →
  2 * n_ a < 3 * votes a H →
  Verification (bls_ a) H (common_signature a H) (common_public a) ≠ Some true →
  voteForHash a to_vote = (Ret false, to_vote, push_nodes (agreeing a H) a).
Proof.
  intros Hver Hc Hv. unfold voteForHash. rewrite Hver.
  assert (List.find (supermajority (n_ a)) (tally a) = Some (H, votes a H)) as ->
    by by apply find_tally.
  simpl. by destruct (Verification _ _ _ _) as [[]|].
Qed.

Lemma voteForHash_share_fails a to_vote i :
  i < n_ a → is_self a i = false → ¬ share_ok a i →
  ∃ inner, voteForHash a to_vote = (Throw (NestedVerification inner), to_vote, a).
Proof.
  intros Hi Hself Hbad. unfold voteForHash.
  destruct (verifyAllData a) as [e|] eqn:Hver.
  - apply verify_from_Some in Hver as [inner ->]. by exists inner.
  - exfalso. apply Hbad. by apply (proj1 (verifyAllData_None a)).
Qed.

(** *** Collection *)

(** The three slots of peer [i]. *)
Definition slot (a : Agent) (i : nat) : option h256 * option G1 * option G2 :=
  (hashes_ a !! i, signatures_ a !! i, public_keys_ a !! i).

(** What collection never writes. *)
Definition frame (a : Agent) : ChainParams * nat * Bls * list nat * (h256 * G1) :=
  (chain_params_ a, n_ a, bls_ a, nodes_to_download_snapshot_from_ a, voted_hash_ a).

Lemma collect_one_frame b a i : frame (collect_one b a i) = frame a.
Proof.
  unfold collect_one. destruct (is_self a i); [done|].
  by destruct (rpc _ _) as [[[h s] pk]|].
Qed.

Lemma collect_list_frame b l a : frame (foldl (collect_one b) a l) = frame a.
Proof.
  revert a. induction l as [|i l IH]; intros a; simpl; [done|].
  by rewrite IH, collect_one_frame.
Qed.

Lemma frame_node a a' i : frame a' = frame a → node a' i = node a i.
Proof. unfold frame, node. by intros [= -> _ _ _ _]. Qed.

Lemma frame_is_self a a' i : frame a' = frame a → is_self a' i = is_self a i.
Proof. intros Hf. unfold is_self. rewrite (frame_node a a' i Hf). by injection Hf as ->. Qed.

Lemma collect_one_lengths b a i :
  length (hashes_ (collect_one b a i)) = length (hashes_ a) ∧
  length (signatures_ (collect_one b a i)) = length (signatures_ a) ∧
  length (public_keys_ (collect_one b a i)) = length (public_keys_ a).
Proof.
  unfold collect_one. destruct (is_self a i); [done|].
  destruct (rpc _ _) as [[[h s] pk]|]; [|done]. simpl.
  by rewrite !length_insert.
Qed.

Lemma collect_one_slot_other b a j i :
  j ≠ i → slot (collect_one b a j) i = slot a i.
Proof.
  intros Hne. unfold collect_one. destruct (is_self a j); [done|].
  destruct (rpc _ _) as [[[h s] pk]|]; [|done].
  unfold slot. simpl. by rewrite !list_lookup_insert_ne.
Qed.

Lemma collect_one_slot_kept b a i :
  is_self a i = true ∨ rpc (endpoint (node a i)) b = None →
  collect_one b a i = a.
Proof.
  intros Hi. unfold collect_one. destruct (is_self a i); [done|].
  destruct Hi as [Hi|Hi]; [done|by rewrite Hi].
Qed.

Lemma collect_one_slot_set b a i h s pk :
  is_self a i = false →
  rpc (endpoint (node a i)) b = Some (h, s, pk) →
  i < length (hashes_ a) → i < length (signatures_ a) → i < length (public_keys_ a) →
  slot (collect_one b a i) i = (Some h, Some s, Some pk).
Proof.
  intros Hself Hr Hh Hs Hp. unfold collect_one. rewrite Hself, Hr.
  unfold slot. simpl. by rewrite !list_lookup_insert_eq.
Qed.

(** A peer that is the node itself, or whose task threw, keeps the slot
    it had before the round. *)
Lemma collect_list_slot_kept b l a i :
  is_self a i = true ∨ rpc (endpoint (node a i)) b = None →
  slot (foldl (collect_one b) a l) i = slot a i.
Proof.
  revert a. induction l as [|j l IH]; intros a Hi; simpl; [done|].
  rewrite IH.
  - destruct (decide (j = i)) as [->|Hne].
    + by rewrite collect_one_slot_kept.
    + by apply collect_one_slot_other.
  - by rewrite (frame_is_self a), (frame_node a) by apply collect_one_frame.
Qed.

(** A peer whose task succeeded has its answer in its slot. *)
Lemma collect_list_slot_set b l a i h s pk :
  i ∈ l → is_self a i = false →
  rpc (endpoint (node a i)) b = Some (h, s, pk) →
  i < length (hashes_ a) → i < length (signatures_ a) → i < length (public_keys_ a) →
  slot (foldl (collect_one b) a l) i = (Some h, Some s, Some pk).
Proof.
  intros Hin. revert a.
  induction l as [|j l IH]; intros a Hself Hr Hh Hs Hp; simpl.
  - by apply elem_of_nil in Hin.
  - pose proof (collect_one_frame b a j) as Hf.
    pose proof (collect_one_lengths b a j) as (Lh & Ls & Lp).
    destruct (decide (i ∈ l)) as [Hl|Hl].
    + apply IH; rewrite ?(frame_is_self a), ?(frame_node a), ?Lh, ?Ls, ?Lp; done.
    + apply elem_of_cons in Hin as [->|]; [|done].
      rewrite <-(collect_one_slot_set b a j h s pk) by done.
      generalize (collect_one b a j). clear -Hl.
      induction l as [|k l IH]; intros a1; simpl; [done|].
      apply not_elem_of_cons in Hl as [Hjk Hl].
      rewrite IH by done. apply collect_one_slot_other. congruence.
Qed.

Lemma collect_frame b a : frame (collect b a) = frame a.
Proof. apply collect_list_frame. Qed.

Lemma set_voted_hash_id a : set_voted_hash (voted_hash_ a) a = a.
Proof. by destruct a. Qed.

Lemma round_start_frame a :
  chain_params_ (round_start a) = chain_params_ a ∧
  n_ (round_start a) = n_ a ∧
  nodes_to_download_snapshot_from_ (round_start a) = nodes_to_download_snapshot_from_ a ∧
  slot (round_start a) = slot a.
Proof. done. Qed.

Lemma collected_chain_params block a :
  chain_params_ (collected block a) = chain_params_ a.
Proof.
  pose proof (collect_frame block (round_start a)) as Hf.
  unfold frame in Hf. injection Hf as E1 E2 E3 E4 E5. unfold collected. by rewrite ?E1, ?E2, ?E4.
Qed.

Lemma collected_n block a : n_ (collected block a) = n_ a.
Proof.
  pose proof (collect_frame block (round_start a)) as Hf.
  unfold frame in Hf. injection Hf as E1 E2 E3 E4 E5. unfold collected. by rewrite ?E1, ?E2, ?E4.
Qed.

Lemma collected_nodes_to_download block a :
  nodes_to_download_snapshot_from_ (collected block a) =
    nodes_to_download_snapshot_from_ a.
Proof.
  pose proof (collect_frame block (round_start a)) as Hf.
  unfold frame in Hf. injection Hf as E1 E2 E3 E4 E5. unfold collected. by rewrite ?E1, ?E2, ?E4.
Qed.

Lemma collected_node block a i : node (collected block a) i = node a i.
Proof. unfold node. by rewrite collected_chain_params. Qed.

Lemma collected_is_self block a i : is_self (collected block a) i = is_self a i.
Proof. unfold is_self. by rewrite collected_node, collected_chain_params. Qed.

(** The outcome of a round whose vote succeeds. *)
Lemma getNodes_vote_true block a H sig a' :
  voteForHash (collected block a) (voted_hash_ (collected block a)) = (Ret true, (H, sig), a') →
  getNodesToDownloadSnapshotFrom block a =
    (Ret ((λ i, endpoint (node a i)) <$>
            (nodes_to_download_snapshot_from_ a ++ agreeing (collected block a) H)),
     set_voted_hash (H, sig) a').
Proof.
  intros Hvote. unfold getNodesToDownloadSnapshotFrom. rewrite Hvote.
  apply voteForHash_true_iff in Hvote as (_ & _ & _ & _ & ->). simpl.
  rewrite collected_nodes_to_download.
  do 2 f_equal. apply list_fmap_ext. intros _ i _. unfold node. simpl.
  by rewrite collected_chain_params.
Qed.

(** *** What a peer is counted with *)

(** The three vectors have the [n_] entries the constructor gives them. *)
Definition well_sized (a : Agent) : Prop :=
  length (hashes_ a) = n_ a ∧ length (signatures_ a) = n_ a ∧
  length (public_keys_ a) = n_ a.

(** The triple peer [i] is counted with in a round started on [a0]: the
    answer its task obtained in this round, or, when its task threw, what
    its slots held before the round. *)
Definition counted_slot (block : N) (a0 : Agent) (i : nat) : h256 * G1 * G2 :=
  match rpc (endpoint (node a0 i)) block with
  | Some answer => answer
  | None => (hashes_ a0 !!! i, signatures_ a0 !!! i, public_keys_ a0 !!! i)
  end.

(** The triple peer [i] is counted with is verified by the [Bls] object
    of the round. *)
Definition counted_ok (block : N) (a0 : Agent) (i : nat) : Prop :=
  Verification (bls_ (collected block a0)) (counted_slot block a0 i).1.1
    (counted_slot block a0 i).1.2 (counted_slot block a0 i).2 = Some true.

(** The non-self peers counted with the hash [H]. *)
Definition counted_for (block : N) (a0 : Agent) (H : h256) : list nat :=
  filter (λ i, is_self a0 i = false ∧ (counted_slot block a0 i).1.1 = H)
    (seq 0 (n_ a0)).

Lemma filter_ext_elem {A} (P Q : A → Prop) `{!∀ x, Decision (P x)}
    `{!∀ x, Decision (Q x)} (l : list A) :
  (∀ x, x ∈ l → P x ↔ Q x) → filter P l = filter Q l.
Proof.
  induction l as [|x l IH]; intros Hl; [done|].
  rewrite !filter_cons, IH by (intros y Hy; apply Hl; by right).
  pose proof (Hl x (list_elem_of_here x l)) as Hx.
  destruct (decide (P x)) as [HP|HP], (decide (Q x)) as [HQ|HQ]; [done| | |done].
  - exfalso. by apply HQ, Hx.
  - exfalso. by apply HP, Hx.
Qed.

Lemma SnapshotHashAgent_new_well_sized cp : well_sized (SnapshotHashAgent_new cp).
Proof. unfold well_sized. simpl. by rewrite !length_replicate. Qed.

Lemma collect_list_lengths b l a :
  length (hashes_ (foldl (collect_one b) a l)) = length (hashes_ a) ∧
  length (signatures_ (foldl (collect_one b) a l)) = length (signatures_ a) ∧
  length (public_keys_ (foldl (collect_one b) a l)) = length (public_keys_ a).
Proof.
  revert a. induction l as [|i l IH]; intros a; simpl; [done|].
  destruct (IH (collect_one b a i)) as (-> & -> & ->). apply collect_one_lengths.
Qed.

Lemma collected_well_sized block a : well_sized a → well_sized (collected block a).
Proof.
  unfold well_sized. rewrite collected_n. unfold collected, collect.
  destruct (collect_list_lengths block (seq 0 (n_ (round_start a))) (round_start a))
    as (-> & -> & ->). done.
Qed.

(** A round leaves the vectors at their size. *)
Lemma getNodes_well_sized block a :
  well_sized a → well_sized (getNodesToDownloadSnapshotFrom block a).2.
Proof.
  intros Hsz%(collected_well_sized block). unfold getNodesToDownloadSnapshotFrom.
  generalize dependent (collected block a). intros a1 Hsz. unfold voteForHash.
  destruct (verifyAllData a1); [done|].
  destruct (List.find _ _) as [it|]; [|done]. simpl.
  by destruct (Verification _ _ _ _) as [[]|].
Qed.

Lemma slot_total a a' i :
  slot a' i = slot a i →
  (hashes_ a' !!! i, signatures_ a' !!! i, public_keys_ a' !!! i) =
    (hashes_ a !!! i, signatures_ a !!! i, public_keys_ a !!! i).
Proof.
  unfold slot. intros [= Hh Hs Hp]. by rewrite !list_lookup_total_alt, Hh, Hs, Hp.
Qed.

(** A peer whose task threw keeps the slot it had before the round. *)
Lemma collected_slot_failed block a0 i :
  rpc (endpoint (node a0 i)) block = None → slot (collected block a0) i = slot a0 i.
Proof.
  intros Hr. unfold collected, collect. rewrite collect_list_slot_kept; [done|]. by right.
Qed.

(** After collection, the slot of a non-self peer holds what the peer is
    counted with. *)
Lemma collected_slot_counted block a0 i :
  well_sized a0 → i < n_ a0 → is_self a0 i = false →
  (hashes_ (collected block a0) !!! i, signatures_ (collected block a0) !!! i,
   public_keys_ (collected block a0) !!! i) = counted_slot block a0 i.
Proof.
  intros (Lh & Ls & Lp) Hi Hself. unfold counted_slot.
  destruct (rpc _ _) as [[[h s] pk]|] eqn:Hr.
  - assert (slot (collected block a0) i = (Some h, Some s, Some pk)) as Hslot.
    { unfold collected, collect.
      apply collect_list_slot_set; simpl; [apply elem_of_seq; simpl; lia|done|done|lia..]. }
    unfold slot in Hslot. injection Hslot as Hh Hs Hp.
    by rewrite (list_lookup_total_correct _ _ _ Hh), (list_lookup_total_correct _ _ _ Hs),
      (list_lookup_total_correct _ _ _ Hp).
  - by apply slot_total, collected_slot_failed.
Qed.

(** The peers the second loop of [voteForHash] picks are the peers
    counted with the hash. *)
Lemma agreeing_counted block a0 H :
  well_sized a0 → agreeing (collected block a0) H = counted_for block a0 H.
Proof.
  intros Hsz. unfold agreeing, counted_for. rewrite collected_n.
  apply filter_ext_elem. intros i Hi%elem_of_seq. rewrite collected_is_self.
  split; intros [Hself Hh]; (split; [done|]).
  - by rewrite <-(collected_slot_counted block a0 i) by (done || lia).
  - by rewrite <-(collected_slot_counted block a0 i) in Hh by (done || lia).
Qed.

Lemma verifyAllData_counted block a0 :
  well_sized a0 →
  verifyAllData (collected block a0) = None ↔
  ∀ i, i < n_ a0 → is_self a0 i = false → counted_ok block a0 i.
Proof.
  intros Hsz. rewrite verifyAllData_None, collected_n.
  unfold share_ok, counted_ok.
  split; intros Hall i Hi Hself.
  - rewrite <-(collected_slot_counted block a0 i) by done. simpl.
    apply Hall; [done|]. by rewrite collected_is_self.
  - rewrite collected_is_self in Hself. specialize (Hall i Hi Hself).
    by rewrite <-(collected_slot_counted block a0 i) in Hall by done.
Qed.

Lemma elem_of_counted_for block a0 H i :
  i ∈ counted_for block a0 H ↔
  i < n_ a0 ∧ is_self a0 i = false ∧
  match rpc (endpoint (node a0 i)) block with
  | Some (h, _, _) => h = H
  | None => hashes_ a0 !!! i = H
  end.
Proof.
  unfold counted_for, counted_slot. rewrite list_elem_of_filter, elem_of_seq.
  clear Verification LagrangeCoeffs SignatureRecover G2_of_strings.
  destruct (rpc _ _) as [[[h s] pk]|]; simpl; intuition lia.
Qed.

(** ** The claims on the hash agent *)

(** C1 (as amended).  In a round started on an agent that has recorded no
    download source yet and whose vectors have their [n] entries, with
    [a] the agent after collection, every non-self peer is counted with
    the triple its slot holds then: the one it reported in this round,
    or, when its task failed, the one its slot held before the round.
    [voteForHash] selects the hash [H] exactly when the triple every
    non-self peer is counted with verifies, the number [k] of non-self
    peers counted with [H] satisfies [3k > 2n], and the signature
    recovered from the shares of those peers verifies against the common
    public key; and on a successful vote
    [getNodesToDownloadSnapshotFrom] returns the endpoints of the
    non-self peers counted with the voted hash, and of no other: when
    every peer's task succeeded, those are the peers whose reported hash
    is the voted hash. *)
Theorem vote_selects_verified_supermajority (a0 : Agent) (block : N) :
  well_sized a0 →
  nodes_to_download_snapshot_from_ a0 = [] →
  let a := collected block a0 in
  (∀ i, i < n_ a0 → is_self a0 i = false →
     (hashes_ a !!! i, signatures_ a !!! i, public_keys_ a !!! i) =
       counted_slot block a0 i) ∧
  (∀ to_vote H sig a',
     voteForHash a to_vote = (Ret true, (H, sig), a') ↔
     (∀ i, i < n_ a0 → is_self a0 i = false → counted_ok block a0 i) ∧
     2 * n_ a0 < 3 * length (counted_for block a0 H) ∧
     Verification (bls_ a) H (common_signature a H) (common_public a) = Some true ∧
     sig = common_signature a H ∧
     a' = push_nodes (counted_for block a0 H) a) ∧
  (∀ H sig a',
     voteForHash a (voted_hash_ a) = (Ret true, (H, sig), a') →
     (getNodesToDownloadSnapshotFrom block a0).1 =
       Ret ((λ i, endpoint (node a0 i)) <$> counted_for block a0 H)) ∧
  (∀ H i,
     i ∈ counted_for block a0 H ↔
     i < n_ a0 ∧ is_self a0 i = false ∧
     match rpc (endpoint (node a0 i)) block with
     | Some (h, _, _) => h = H
     | None => hashes_ a0 !!! i = H
     end) ∧
  ((∀ i, i < n_ a0 → is_self a0 i = false →
      is_Some (rpc (endpoint (node a0 i)) block)) →
   ∀ H i,
     i ∈ counted_for block a0 H ↔
     i < n_ a0 ∧ is_self a0 i = false ∧
     ∃ s pk, rpc (endpoint (node a0 i)) block = Some (H, s, pk)).
Proof.
  intros Hsz Hfresh a. split_and!.
  - intros i Hi Hself. by apply collected_slot_counted.
  - intros to_vote H sig a'. subst a.
    rewrite voteForHash_true_iff, verifyAllData_counted by done.
    unfold votes. by rewrite agreeing_counted, collected_n by done.
  - intros H sig a' Hvote.
    rewrite (getNodes_vote_true block a0 H sig a' Hvote). simpl.
    by rewrite Hfresh, agreeing_counted by done.
  - apply elem_of_counted_for.
  - intros Hall H i. rewrite elem_of_counted_for.
    split; intros (Hi & Hself & Hr); (split; [done|]); (split; [done|]).
    + destruct (Hall i Hi Hself) as [[[h s] pk] Hsome]. rewrite Hsome in Hr |- *.
      subst h. eauto.
    + destruct Hr as (s & pk & ->). done.
Qed.

(** C2 (as amended).  With [a] the agent after collection and every
    counted share verifying: when no hash reaches [3k > 2n],
    [voteForHash] throws the "not enough votes" logic error and
    [getNodesToDownloadSnapshotFrom] lets it escape; when a hash does
    reach it but the recovered signature is not verified against the
    common public key (the check answers false or throws), [voteForHash]
    returns false and [getNodesToDownloadSnapshotFrom] returns the empty
    list. *)
Theorem no_quorum_throws_bad_aggregate_is_negative (a0 : Agent) (block : N) :
  let a := collected block a0 in
  verifyAllData a = None →
  ((∀ H, 3 * votes a H ≤ 2 * n_ a) →
     voteForHash a (voted_hash_ a) = (Throw NotEnoughVotes, voted_hash_ a, a) ∧
     getNodesToDownloadSnapshotFrom block a0 = (Throw NotEnoughVotes, a)) ∧
  (∀ H,
     2 * n_ a < 3 * votes a H →
     Verification (bls_ a) H (common_signature a H) (common_public a) ≠ Some true →
     (voteForHash a (voted_hash_ a)).1.1 = Ret false ∧
     (getNodesToDownloadSnapshotFrom block a0).1 = Ret []).
Proof.
  intros a Hver. split.
  - intros Hall.
    pose proof (voteForHash_not_enough a (voted_hash_ a) Hver Hall) as Hvote.
    split; [done|]. unfold getNodesToDownloadSnapshotFrom. fold a.
    by rewrite Hvote, set_voted_hash_id.
  - intros H Hc Hv.
    pose proof (voteForHash_aggregate_fails a (voted_hash_ a) H Hver Hc Hv) as Hvote.
    split; [by rewrite Hvote|]. unfold getNodesToDownloadSnapshotFrom. fold a.
    by rewrite Hvote.
Qed.

(** C3 (as amended).  A peer whose task threw (RPC or decoding) keeps the
    slot it had before the round, which on a newly constructed agent is
    the empty slot; a peer whose task succeeded has its answer in its
    slot.  The round then goes through verification and voting on the
    slots of all non-self peers, that of a peer whose task threw
    included: if the triple that slot held before the round is not
    verified, the round throws the nested verification error; otherwise
    the peer counts as a vote for the hash that slot held before the
    round; and, when the slot of every non-self peer verifies, the round
    throws "not enough votes" if no hash has [3k > 2n] of these votes,
    and for a hash [H] that has, returns the endpoints recorded so far
    and those of the peers whose slot holds [H] if the recovered
    signature verifies, and the empty list if it does not. *)
Theorem peer_failure_leaves_slot_and_round_goes_on (a0 : Agent) (block : N) :
  let a := collected block a0 in
  (∀ i, rpc (endpoint (node a0 i)) block = None → slot a i = slot a0 i) ∧
  (∀ cp i,
     a0 = SnapshotHashAgent_new cp → i < n_ a0 →
     rpc (endpoint (node a0 i)) block = None →
     slot a i = (Some 0%N, Some inhabitant, Some inhabitant)) ∧
  (∀ i h s pk,
     i < n_ a0 → is_self a0 i = false →
     rpc (endpoint (node a0 i)) block = Some (h, s, pk) →
     i < length (hashes_ a0) → i < length (signatures_ a0) →
     i < length (public_keys_ a0) →
     slot a i = (Some h, Some s, Some pk)) ∧
  (∀ i,
     i < n_ a0 → is_self a0 i = false →
     rpc (endpoint (node a0 i)) block = None →
     Verification (bls_ a) (hashes_ a0 !!! i) (signatures_ a0 !!! i)
       (public_keys_ a0 !!! i) ≠ Some true →
     ∃ inner,
       getNodesToDownloadSnapshotFrom block a0 = (Throw (NestedVerification inner), a)) ∧
  (∀ i,
     i < n_ a0 → is_self a0 i = false →
     rpc (endpoint (node a0 i)) block = None →
     i ∈ agreeing a (hashes_ a0 !!! i) ∧ 1 ≤ votes a (hashes_ a0 !!! i)) ∧
  (verifyAllData a = None →
     ((∀ H, 3 * votes a H ≤ 2 * n_ a) →
        getNodesToDownloadSnapshotFrom block a0 = (Throw NotEnoughVotes, a)) ∧
     (∀ H,
        2 * n_ a < 3 * votes a H →
        (getNodesToDownloadSnapshotFrom block a0).1 =
          if bool_decide (Verification (bls_ a) H (common_signature a H)
                            (common_public a) = Some true)
          then Ret ((λ i, endpoint (node a0 i)) <$>
                      (nodes_to_download_snapshot_from_ a0 ++ agreeing a H))
          else Ret [])).
Proof.
  intros a.
  assert (∀ i, rpc (endpoint (node a0 i)) block = None →
               (hashes_ a !!! i, signatures_ a !!! i, public_keys_ a !!! i) =
               (hashes_ a0 !!! i, signatures_ a0 !!! i, public_keys_ a0 !!! i)) as Htotal.
  { intros i Hr. by apply slot_total, collected_slot_failed. }
  split_and!.
  - intros i Hr. by apply collected_slot_failed.
  - intros cp i -> Hi Hr. subst a. rewrite collected_slot_failed by done.
    unfold slot. simpl in *. by rewrite !lookup_replicate_2.
  - intros i h s pk Hi Hself Hr Hh Hs Hp. subst a. unfold collected, collect.
    apply collect_list_slot_set; try done.
    apply elem_of_seq. simpl. lia.
  - intros i Hi Hself Hr Hbad.
    destruct (voteForHash_share_fails a (voted_hash_ a) i) as [inner Hvote].
    + subst a. by rewrite collected_n.
    + subst a. by rewrite collected_is_self.
    + unfold share_ok. specialize (Htotal i Hr). injection Htotal as -> -> ->. done.
    + exists inner. unfold getNodesToDownloadSnapshotFrom. fold a.
      by rewrite Hvote, set_voted_hash_id.
  - intros i Hi Hself Hr.
    assert (i ∈ agreeing a (hashes_ a0 !!! i)) as Hin.
    { apply elem_of_agreeing. subst a. rewrite collected_n, collected_is_self.
      split_and!; [done..|]. specialize (Htotal i Hr). by injection Htotal as -> _ _. }
    split; [done|]. unfold votes.
    destruct (agreeing a (hashes_ a0 !!! i)); [by apply elem_of_nil in Hin|simpl; lia].
  - intros Hver. split.
    + intros Hall.
      pose proof (voteForHash_not_enough a (voted_hash_ a) Hver Hall) as Hvote.
      unfold getNodesToDownloadSnapshotFrom. fold a.
      by rewrite Hvote, set_voted_hash_id.
    + intros H Hc. case_bool_decide as Hv.
      * assert (voteForHash a (voted_hash_ a) =
                  (Ret true, (H, common_signature a H), push_nodes (agreeing a H) a))
          as Hvote by by apply voteForHash_true_iff.
        by rewrite (getNodes_vote_true block a0 _ _ _ Hvote).
      * pose proof (voteForHash_aggregate_fails a (voted_hash_ a) H Hver Hc Hv) as Hvote.
        unfold getNodesToDownloadSnapshotFrom. fold a. by rewrite Hvote.
Qed.

(** C4.  With [a] the agent after collection: if the triple in the slot
    of some counted peer is not verified against that peer's public key
    share (the check answers false or throws), [voteForHash] throws the
    nested verification error, leaving [to_vote] and the agent as they
    were (nothing is tallied and no download source recorded), and the
    error escapes [getNodesToDownloadSnapshotFrom]. *)
Theorem forged_share_aborts_round (a0 : Agent) (block : N) (i : nat) :
  let a := collected block a0 in
  i < n_ a → is_self a i = false → ¬ share_ok a i →
  ∃ inner,
    (∀ to_vote,
       voteForHash a to_vote = (Throw (NestedVerification inner), to_vote, a)) ∧
    getNodesToDownloadSnapshotFrom block a0 = (Throw (NestedVerification inner), a).
Proof.
  intros a Hi Hself Hbad.
  destruct (voteForHash_share_fails a (voted_hash_ a) i Hi Hself Hbad) as [inner Hvote].
  exists inner. split.
  - intros to_vote.
    destruct (voteForHash_share_fails a to_vote i Hi Hself Hbad) as [inner' Hvote'].
    rewrite Hvote'. unfold voteForHash in Hvote, Hvote'.
    destruct (verifyAllData a); [|by destruct (List.find _ _) as [[]|];
      [destruct (Verification _ _ _ _) as [[]|]|]].
    by injection Hvote as ->; injection Hvote' as ->.
  - unfold getNodesToDownloadSnapshotFrom. fold a.
    by rewrite Hvote, set_voted_hash_id.
Qed.

(** ** More on the rounds *)

Lemma collected_bls block a :
  bls_ (collected block a) = mkBls ((2 * n_ a + 2) / 3) (n_ a).
Proof.
  pose proof (collect_frame block (round_start a)) as Hf.
  unfold frame in Hf. injection Hf as E1 E2 E3 E4 E5. unfold collected. by rewrite E3.
Qed.

Lemma collected_voted_hash block a :
  voted_hash_ (collected block a) = voted_hash_ a.
Proof.
  pose proof (collect_frame block (round_start a)) as Hf.
  unfold frame in Hf. injection Hf as E1 E2 E3 E4 E5. unfold collected. by rewrite E5.
Qed.

(** A vote that does not return true leaves [to_vote] as it was. *)
Lemma voteForHash_not_true a to_vote res v a' :
  voteForHash a to_vote = (res, v, a') → res ≠ Ret true → v = to_vote.
Proof.
  unfold voteForHash. destruct (verifyAllData a); [by intros [= _ <- _]|].
  destruct (List.find _ _) as [it|]; [|by intros [= _ <- _]].
  destruct (Verification _ _ _ _) as [[]|]; [|by intros [= _ <- _]..].
  by intros [= <- _ _] ?.
Qed.

(** A vote that returns false or true has recorded the peers agreeing on
    a hash with a supermajority. *)
Lemma voteForHash_ret a to_vote (res : bool) v a' :
  voteForHash a to_vote = (Ret res, v, a') →
  ∃ H, 2 * n_ a < 3 * votes a H ∧ a' = push_nodes (agreeing a H) a ∧
       (res = true →
          v = (H, common_signature a H) ∧
          Verification (bls_ a) H (common_signature a H) (common_public a) = Some true).
Proof.
  unfold voteForHash. destruct (verifyAllData a); [done|].
  destruct (List.find _ _) as [[H c]|] eqn:Hfind; [|done]. simpl.
  apply find_tally in Hfind as [-> Hc].
  destruct (Verification _ _ _ _) as [[]|] eqn:Hv; intros [= <- <- <-];
    exists H; split_and!; done.
Qed.

(** X17.  The list of download sources is never cleared.  In a round in
    which every counted share verifies and the hash [H] has the
    supermajority, the indices of the peers agreeing on [H] are appended
    to the sources recorded by earlier rounds, whether or not the
    recovered signature is accepted; when it is accepted the round returns
    the endpoints of the whole list, those of earlier rounds first, and
    otherwise the empty list. *)
Theorem download_sources_accumulate (a0 : Agent) (block : N) (H : h256) :
  let a := collected block a0 in
  let r := getNodesToDownloadSnapshotFrom block a0 in
  let recorded := nodes_to_download_snapshot_from_ a0 ++ agreeing a H in
  verifyAllData a = None →
  2 * n_ a < 3 * votes a H →
  nodes_to_download_snapshot_from_ r.2 = recorded ∧
  r.1 = if bool_decide (Verification (bls_ a) H (common_signature a H)
                          (common_public a) = Some true)
        then Ret ((λ i, endpoint (node a0 i)) <$> recorded) else Ret [].
Proof.
  intros a r recorded Hver Hc. subst a r recorded.
  case_bool_decide as Hv.
  - assert (voteForHash (collected block a0) (voted_hash_ (collected block a0)) =
              (Ret true, (H, common_signature (collected block a0) H),
               push_nodes (agreeing (collected block a0) H) (collected block a0)))
      as Hvote by (by apply voteForHash_true_iff).
    rewrite (getNodes_vote_true block a0 H _ _ Hvote). simpl.
    by rewrite collected_nodes_to_download.
  - pose proof (voteForHash_aggregate_fails _ (voted_hash_ (collected block a0)) H
                  Hver Hc Hv) as Hvote.
    unfold getNodesToDownloadSnapshotFrom. rewrite Hvote. simpl.
    by rewrite collected_nodes_to_download.
Qed.

(** X18.  In a round at most one hash can have the supermajority
    [3k > 2n], so the hash [std::find_if] stops at does not depend on the
    order of the map; and the number [k] of shares handed to
    [LagrangeCoeffs] and [SignatureRecover] is at least the threshold
    [t = ( 2n + 2 ) / 3] the round has set up libBLS with, and at most
    [n]. *)
Theorem supermajority_is_unique_and_meets_threshold (a0 : Agent) (block : N)
    (H : h256) :
  let a := collected block a0 in
  2 * n_ a < 3 * votes a H →
  bls_ a = mkBls ((2 * n_ a0 + 2) / 3) (n_ a0) ∧
  bls_t (bls_ a) ≤ votes a H ≤ bls_n (bls_ a) ∧
  length ((λ i, i + 1) <$> agreeing a H) = votes a H ∧
  ∀ H', 2 * n_ a < 3 * votes a H' → H' = H.
Proof.
  intros a Hc. unfold a in *. rewrite collected_bls. rewrite collected_n in *.
  cbn [bls_t bls_n].
  pose proof (votes_cast_length (collected block a0)) as Hlen.
  rewrite collected_n in Hlen.
  split_and!; [done| | |by rewrite length_fmap|].
  - assert ((2 * n_ a0 + 2) / 3 < S (votes (collected block a0) H)); [|lia].
    apply Nat.Div0.div_lt_upper_bound. lia.
  - rewrite votes_count. unfold count_hash. etrans; [apply length_filter|]. done.
  - intros H' Hc'. rewrite !votes_count in *.
    by apply (supermajority_unique (n_ a0) H' H (votes_cast (collected block a0))).
Qed.

(** *** [getVotedHash] *)

(** [p == libff::alt_bn128_G1::zero()] and [p.is_well_formed()]. *)
Variable G1_is_zero : G1 → bool.
Variable G1_is_well_formed : G1 → bool.

(** [None] when the assertion fails. *)
Definition getVotedHash (a : Agent) : option (h256 * G1) :=
  if bool_decide ((voted_hash_ a).1 ≠ 0%N) &&
     negb (G1_is_zero (voted_hash_ a).2) &&
     G1_is_well_formed (voted_hash_ a).2
  then Some (voted_hash_ a)
  else None.

(** X19.  A round replaces the voted hash only when it succeeds.  A round
    that returns endpoints has voted a hash [H] with the supermajority
    whose recovered signature was verified against the common public
    key, and that pair is what [getVotedHash] returns afterwards (when
    its assertion holds); after a round that returns the empty list or
    throws, [getVotedHash] answers as it did before the round. *)
Theorem voted_hash_is_replaced_on_success_only (a0 : Agent) (block : N) :
  let a := collected block a0 in
  let r := getNodesToDownloadSnapshotFrom block a0 in
  (∀ l, r.1 = Ret l → l ≠ [] →
     ∃ H, voted_hash_ r.2 = (H, common_signature a H) ∧
          2 * n_ a < 3 * votes a H ∧
          Verification (bls_ a) H (common_signature a H) (common_public a) = Some true ∧
          ∀ v, getVotedHash r.2 = Some v → v = (H, common_signature a H)) ∧
  ((∀ l, r.1 = Ret l → l = []) →
     voted_hash_ r.2 = voted_hash_ a0 ∧ getVotedHash r.2 = getVotedHash a0).
Proof.
  intros a r. subst r. unfold getNodesToDownloadSnapshotFrom. fold a.
  destruct (voteForHash a (voted_hash_ a)) as [[[[]|e] v] a2] eqn:Hvote.
  - apply voteForHash_ret in Hvote as (H & Hc & -> & Hv).
    destruct Hv as [-> Hv]; [done|]. simpl. split.
    + intros l _ _. exists H. split_and!; [done..|].
      intros v. unfold getVotedHash. simpl.
      destruct (_ && _); [by intros [= <-]|done].
    + intros Hempty. exfalso.
      assert (agreeing a H ≠ []) as Hne.
      { intros Heq. unfold votes in Hc. rewrite Heq in Hc. simpl in Hc. lia. }
      specialize (Hempty _ eq_refl). apply fmap_nil_inv in Hempty.
      simpl in Hempty. by apply app_nil in Hempty as [_ ?].
  - pose proof (voteForHash_ret _ _ _ _ _ Hvote) as (H & _ & -> & _).
    apply voteForHash_not_true in Hvote as ->; [|done]. simpl. split.
    + by intros l [= <-] ?.
    + intros _. unfold a, getVotedHash. simpl. by rewrite collected_voted_hash.
  - simpl. split; [done|]. intros _.
    pose proof Hvote as Hv. apply voteForHash_not_true in Hv as ->; [|done].
    assert (a2 = a) as ->.
    { revert Hvote. unfold voteForHash. destruct (verifyAllData a); [by intros [= _ <-]|].
      destruct (List.find _ _); [|by intros [= _ <-]].
      by destruct (Verification _ _ _ _) as [[]|]. }
    rewrite set_voted_hash_id. unfold a, getVotedHash.
    by rewrite collected_voted_hash.
Qed.

End Agent.

(** ** Which answers a round depends on *)

Section Peers.

Context {G1 G2 Fr : Type}.
Context `{!Inhabited G1, !Inhabited G2}.
Variable Verification : Bls → h256 → G1 → G2 → option bool.
Variable LagrangeCoeffs : Bls → list nat → option (list Fr).
Variable SignatureRecover : Bls → list G1 → list Fr → option G1.
Variable G2_of_strings : string * string * string * string → G2.

(** Two networks. *)
Variables rpc1 rpc2 : string → N → option (h256 * G1 * G2).

Lemma collect_list_ext (block : N) (l : list nat) (a : Agent) :
  (∀ i, i ∈ l → is_self a i = false →
     rpc1 (endpoint (node a i)) block = rpc2 (endpoint (node a i)) block) →
  foldl (collect_one rpc1 block) a l = foldl (collect_one rpc2 block) a l.
Proof.
  revert a. induction l as [|i l IH]; intros a Hsame; simpl; [done|].
  assert (collect_one rpc1 block a i = collect_one rpc2 block a i) as ->.
  { unfold collect_one. destruct (is_self a i) eqn:Hself; [done|].
    rewrite Hsame; [done|by left|done]. }
  apply IH. intros j Hj.
  pose proof (collect_one_frame rpc2 block a i) as Hf.
  rewrite (frame_is_self _ _ j Hf), (frame_node _ _ j Hf).
  apply Hsame. by right.
Qed.

(** X20.  A round asks the nodes of the chain other than the node itself,
    at the indices below [n], for the block of the round, and nobody
    else: two networks that answer alike there give the same outcome and
    leave the same agent, whatever they answer at the endpoint of the node
    itself, at other endpoints or for other blocks. *)
Theorem round_depends_on_the_peers_only (a0 : Agent) (block : N) :
  (∀ i, i < n_ a0 → is_self a0 i = false →
     rpc1 (endpoint (node a0 i)) block = rpc2 (endpoint (node a0 i)) block) →
  getNodesToDownloadSnapshotFrom Verification LagrangeCoeffs SignatureRecover
    G2_of_strings rpc1 block a0 =
  getNodesToDownloadSnapshotFrom Verification LagrangeCoeffs SignatureRecover
    G2_of_strings rpc2 block a0.
Proof.
  intros Hsame.
  assert (collected rpc1 block a0 = collected rpc2 block a0) as Hcollected.
  { unfold collected, collect. apply collect_list_ext.
    intros i Hi%elem_of_seq Hself. apply Hsame; [simpl in *; lia|done]. }
  unfold getNodesToDownloadSnapshotFrom. by rewrite Hcollected.
Qed.

End Peers.

(** ** Concrete rounds

    To run the agent, the curve operations are replaced by arithmetic on
    numbers with the same interface: a share [s] over the hash [h] is
    verified against the key [k] when [s = h * k]; the coefficients are all
    one and recovery sums the shares (both throw below the threshold, as
    libBLS does); the common key is read off the first field element. *)

Definition arith_Verification (_ : Bls) (h : h256) (s : N) (k : N) : option bool :=
  Some (s =? h * k)%N.

Definition arith_LagrangeCoeffs (b : Bls) (idx : list nat) : option (list N) :=
  if bool_decide (length idx < bls_t b) then None
  else Some (replicate (length idx) 1%N).

Definition arith_SignatureRecover (b : Bls) (shares : list N) (coeffs : list N) :
    option N :=
  if bool_decide (length shares < bls_t b) then None
  else Some (foldr N.add 0%N (zip_with N.mul shares coeffs)).

Definition arith_G2_of_strings (k : string * string * string * string) : N :=
  N.of_nat (String.length k.1.1.1).

(** The default-constructed point is the zero of the group. *)
Definition arith_zero : Inhabited N := populate 0%N.

Definition arith_voteForHash :=
  voteForHash (Inhabited0 := arith_zero) (Inhabited1 := arith_zero)
    arith_Verification arith_LagrangeCoeffs arith_SignatureRecover
    arith_G2_of_strings.

Definition arith_getNodes :=
  getNodesToDownloadSnapshotFrom (Inhabited0 := arith_zero) (Inhabited1 := arith_zero)
    arith_Verification arith_LagrangeCoeffs arith_SignatureRecover
    arith_G2_of_strings.

Definition arith_new : ChainParams → Agent (G1 := N) (G2 := N) :=
  SnapshotHashAgent_new (Inhabited0 := arith_zero) (Inhabited1 := arith_zero).

Definition arith_verifyAllData : Agent (G1 := N) (G2 := N) → option exn :=
  verifyAllData (Inhabited0 := arith_zero) (Inhabited1 := arith_zero)
    arith_Verification.

(** Four nodes, the first being the node itself; the common key is [3]. *)
Definition nodes4 : list sChainNode :=
  [mkNode 1 "10.0.0.1" 1231; mkNode 2 "10.0.0.2" 1231;
   mkNode 3 "10.0.0.3" 1231; mkNode 4 "10.0.0.4" 1231].

Definition chain4 : ChainParams := mkChainParams 1 nodes4 ("333", "0", "0", "0").

Definition agent4 : Agent (G1 := N) (G2 := N) := arith_new chain4.

(** The same chain with a common key ([1]) that the peers' shares do not
    add up to. *)
Definition chain4_other_key : ChainParams :=
  mkChainParams 1 nodes4 ("1", "0", "0", "0").

Definition agent4_other_key : Agent (G1 := N) (G2 := N) :=
  arith_new chain4_other_key.

(** Seven nodes, the first being the node itself; the common key is [5]. *)
Definition nodes7 : list sChainNode :=
  nodes4 ++ [mkNode 5 "10.0.0.5" 1231; mkNode 6 "10.0.0.6" 1231;
             mkNode 7 "10.0.0.7" 1231].

Definition chain7 : ChainParams := mkChainParams 1 nodes7 ("55555", "0", "0", "0").

Definition agent7 : Agent (G1 := N) (G2 := N) := arith_new chain7.

(** Every peer answers hash [7] with a valid share under the key share [1]. *)
Definition rpc_all_agree (url : string) (block : N) : option (h256 * N * N) :=
  Some (7, 7, 1)%N.

(** The peer at 10.0.0.4 answers another hash, [9], with a valid share. *)
Definition rpc_split (url : string) (block : N) : option (h256 * N * N) :=
  if bool_decide (url = "http://10.0.0.4:1234") then Some (9, 9, 1)%N
  else Some (7, 7, 1)%N.

(** The peer at 10.0.0.3 cannot be reached. *)
Definition rpc_one_down (url : string) (block : N) : option (h256 * N * N) :=
  if bool_decide (url = "http://10.0.0.3:1234") then None
  else Some (7, 7, 1)%N.

(** The peer at 10.0.0.4 answers hash [7] with a share that is not one. *)
Definition rpc_forged (url : string) (block : N) : option (h256 * N * N) :=
  if bool_decide (url = "http://10.0.0.4:1234") then Some (7, 8, 1)%N
  else Some (7, 7, 1)%N.

Example endpoint_of_node :
  endpoint (mkNode 4 "10.0.0.4" 1231) = "http://10.0.0.4:1234".
Proof. reflexivity. Qed.

(** Three of three peers agree in a chain of four: quorum ([9 > 8]). *)
Example round_all_agree :
  arith_getNodes rpc_all_agree 10 agent4 =
    (Ret ["http://10.0.0.2:1234"; "http://10.0.0.3:1234"; "http://10.0.0.4:1234"],
     mkAgent chain4 4 (mkBls 3 4) [0; 7; 7; 7]%N [0; 7; 7; 7]%N [0; 1; 1; 1]%N
       [1; 2; 3] (7%N, 21%N)).
Proof. vm_compute. reflexivity. Qed.

(** Five of six peers agree in a chain of seven while one is down: quorum
    ([15 > 14]); the empty slot of the peer that is down is counted as a
    vote for the zero hash. *)
Example round_one_down :
  (arith_getNodes rpc_one_down 10 agent7).1 =
    Ret ["http://10.0.0.2:1234"; "http://10.0.0.4:1234"; "http://10.0.0.5:1234";
         "http://10.0.0.6:1234"; "http://10.0.0.7:1234"] ∧
  tally (collected rpc_one_down 10 agent7) = [(0%N, 1); (7%N, 5)].
Proof. vm_compute. split; reflexivity. Qed.

(** The peer at 10.0.0.2 cannot be reached; the others answer hash [7]
    with a valid share. *)
Definition rpc_first_down (url : string) (block : N) : option (h256 * N * N) :=
  if bool_decide (url = "http://10.0.0.2:1234") then None
  else Some (7, 7, 1)%N.

(** The agent of the chain of four after the round in which the peers
    were split, which ended in "not enough votes": the answers of that
    round are still in the slots, and no download source is recorded. *)
Definition agent4_after_split : Agent (G1 := N) (G2 := N) :=
  (arith_getNodes rpc_split 10 agent4).2.

Example round_split :
  arith_getNodes rpc_split 10 agent4 =
    (Throw NotEnoughVotes,
     mkAgent chain4 4 (mkBls 3 4) [0; 7; 7; 9]%N [0; 7; 7; 9]%N [0; 1; 1; 1]%N
       [] (0%N, 0%N)).
Proof. vm_compute. reflexivity. Qed.

Lemma agent4_after_split_well_sized : well_sized agent4_after_split.
Proof. vm_compute. split_and!; reflexivity. Qed.

Lemma agent4_after_split_fresh :
  nodes_to_download_snapshot_from_ agent4_after_split = [].
Proof. vm_compute. reflexivity. Qed.

(** C1, counterexample.  First round: all three peers of a chain of four
    report hash [7] with shares that verify against their own key shares,
    so [3k > 2n] holds for it ([9 > 8]); the recovered signature does not
    verify against the common key, and [voteForHash] selects nothing: it
    returns false.  Second round, on the agent left by the split round:
    the peer at 10.0.0.2 is down and the two others report hash [7], so
    [3k > 2n] does not hold for the peers reporting it ([6 ≤ 8]); the
    slot of the peer that is down still holds the [7] of the round
    before, [voteForHash] selects [7], and the endpoint of the peer that
    is down is among those returned. *)
Lemma reported_supermajority_is_not_the_test :
  (let a := collected rpc_all_agree 10 agent4_other_key in
   (λ i, rpc_all_agree (endpoint (node agent4_other_key i)) 10) <$> [1; 2; 3] =
     [Some (7, 7, 1)%N; Some (7, 7, 1)%N; Some (7, 7, 1)%N] ∧
   n_ a = 4 ∧
   arith_verifyAllData a = None ∧
   (arith_voteForHash a (voted_hash_ a)).1 = (Ret false, voted_hash_ a) ∧
   (arith_getNodes rpc_all_agree 10 agent4_other_key).1 = Ret []) ∧
  (let a := collected rpc_first_down 11 agent4_after_split in
   nodes_to_download_snapshot_from_ agent4_after_split = [] ∧
   (λ i, rpc_first_down (endpoint (node agent4_after_split i)) 11) <$> [1; 2; 3] =
     [None; Some (7, 7, 1)%N; Some (7, 7, 1)%N] ∧
   n_ a = 4 ∧
   (arith_voteForHash a (voted_hash_ a)).1 = (Ret true, (7%N, 21%N)) ∧
   (arith_getNodes rpc_first_down 11 agent4_after_split).1 =
     Ret ["http://10.0.0.2:1234"; "http://10.0.0.3:1234"; "http://10.0.0.4:1234"]).
Proof. vm_compute. split_and!; reflexivity. Qed.

(** C1 at a concrete round: the round on the agent left by the split
    round, with the peer at 10.0.0.2 down.  All three peers are counted
    with hash [7], the peer that is down with the [7] its slot held
    before, and the endpoints returned are theirs. *)
Lemma vote_selects_verified_supermajority_witness :
  well_sized agent4_after_split ∧
  nodes_to_download_snapshot_from_ agent4_after_split = [] ∧
  counted_for (Inhabited0 := arith_zero) (Inhabited1 := arith_zero)
    rpc_first_down 11 agent4_after_split 7%N = [1; 2; 3] ∧
  (arith_getNodes rpc_first_down 11 agent4_after_split).1 =
    Ret ((λ i, endpoint (node agent4_after_split i)) <$>
           counted_for (Inhabited0 := arith_zero) (Inhabited1 := arith_zero)
             rpc_first_down 11 agent4_after_split 7%N).
Proof.
  split; [exact agent4_after_split_well_sized|].
  split; [exact agent4_after_split_fresh|].
  split; [vm_compute; reflexivity|].
  pose proof (vote_selects_verified_supermajority
    (Inhabited0 := arith_zero) (Inhabited1 := arith_zero) arith_Verification
    arith_LagrangeCoeffs arith_SignatureRecover arith_G2_of_strings
    rpc_first_down agent4_after_split 11 agent4_after_split_well_sized
    agent4_after_split_fresh) as (_ & _ & Hnodes & _).
  eapply Hnodes. vm_compute. reflexivity.
Defined.

(** C2, counterexample.  Two peers of a chain of four report hash [7] and
    one reports hash [9], all shares verifying: no hash reaches [3k > 2n]
    ([6 ≤ 8], [3 ≤ 8]), and the outcome is the exception, not a negative
    answer or an empty list. *)
Lemma no_quorum_is_an_exception :
  let a := collected rpc_split 10 agent4 in
  arith_verifyAllData a = None ∧
  tally a = [(7%N, 2); (9%N, 1)] ∧
  arith_voteForHash a (voted_hash_ a) = (Throw NotEnoughVotes, voted_hash_ a, a) ∧
  (arith_getNodes rpc_split 10 agent4).1 = Throw NotEnoughVotes.
Proof. vm_compute. split_and!; reflexivity. Qed.

(** C2 at concrete rounds: the split round, where the exception escapes,
    and the round whose recovered signature is rejected, which returns the
    empty list. *)
Lemma no_quorum_throws_bad_aggregate_is_negative_witness :
  (let a := collected rpc_split 10 agent4 in
   arith_verifyAllData a = None ∧
   arith_getNodes rpc_split 10 agent4 = (Throw NotEnoughVotes, a)) ∧
  (let a := collected rpc_all_agree 10 agent4_other_key in
   arith_verifyAllData a = None ∧
   2 * n_ a < 3 * votes a 7%N ∧
   (arith_getNodes rpc_all_agree 10 agent4_other_key).1 = Ret []).
Proof.
  split.
  - assert (arith_verifyAllData (collected rpc_split 10 agent4) = None) as Hver
      by (vm_compute; reflexivity).
    split; [exact Hver|].
    apply (no_quorum_throws_bad_aggregate_is_negative
             (Inhabited0 := arith_zero) (Inhabited1 := arith_zero)
             arith_Verification arith_LagrangeCoeffs arith_SignatureRecover
             arith_G2_of_strings rpc_split agent4 10 Hver).
    intros H. rewrite votes_count.
    change (n_ (collected rpc_split 10 agent4)) with 4.
    change (votes_cast (collected rpc_split 10 agent4)) with [7; 7; 9]%N.
    unfold count_hash. rewrite !filter_cons, filter_nil.
    repeat case_decide; simpl; lia.
  - assert (arith_verifyAllData (collected rpc_all_agree 10 agent4_other_key) = None)
      as Hver by (vm_compute; reflexivity).
    assert (2 * n_ (collected rpc_all_agree 10 agent4_other_key)
            < 3 * votes (collected rpc_all_agree 10 agent4_other_key) 7%N) as Hc
      by (vm_compute; lia).
    split_and!; [exact Hver|exact Hc|].
    apply (no_quorum_throws_bad_aggregate_is_negative
             (Inhabited0 := arith_zero) (Inhabited1 := arith_zero)
             arith_Verification arith_LagrangeCoeffs arith_SignatureRecover
             arith_G2_of_strings rpc_all_agree agent4_other_key 10 Hver) with (H := 7%N);
      [exact Hc|].
    vm_compute. discriminate.
Defined.

(** A verification that, unlike the arithmetic one, throws on the
    default-constructed key share. *)
Definition strict_Verification (b : Bls) (h : h256) (s : N) (k : N) : option bool :=
  if (k =? 0)%N then None else arith_Verification b h s k.

Definition strict_getNodes :=
  getNodesToDownloadSnapshotFrom (Inhabited0 := arith_zero) (Inhabited1 := arith_zero)
    strict_Verification arith_LagrangeCoeffs arith_SignatureRecover
    arith_G2_of_strings.

(** C3, counterexample.  On the agent left by the split round the peer
    at 10.0.0.2 is down: its slot is not empty, it holds the answer of
    the round before, which is tallied with the answers of the two
    others (three votes for [7]), and the endpoint of the peer that is
    down is returned as a download source.  On a new agent of the chain
    of seven the peer at 10.0.0.3 is down: its empty slot is verified and
    tallied like every other (one vote for the zero hash), and under a
    verification that throws on the default-constructed key share the
    round is aborted by the nested verification error for that peer. *)
Lemma failed_peer_slot_is_verified_and_tallied :
  (let a := collected rpc_first_down 11 agent4_after_split in
   rpc_first_down (endpoint (node agent4_after_split 1)) 11 = None ∧
   slot a 1 = (Some 7%N, Some 7%N, Some 1%N) ∧
   tally a = [(7%N, 3)] ∧
   (arith_getNodes rpc_first_down 11 agent4_after_split).1 =
     Ret ["http://10.0.0.2:1234"; "http://10.0.0.3:1234"; "http://10.0.0.4:1234"]) ∧
  (let a := collected rpc_one_down 10 agent7 in
   rpc_one_down (endpoint (node agent7 2)) 10 = None ∧
   slot a 2 = (Some 0%N, Some 0%N, Some 0%N) ∧
   tally a = [(0%N, 1); (7%N, 5)] ∧
   strict_getNodes rpc_one_down 10 agent7 =
     (Throw (NestedVerification (BlsThrew 2)), a)).
Proof. vm_compute. split_and!; reflexivity. Qed.

(** C3 at concrete rounds.  On the chain of seven the peer at index 2 is
    down and keeps its empty slot, which counts as a vote for the zero
    hash, the peer at index 3 has its answer in its slot, and the round
    returns the endpoints of the five peers whose slot holds [7]; under
    the verification that throws on the default-constructed key share the
    same round throws the nested verification error.  On the agent left
    by the split round the peer at index 1 is down and keeps the slot of
    the round before, which counts as a vote for [7]. *)
Lemma peer_failure_leaves_slot_and_round_goes_on_witness :
  (let a := collected rpc_one_down 10 agent7 in
   rpc_one_down (endpoint (node agent7 2)) 10 = None ∧
   slot a 2 = (Some 0%N, Some 0%N, Some 0%N) ∧
   slot a 3 = (Some 7%N, Some 7%N, Some 1%N) ∧
   2 ∈ agreeing a 0%N ∧
   (arith_getNodes rpc_one_down 10 agent7).1 =
     Ret ["http://10.0.0.2:1234"; "http://10.0.0.4:1234"; "http://10.0.0.5:1234";
          "http://10.0.0.6:1234"; "http://10.0.0.7:1234"] ∧
   ∃ inner,
     strict_getNodes rpc_one_down 10 agent7 = (Throw (NestedVerification inner), a)) ∧
  (let a := collected rpc_first_down 11 agent4_after_split in
   rpc_first_down (endpoint (node agent4_after_split 1)) 11 = None ∧
   slot a 1 = slot agent4_after_split 1 ∧
   1 ∈ agreeing a 7%N).
Proof.
  assert (rpc_one_down (endpoint (node agent7 2)) 10 = None) as Hdown
    by (vm_compute; reflexivity).
  assert (rpc_first_down (endpoint (node agent4_after_split 1)) 11 = None) as Hdown1
    by (vm_compute; reflexivity).
  pose proof (peer_failure_leaves_slot_and_round_goes_on
    (Inhabited0 := arith_zero) (Inhabited1 := arith_zero) arith_Verification
    arith_LagrangeCoeffs arith_SignatureRecover arith_G2_of_strings
    rpc_one_down agent7 10) as (_ & Hempty & Hset & _ & Hvote & Hround).
  pose proof (peer_failure_leaves_slot_and_round_goes_on
    (Inhabited0 := arith_zero) (Inhabited1 := arith_zero) strict_Verification
    arith_LagrangeCoeffs arith_SignatureRecover arith_G2_of_strings
    rpc_one_down agent7 10) as (_ & _ & _ & Hverify & _).
  pose proof (peer_failure_leaves_slot_and_round_goes_on
    (Inhabited0 := arith_zero) (Inhabited1 := arith_zero) arith_Verification
    arith_LagrangeCoeffs arith_SignatureRecover arith_G2_of_strings
    rpc_first_down agent4_after_split 11) as (Hkept1 & _ & _ & _ & Hvote1 & _).
  split; split_and!.
  - exact Hdown.
  - apply (Hempty chain7); [reflexivity|vm_compute; lia|exact Hdown].
  - apply Hset; (vm_compute; reflexivity) || (vm_compute; lia).
  - apply (Hvote 2); [vm_compute; lia|vm_compute; reflexivity|exact Hdown].
  - destruct Hround as [_ Hquorum]; [vm_compute; reflexivity|].
    unfold arith_getNodes. rewrite (Hquorum 7%N) by (vm_compute; lia).
    vm_compute. reflexivity.
  - apply (Hverify 2); [vm_compute; lia|vm_compute; reflexivity|exact Hdown|].
    vm_compute. discriminate.
  - exact Hdown1.
  - apply Hkept1, Hdown1.
  - apply (Hvote1 1); [vm_compute; lia|vm_compute; reflexivity|exact Hdown1].
Defined.

(** C4 at a concrete round: the share of the peer at index 3 is not a
    share over its hash, and the round ends in the nested verification
    error. *)
Lemma forged_share_aborts_round_witness :
  let a := collected rpc_forged 10 agent4 in
  hashes_ a !! 3 = Some 7%N ∧ signatures_ a !! 3 = Some 8%N ∧
  ∃ inner,
    (∀ to_vote,
       arith_voteForHash a to_vote = (Throw (NestedVerification inner), to_vote, a)) ∧
    arith_getNodes rpc_forged 10 agent4 = (Throw (NestedVerification inner), a).
Proof.
  split_and!; [reflexivity..|].
  apply (forged_share_aborts_round
           (Inhabited0 := arith_zero) (Inhabited1 := arith_zero)
           arith_Verification arith_LagrangeCoeffs arith_SignatureRecover
           arith_G2_of_strings rpc_forged agent4 10 3).
  - vm_compute. lia.
  - reflexivity.
  - vm_compute. discriminate.
Defined.

Example round_forged :
  (arith_getNodes rpc_forged 10 agent4).1 = Throw (NestedVerification (NotVerified 3)).
Proof. vm_compute. reflexivity. Qed.

(** The agent of the chain of four after a first successful round. *)
Definition agent4_after_round : Agent (G1 := N) (G2 := N) :=
  (arith_getNodes rpc_all_agree 10 agent4).2.

(** A second round on the same agent returns every endpoint twice. *)
Example round_twice :
  arith_getNodes rpc_all_agree 11 agent4_after_round =
    (Ret ["http://10.0.0.2:1234"; "http://10.0.0.3:1234"; "http://10.0.0.4:1234";
          "http://10.0.0.2:1234"; "http://10.0.0.3:1234"; "http://10.0.0.4:1234"],
     mkAgent chain4 4 (mkBls 3 4) [0; 7; 7; 7]%N [0; 7; 7; 7]%N [0; 1; 1; 1]%N
       [1; 2; 3; 1; 2; 3] (7%N, 21%N)).
Proof. vm_compute. reflexivity. Qed.

(** X17 at a concrete round: the second round on the chain of four. *)
Lemma download_sources_accumulate_witness :
  let a := collected rpc_all_agree 11 agent4_after_round in
  let r := arith_getNodes rpc_all_agree 11 agent4_after_round in
  let recorded := [1; 2; 3] ++ agreeing a 7%N in
  arith_verifyAllData a = None ∧
  2 * n_ a < 3 * votes a 7%N ∧
  nodes_to_download_snapshot_from_ r.2 = recorded ∧
  r.1 = if bool_decide (arith_Verification (bls_ a) 7%N
                          (common_signature (Inhabited0 := arith_zero)
                             arith_LagrangeCoeffs arith_SignatureRecover a 7%N)
                          (common_public arith_G2_of_strings a) = Some true)
        then Ret ((λ i, endpoint (node agent4_after_round i)) <$> recorded) else Ret [].
Proof.
  intros a r recorded.
  assert (arith_verifyAllData a = None) as Hver by (vm_compute; reflexivity).
  assert (2 * n_ a < 3 * votes a 7%N) as Hc by (vm_compute; lia).
  split_and!; [exact Hver|exact Hc|..];
    apply (download_sources_accumulate
             (Inhabited0 := arith_zero) (Inhabited1 := arith_zero)
             arith_Verification arith_LagrangeCoeffs arith_SignatureRecover
             arith_G2_of_strings rpc_all_agree agent4_after_round 11 7%N Hver Hc).
Defined.

(** X18 at a concrete round: five of six peers of the chain of seven
    agree, the threshold being five. *)
Lemma supermajority_is_unique_and_meets_threshold_witness :
  let a := collected rpc_one_down 10 agent7 in
  2 * n_ a < 3 * votes a 7%N ∧
  bls_ a = mkBls 5 7 ∧ votes a 7%N = 5 ∧
  bls_t (bls_ a) ≤ votes a 7%N ≤ bls_n (bls_ a) ∧
  ∀ H', 2 * n_ a < 3 * votes a H' → H' = 7%N.
Proof.
  intros a.
  assert (2 * n_ a < 3 * votes a 7%N) as Hc by (vm_compute; lia).
  destruct (supermajority_is_unique_and_meets_threshold rpc_one_down agent7 10 7%N Hc)
    as (Hbls & Ht & _ & Huniq).
  split; [exact Hc|]. split; [reflexivity|]. split; [reflexivity|].
  split; [exact Ht|exact Huniq].
Defined.

(** A network that answers like [rpc_all_agree] except at the endpoint
    of the node itself and for other blocks. *)
Definition rpc_all_agree_but_self (url : string) (block : N) : option (h256 * N * N) :=
  if bool_decide (url = "http://10.0.0.1:1234") then Some (9, 9, 1)%N
  else if bool_decide (block = 10%N) then Some (7, 7, 1)%N
  else None.

(** X20 at a concrete round on the chain of four. *)
Lemma round_depends_on_the_peers_only_witness :
  rpc_all_agree "http://10.0.0.1:1234" 10 = Some (7, 7, 1)%N ∧
  rpc_all_agree_but_self "http://10.0.0.1:1234" 10 = Some (9, 9, 1)%N ∧
  arith_getNodes rpc_all_agree 10 agent4 = arith_getNodes rpc_all_agree_but_self 10 agent4.
Proof.
  split_and!; [reflexivity..|].
  apply (round_depends_on_the_peers_only
           (Inhabited0 := arith_zero) (Inhabited1 := arith_zero)
           arith_Verification arith_LagrangeCoeffs arith_SignatureRecover
           arith_G2_of_strings rpc_all_agree rpc_all_agree_but_self agent4 10).
  intros i Hi Hself. change (n_ agent4) with 4 in Hi.
  destruct i as [|[|[|[|i]]]]; [discriminate Hself|reflexivity..|lia].
Defined.

(** X19 at concrete rounds: the successful round sets the voted hash, the
    round whose recovered signature is rejected leaves it as it was. *)
Example voted_hash_after_rounds :
  voted_hash_ (arith_getNodes rpc_all_agree 10 agent4).2 = (7%N, 21%N) ∧
  voted_hash_ agent4_other_key = (0%N, 0%N) ∧
  voted_hash_ (arith_getNodes rpc_all_agree 10 agent4_other_key).2 = (0%N, 0%N) ∧
  nodes_to_download_snapshot_from_ (arith_getNodes rpc_all_agree 10 agent4_other_key).2 =
    [1; 2; 3].
Proof. vm_compute. split_and!; reflexivity. Qed.

End SnapshotHashAgent.

(** * SnapshotManager *)

Module SnapshotManager.

(** The exceptions of [SnapshotManager] and the ones that escape it. *)
Inductive exn : Type :=
  | InvalidPath (p : string)
  | CannotRead (p : string)
  | CannotWrite (p : string)
  | CannotCreate (p : string)
  | CannotDelete (p : string)
  | SnapshotPresent (b : N)
  | SnapshotAbsent (b : N)
  | CannotPerformBtrfsOperation
  | StoiOutOfRange.            (* std::out_of_range thrown by std::stoi *)

(** A snapshot directory [snapshots_dir / to_string( b )]: the read-only
    volume clones it holds, by volume name, each with its content.  The
    hash file the directory may hold as well plays no part in the
    operations below. *)
Abbreviation SnapshotDir := (gmap string string).

(** The part of the data directory the manager works on.  A directory
    under [snapshots_dir] is named by the decimal rendering of its block
    number and is kept under that number; a file under [diffs_dir] is kept
    under its name. *)
Record State : Type := mkState {
  live : gmap string string;        (* data_dir / vol: the live volumes *)
  snapshots : gmap N SnapshotDir;   (* snapshots_dir / to_string( b ) *)
  diffs : gmap string string;       (* the regular files of diffs_dir *)
  sends : nat                       (* how many times btrfs.send has run *)
}.

Definition set_snapshots (s : gmap N SnapshotDir) (st : State) : State :=
  mkState (live st) s (diffs st) (sends st).

Definition set_diffs (d : gmap string string) (st : State) : State :=
  mkState (live st) (snapshots st) d (sends st).

(** ** State and exceptions *)

Definition M (A : Type) : Type := State → result exn A * State.

Definition ret {A} (a : A) : M A := λ st, (Ret a, st).

Definition throw {A} (e : exn) : M A := λ st, (Throw e, st).

Definition bind {A B} (m : M A) (k : A → M B) : M B :=
  λ st,
    match m st with
    | (Ret a, st') => k a st'
    | (Throw e, st') => (Throw e, st')
    end.

Notation "'do' x <- m ;; k" := (bind m (λ x, k))
  (at level 10, x name, m at level 99, k at level 200,
   format "'[v' 'do'  x  <-  m ;; '/' k ']'").

Definition gets {A} (f : State → A) : M A := λ st, (Ret (f st), st).

Definition modify (f : State → State) : M unit := λ st, (Ret (), f st).

(** A [for] loop over a container whose body may throw. *)
Fixpoint for_each {A} (l : list A) (body : A → M unit) : M unit :=
  match l with
  | [] => ret ()
  | x :: l' => do _ <- body x;; for_each l' body
  end.

(** ** [boost::filesystem]

    The operations on the modelled directories do not fail, so the
    handlers that wrap a [fs::filesystem_error] into [CannotRead],
    [CannotCreate] or [CannotDelete] are never entered. *)

(** [fs::exists( snapshots_dir / to_string( b ) )] *)
Definition fs_exists_snapshot (b : N) : M bool :=
  gets (λ st, bool_decide (is_Some (snapshots st !! b))).

(** [fs::create_directory( snapshots_dir / to_string( b ) )] *)
Definition fs_create_snapshot_dir (b : N) : M unit :=
  modify (λ st,
    match snapshots st !! b with
    | Some _ => st
    | None => set_snapshots (<[b:=∅]> (snapshots st)) st
    end).

(** [fs::remove_all( snapshots_dir / to_string( b ) )] *)
Definition fs_remove_all_snapshot (b : N) : M unit :=
  modify (λ st, set_snapshots (delete b (snapshots st)) st).

(** [fs::is_regular( diffs_dir / name )] *)
Definition fs_is_regular_diff (name : string) : M bool :=
  gets (λ st, bool_decide (is_Some (diffs st !! name))).

(** [fs::remove( diffs_dir / name )]: no error when the file is absent. *)
Definition fs_remove_diff (name : string) : M unit :=
  modify (λ st, set_diffs (delete name (diffs st)) st).

(** [std::stoi] on the decimal rendering of [b]: the value as an [int], or
    [std::out_of_range] beyond [INT_MAX]. *)
Definition INT_MAX : Z := 2147483647.

Definition stoi (b : N) : result exn Z :=
  if bool_decide (Z.of_N b ≤ INT_MAX)%Z then Ret (Z.of_N b) else Throw StoiOutOfRange.

(** ** [std::map< int, fs::path, std::greater< int > >]

    The entries in iteration order ([begin() .. end()]), greatest key
    first; the mapped path is given by the number naming the directory. *)

Fixpoint numbers_insert (k : Z) (f : N) (m : list (Z * N)) : list (Z * N) :=
  match m with
  | [] => [(k, f)]
  | (k', f') :: m' =>
      if (k' <? k)%Z then (k, f) :: (k', f') :: m'
      else if (k =? k')%Z then (k', f') :: m'
      else (k', f') :: numbers_insert k f m'
  end.

(** The loop that fills [numbers] from the entries of a directory:
    [if ( basename( f ) != "0" ) numbers.insert( make_pair( stoi( basename( f ) ), f ) )]. *)
Fixpoint fill_numbers (entries : list N) (numbers : list (Z * N)) :
    result exn (list (Z * N)) :=
  match entries with
  | [] => Ret numbers
  | f :: entries' =>
      if bool_decide (f ≠ 0%N) then
        match stoi f with
        | Ret k => fill_numbers entries' (numbers_insert k f numbers)
        | Throw e => Throw e
        end
      else fill_numbers entries' numbers
  end.

(** What [getLatestSnasphot] does: it returns, it throws, or it reads
    through an iterator that points nowhere. *)
Inductive outcome (A : Type) : Type :=
  | Returns (a : A)
  | Throws (e : exn)
  | Undefined.
Arguments Returns {A} a.
Arguments Throws {A} e.
Arguments Undefined {A}.

Section Manager.

(** [this->volumes], fixed by the constructor, which asserts that there
    is at least one. *)
Variable volumes : list string.

(** The order in which [fs::directory_iterator( snapshots_dir )] yields
    the directories. *)
Variable directory_iterator : gmap N SnapshotDir → list N.

(** The stream [btrfs send] writes for a clone of the given content. *)
Variable send_stream : string → string.

(** *** The btrfs wrapper

    Modelled from the spec: skutils/btrfs.h is not among the sources.
    Each primitive either fully succeeds and returns [true] (status 0)
    or fails; deleting fails on a volume that does not exist,
    snapshotting fails without its source or when the clone is already
    there. *)

(** [btrfs.subvolume.snapshot_r( data_dir / vol, snapshots_dir / to_string( b ) )] *)
Definition btrfs_subvolume_snapshot_r (vol : string) (b : N) : M bool :=
  λ st,
    match live st !! vol, snapshots st !! b with
    | Some content, Some dir =>
        match dir !! vol with
        | None => (Ret true, set_snapshots (<[b:=<[vol:=content]> dir]> (snapshots st)) st)
        | Some _ => (Ret false, st)
        end
    | _, _ => (Ret false, st)
    end.

(** [btrfs.subvolume._delete( snapshots_dir / to_string( b ) / vol )] *)
Definition btrfs_subvolume_delete (b : N) (vol : string) : M bool :=
  λ st,
    match snapshots st !! b with
    | Some dir =>
        match dir !! vol with
        | Some _ => (Ret true, set_snapshots (<[b:=delete vol dir]> (snapshots st)) st)
        | None => (Ret false, st)
        end
    | None => (Ret false, st)
    end.

(** [btrfs.send( NULL, diffs_dir / part, snapshots_dir / to_string( b ) / vol )]:
    the output file is created even in case of error. *)
Definition btrfs_send (part : string) (b : N) (vol : string) : M bool :=
  λ st,
    let st1 := mkState (live st) (snapshots st) (diffs st) (S (sends st)) in
    match snapshots st !! b ≫= (λ dir, dir !! vol) with
    | Some content => (Ret true, set_diffs (<[part:=send_stream content]> (diffs st1)) st1)
    | None => (Ret false, set_diffs (<[part:=""]> (diffs st1)) st1)
    end.

(** *** The command line of [cat] and the shell

    [makeOrGetDiff] assembles the diff with
    [system( "cat part ... >path" )].  The parts are written to the
    command line as they are, the target with the [operator<<] of
    [fs::path], which puts it in double quotes.  Paths are relative to
    [diffs_dir], whose own name is not part of the model.  Of the syntax
    of the shell the model has the splitting of the line into words at
    blanks, the redirection that ends the line and the removal of its
    quotes; a name that holds another character the shell treats
    specially is outside of it. *)

Definition char_dquote : Ascii.ascii := Ascii.ascii_of_N 34.
Definition char_amp : Ascii.ascii := Ascii.ascii_of_N 38.
Definition char_gt : Ascii.ascii := Ascii.ascii_of_N 62.
Definition char_space : Ascii.ascii := Ascii.ascii_of_N 32.

(** [boost::io::quoted( s, '&' )] without the quotes around it: the
    escape character goes before a quote and before itself. *)
Fixpoint quoted_escape (s : string) : string :=
  match s with
  | String c s' =>
      if bool_decide (c = char_dquote ∨ c = char_amp)
      then String char_amp (String c (quoted_escape s'))
      else String c (quoted_escape s')
  | EmptyString => EmptyString
  end.

Definition quoted (s : string) : string :=
  String char_dquote (quoted_escape s +:+ String char_dquote EmptyString).

(** [cat_cmd.str()] once the loop over the volumes has ended and
    [">" << path] was written. *)
Definition cat_cmd (parts : list string) (path : string) : string :=
  "cat " +:+
  foldr (λ part_path rest, part_path +:+ " " +:+ rest) (">" +:+ quoted path) parts.

(** Space, tab and newline separate the words of a command line. *)
Definition shell_blank (c : Ascii.ascii) : bool :=
  bool_decide (Ascii.N_of_ascii c = 32 ∨ Ascii.N_of_ascii c = 9 ∨
               Ascii.N_of_ascii c = 10)%N.

(** The words of a line, [word] being the word that is being read. *)
Fixpoint shell_words_go (s : string) (word : string) : list string :=
  match s with
  | String c s' =>
      if shell_blank c then
        (if bool_decide (word = EmptyString) then [] else [word]) ++
        shell_words_go s' EmptyString
      else shell_words_go s' (word +:+ String c EmptyString)
  | EmptyString => if bool_decide (word = EmptyString) then [] else [word]
  end.

Definition shell_words (s : string) : list string := shell_words_go s EmptyString.

(** A word without the double quote that ends it. *)
Fixpoint drop_closing_quote (s : string) : string :=
  match s with
  | String c EmptyString =>
      if bool_decide (c = char_dquote) then EmptyString else s
  | String c s' => String c (drop_closing_quote s')
  | EmptyString => EmptyString
  end.

(** Quote removal on a word in double quotes. *)
Definition unquote (w : string) : string :=
  match w with
  | String c r => if bool_decide (c = char_dquote) then drop_closing_quote r else w
  | EmptyString => w
  end.

(** [system( cmd ) == 0] for a line [cat word ... >target]: the shell
    creates the target, [cat] copies to it the files it can read, in the
    order of the words, and exits with [0] when it could read them all.
    The lines [makeOrGetDiff] builds have this form; an empty line runs
    nothing, with status [0], and for a line of another form nothing is
    run and the status is not [0]. *)
Definition system (cmd : string) : M bool :=
  λ st,
    match shell_words cmd with
    | prog :: args =>
        match reverse args with
        | String c target :: rev_files =>
            if bool_decide (prog = "cat" ∧ c = char_gt) then
              let contents := (λ p, diffs st !! p) <$> reverse rev_files in
              let out := foldr String.append "" (omap id contents) in
              (Ret (bool_decide (Forall is_Some contents)),
               set_diffs (<[unquote target:=out]> (diffs st)) st)
            else (Ret false, st)
        | _ => (Ret false, st)
        end
    | [] => (Ret true, st)
    end.

Arguments system : simpl never.

(** The body of the loops that delete the clones of a snapshot:
    [if ( btrfs.subvolume._delete( ... ) ) throw CannotPerformBtrfsOperation( ... )]. *)
Definition delete_volume (b : N) (vol : string) : M unit :=
  do ok <- btrfs_subvolume_delete b vol;;
  if ok then ret () else throw CannotPerformBtrfsOperation.

(** The body of the loop that clones the volumes. *)
Definition snapshot_volume (b : N) (vol : string) : M unit :=
  do ok <- btrfs_subvolume_snapshot_r vol b;;
  if ok then ret () else throw CannotPerformBtrfsOperation.

(** *** [doSnapshot] *)

Definition doSnapshot (_blockNumber : N) : M unit :=
  do present <- fs_exists_snapshot _blockNumber;;
  if present then throw (SnapshotPresent _blockNumber)
  else
    do _ <- fs_create_snapshot_dir _blockNumber;;
    for_each volumes (snapshot_volume _blockNumber).

(** *** [removeSnapshot] *)

Definition removeSnapshot (_blockNumber : N) : M unit :=
  do present <- fs_exists_snapshot _blockNumber;;
  if negb present then throw (SnapshotAbsent _blockNumber)
  else
    for_each volumes (delete_volume _blockNumber).

(** *** [leaveNLastSnapshots] *)

(** [i++] on an [unsigned]. *)
Definition UINT_RANGE : N := 4294967296.

Definition unsigned_succ (i : N) : N := ((i + 1) mod UINT_RANGE)%N.

(** The second loop, [i] being the counter: [if ( i++ > n ) { ... }]. *)
Fixpoint prune (n i : N) (numbers : list (Z * N)) : M unit :=
  match numbers with
  | [] => ret ()
  | p :: numbers' =>
      if (n <? i)%N then
        do _ <- for_each volumes (delete_volume p.2);;
        do _ <- fs_remove_all_snapshot p.2;;
        prune n (unsigned_succ i) numbers'
      else prune n (unsigned_succ i) numbers'
  end.

Definition leaveNLastSnapshots (n : N) : M unit :=
  λ st,
    match fill_numbers (directory_iterator (snapshots st)) [] with
    | Throw e => (Throw e, st)
    | Ret numbers => prune n 1 numbers st
    end.

(** *** [getLatestSnasphot] *)

Definition getLatestSnasphot (st : State) : outcome (Z * Z) :=
  match fill_numbers (directory_iterator (snapshots st)) [] with
  | Throw e => Throws e
  | Ret numbers =>
      match numbers with
      | [] => Returns (0, 0)%Z
      | _ =>
          (* [it = numbers.rbegin()]; [*it++] reads the last entry *)
          match rev numbers with
          | [] => Undefined
          | p0 :: it =>
              match stoi p0.2 with
              | Throw e => Throws e
              | Ret fst_ =>
                  if bool_decide (1 < length numbers) then Returns (fst_, 0%Z)
                  else
                    (* [*it] once more *)
                    match it with
                    | [] => Undefined
                    | p1 :: _ =>
                        match stoi p1.2 with
                        | Throw e => Throws e
                        | Ret snd_ => Returns (fst_, snd_)
                        end
                    end
              end
          end
      end
  end.

(** *** [makeOrGetDiff] *)

(** [getDiffPath], relative to [diffs_dir]. *)
Definition getDiffPath (_toBlock : N) : string := pretty _toBlock.

(** The loop over the volumes; [created] holds the parts created so far. *)
Fixpoint send_volumes (_toBlock : N) (path : string) (vols : list string)
    (created : list string) : M (list string) :=
  match vols with
  | [] => ret created
  | vol :: vols' =>
      let part_path := path +:+ "_" +:+ vol in
      let created' := created ++ [part_path] in
      do ok <- btrfs_send part_path _toBlock vol;;
      if ok then send_volumes _toBlock path vols' created'
      else
        do _ <- fs_remove_diff path;;
        do _ <- for_each created' fs_remove_diff;;
        throw CannotPerformBtrfsOperation
  end.

Definition makeOrGetDiff (_toBlock : N) : M string :=
  let path := getDiffPath _toBlock in
  do cached <- fs_is_regular_diff path;;
  if cached then ret path
  else
    do present <- fs_exists_snapshot _toBlock;;
    if negb present then
      do _ <- fs_remove_diff path;;
      throw (SnapshotAbsent _toBlock)
    else
      do created <- send_volumes _toBlock path volumes [];;
      do cat_ok <- system (cat_cmd created path);;
      do _ <- for_each created fs_remove_diff;;
      if cat_ok then ret path else throw (CannotWrite path).

(** ** Properties *)

(** Reading a field of a state that has just been written. *)
Ltac simpl_state :=
  unfold set_snapshots, set_diffs in *;
  cbn [snapshots live diffs sends] in *.

(** *** The monad *)

Lemma bind_ret_inv {A B} (m : M A) (k : A → M B) st b st' :
  (do x <- m;; k x) st = (Ret b, st') →
  ∃ a st1, m st = (Ret a, st1) ∧ k a st1 = (Ret b, st').
Proof.
  unfold bind. destruct (m st) as [[a|e] st1]; [|done]. eauto.
Qed.

Lemma set_snapshots_id st : set_snapshots (snapshots st) st = st.
Proof. by destruct st. Qed.

Lemma set_diffs_id st : set_diffs (diffs st) st = st.
Proof. by destruct st. Qed.

(** *** Removing files of [diffs_dir] *)

Lemma for_each_remove_diff l st :
  for_each l fs_remove_diff st = (Ret (), set_diffs (foldr delete (diffs st) l) st).
Proof.
  revert st. induction l as [|x l IH]; intros st; simpl.
  - unfold ret. by rewrite set_diffs_id.
  - unfold bind, fs_remove_diff at 1, modify. rewrite IH. simpl.
    by rewrite delete_foldr_delete.
Qed.

Lemma string_length_app (s1 s2 : string) :
  String.length (s1 +:+ s2) = String.length s1 + String.length s2.
Proof. induction s1 as [|c s1 IH]; simpl; [done|]. by rewrite IH. Qed.

(** A per-volume part never has the name of the assembled diff. *)
Lemma part_path_ne path vol : path +:+ "_" +:+ vol ≠ path.
Proof.
  intros Heq. apply (f_equal String.length) in Heq.
  rewrite !string_length_app in Heq. simpl in Heq. lia.
Qed.

Lemma send_volumes_created b path vols created st cr st' :
  send_volumes b path vols created st = (Ret cr, st') →
  cr = created ++ ((λ vol, path +:+ "_" +:+ vol) <$> vols).
Proof.
  revert created st. induction vols as [|vol vols IH]; intros created st; simpl.
  - intros [= <- <-]. by rewrite app_nil_r.
  - intros Hrun. apply bind_ret_inv in Hrun as (ok & st1 & _ & Hrun).
    destruct ok.
    + apply IH in Hrun as ->. by rewrite <-app_assoc.
    + apply bind_ret_inv in Hrun as (_ & st2 & _ & Hrun).
      apply bind_ret_inv in Hrun as (_ & st3 & _ & Hrun). done.
Qed.

(** *** The command line *)

(** Every character of the string satisfies [P]. *)
Fixpoint string_forall (P : Ascii.ascii → bool) (s : string) : bool :=
  match s with
  | String c s' => P c && string_forall P s'
  | EmptyString => true
  end.

Lemma string_forall_app P s1 s2 :
  string_forall P (s1 +:+ s2) = string_forall P s1 && string_forall P s2.
Proof. induction s1 as [|c s1 IH]; simpl; [done|]. by rewrite IH, andb_assoc. Qed.

Lemma string_forall_impl (P Q : Ascii.ascii → bool) s :
  (∀ c, P c = true → Q c = true) → string_forall P s = true → string_forall Q s = true.
Proof.
  intros HPQ. induction s as [|c s IH]; simpl; [done|].
  intros [Hc Hs]%andb_prop. by rewrite (HPQ c Hc), IH.
Qed.

Lemma string_app_empty (s1 s2 : string) :
  s1 +:+ s2 = EmptyString → s1 = EmptyString ∧ s2 = EmptyString.
Proof. by destruct s1. Qed.

Lemma string_app_cons c (s1 s2 : string) : String c s1 +:+ s2 = String c (s1 +:+ s2).
Proof. reflexivity. Qed.

Lemma string_app_assoc (s1 s2 s3 : string) : (s1 +:+ s2) +:+ s3 = s1 +:+ (s2 +:+ s3).
Proof. induction s1 as [|c s1 IH]; [done|]. by rewrite !string_app_cons, IH. Qed.

Lemma string_app_empty_r (s : string) : s +:+ EmptyString = s.
Proof. induction s as [|c s IH]; [done|]. by rewrite string_app_cons, IH. Qed.

Definition not_blank (c : Ascii.ascii) : bool := negb (shell_blank c).

Definition needs_no_escape (c : Ascii.ascii) : bool :=
  negb (bool_decide (c = char_dquote ∨ c = char_amp)).

(** A blank ends the word that is being read. *)
Lemma shell_words_go_blank s1 c s2 word :
  shell_blank c = true →
  shell_words_go (s1 +:+ String c s2) word =
    shell_words_go s1 word ++ shell_words_go s2 EmptyString.
Proof.
  intros Hc. revert word. induction s1 as [|c1 s1 IH]; intros word; simpl.
  - by rewrite Hc.
  - destruct (shell_blank c1); [|apply IH]. by rewrite IH, app_assoc.
Qed.

(** A string without blanks is one word. *)
Lemma shell_words_go_word s word :
  string_forall not_blank s = true →
  shell_words_go s word =
    if bool_decide (word +:+ s = EmptyString) then [] else [word +:+ s].
Proof.
  revert word. induction s as [|c s IH]; intros word; simpl.
  - intros _. by rewrite string_app_empty_r.
  - intros [Hc Hs]%andb_prop. apply negb_true_iff in Hc. rewrite Hc, IH by done.
    by rewrite string_app_assoc.
Qed.

(** The words of the command line that [makeOrGetDiff] builds. *)
Lemma shell_words_cat_cmd parts path :
  string_forall not_blank (quoted path) = true →
  shell_words (cat_cmd parts path) =
    "cat" :: (parts ≫= shell_words) ++ [">" +:+ quoted path].
Proof.
  intros Hpath. unfold shell_words, cat_cmd.
  change ("cat " +:+ ?r) with ("cat" +:+ String char_space r).
  rewrite shell_words_go_blank by done.
  change (shell_words_go "cat" EmptyString) with ["cat"]. simpl. f_equal.
  induction parts as [|part parts IH]; simpl.
  - by rewrite shell_words_go_word.
  - change (part +:+ " " +:+ ?r) with (part +:+ String char_space r).
    rewrite shell_words_go_blank by done. by rewrite IH, app_assoc.
Qed.

Lemma drop_closing_quote_app s :
  drop_closing_quote (s +:+ String char_dquote EmptyString) = s.
Proof.
  induction s as [|c s IH]; simpl; [done|]. rewrite IH.
  by destruct (s +:+ String char_dquote EmptyString) eqn:Heq;
    [apply string_app_empty in Heq as [_ ?]|].
Qed.

(** The decimal digits of a number are made of characters that satisfy
    [P] when the ten digits do. *)
Lemma string_forall_pretty_N_go P x s :
  (∀ d, (d < 10)%N → P (pretty_N_char d) = true) →
  string_forall P s = true → string_forall P (pretty_N_go x s) = true.
Proof.
  intros Hdigits. revert s. induction (N.lt_wf_0 x) as [x _ IH]. intros s Hs.
  destruct (decide (x = 0%N)) as [->|Hx]; [by rewrite pretty_N_go_0|].
  rewrite pretty_N_go_step by lia. apply IH; [apply N.div_lt; lia|].
  simpl. rewrite Hdigits, Hs; [done|]. apply N.mod_lt. lia.
Qed.

Lemma string_forall_pretty P (b : N) :
  (∀ d, (d < 10)%N → P (pretty_N_char d) = true) →
  string_forall P (pretty b) = true.
Proof.
  intros Hdigits. unfold pretty, pretty_N. case_decide.
  - pose proof (Hdigits 0%N) as H0. simpl in *. rewrite H0; [done|lia].
  - by apply string_forall_pretty_N_go.
Qed.

Lemma pretty_N_char_all (P : Ascii.ascii → bool) :
  forallb (λ d, P (pretty_N_char d)) [0; 1; 2; 3; 4; 5; 6; 7; 8; 9]%N = true →
  ∀ d, (d < 10)%N → P (pretty_N_char d) = true.
Proof.
  intros Hall d Hd. rewrite forallb_forall in Hall. apply Hall.
  assert (d = 0 ∨ d = 1 ∨ d = 2 ∨ d = 3 ∨ d = 4 ∨ d = 5 ∨ d = 6 ∨ d = 7 ∨ d = 8
          ∨ d = 9)%N as Hcases by lia.
  repeat destruct Hcases as [Heq|Hcases]; try subst d; simpl; tauto.
Qed.

(** Quoting leaves a string without quote and escape character as it
    is. *)
Lemma quoted_escape_id s :
  string_forall needs_no_escape s = true →
  quoted_escape s = s.
Proof.
  induction s as [|c s IH]; simpl; [done|].
  intros [Hc Hs]%andb_prop. apply negb_true_iff in Hc. by rewrite Hc, IH.
Qed.

(** The diff path on the command line: one word, read back by the
    shell as it is. *)
Lemma quoted_getDiffPath b :
  quoted (getDiffPath b) =
    String char_dquote (getDiffPath b +:+ String char_dquote EmptyString) ∧
  string_forall not_blank (quoted (getDiffPath b)) = true ∧
  unquote (quoted (getDiffPath b)) = getDiffPath b.
Proof.
  unfold getDiffPath.
  assert (quoted (pretty b) =
            String char_dquote (pretty b +:+ String char_dquote EmptyString)) as Hq.
  { unfold quoted. rewrite quoted_escape_id; [done|].
    apply string_forall_pretty.
    apply (pretty_N_char_all needs_no_escape).
    by vm_compute. }
  rewrite Hq. split_and!; [done| |].
  - simpl. rewrite string_forall_app. simpl.
    rewrite string_forall_pretty; [done|].
    apply (pretty_N_char_all not_blank). by vm_compute.
  - unfold unquote. rewrite bool_decide_eq_true_2 by done.
    apply drop_closing_quote_app.
Qed.

(** A character that is not special to the shell: a letter, a digit or
    one of [_], [-], [.] and [/]. *)
Definition plain_char (c : Ascii.ascii) : bool :=
  let n := Ascii.N_of_ascii c in
  bool_decide (48 ≤ n ≤ 57 ∨ 65 ≤ n ≤ 90 ∨ 97 ≤ n ≤ 122 ∨
               n = 95 ∨ n = 45 ∨ n = 46 ∨ n = 47)%N.

(** A name made of such characters. *)
Definition plain_name (s : string) : Prop := string_forall plain_char s = true.

Lemma plain_char_not_blank c : plain_char c = true → not_blank c = true.
Proof.
  unfold plain_char, not_blank, shell_blank. intros Hc%bool_decide_eq_true.
  apply negb_true_iff, bool_decide_eq_false. lia.
Qed.

(** The part of a volume with a plain name is one word of the command
    line. *)
Lemma shell_words_part_path b v :
  plain_name v →
  shell_words (getDiffPath b +:+ "_" +:+ v) = [getDiffPath b +:+ "_" +:+ v].
Proof.
  intros Hv. unfold shell_words. rewrite shell_words_go_word.
  - rewrite bool_decide_eq_false_2; [done|].
    intros [_ [_ Heq]%string_app_empty]%string_app_empty.
    by rewrite string_app_cons in Heq.
  - rewrite !string_forall_app. unfold getDiffPath.
    rewrite (string_forall_pretty not_blank)
      by (apply (pretty_N_char_all not_blank); by vm_compute).
    simpl. apply (string_forall_impl plain_char); [apply plain_char_not_blank|exact Hv].
Qed.

Lemma shell_words_parts b vols :
  Forall plain_name vols →
  ((λ vol, getDiffPath b +:+ "_" +:+ vol) <$> vols) ≫= shell_words =
    (λ vol, getDiffPath b +:+ "_" +:+ vol) <$> vols.
Proof.
  induction 1 as [|v vols Hv _ IH]; csimpl; [done|].
  by rewrite shell_words_part_path, IH.
Qed.

(** What [system] does with the command line of [makeOrGetDiff]. *)
Lemma system_cat_cmd parts b st :
  system (cat_cmd parts (getDiffPath b)) st =
    let contents := (λ p, diffs st !! p) <$> (parts ≫= shell_words) in
    (Ret (bool_decide (Forall is_Some contents)),
     set_diffs (<[getDiffPath b:=foldr String.append "" (omap id contents)]> (diffs st))
       st).
Proof.
  destruct (quoted_getDiffPath b) as (Hq & Hword & _).
  unfold system. rewrite shell_words_cat_cmd by done.
  rewrite reverse_app, reverse_singleton. simpl.
  unfold quoted in Hq. injection Hq as ->.
  by rewrite reverse_involutive, drop_closing_quote_app.
Qed.

(** *** [makeOrGetDiff] *)

(** The cached path: the diff is returned as it is, the snapshot
    directory is not looked at. *)
Lemma makeOrGetDiff_cached b st :
  is_Some (diffs st !! getDiffPath b) →
  makeOrGetDiff b st = (Ret (getDiffPath b), st).
Proof.
  intros Hc. unfold makeOrGetDiff, bind, fs_is_regular_diff, gets.
  by rewrite bool_decide_eq_true_2.
Qed.

Lemma makeOrGetDiff_absent b st :
  diffs st !! getDiffPath b = None →
  snapshots st !! b = None →
  makeOrGetDiff b st =
    (Throw (SnapshotAbsent b), set_diffs (delete (getDiffPath b) (diffs st)) st).
Proof.
  intros Hd Hs. unfold makeOrGetDiff, bind, fs_is_regular_diff, gets.
  rewrite bool_decide_eq_false_2 by (rewrite Hd; by intros [? ?]).
  unfold fs_exists_snapshot, gets.
  rewrite bool_decide_eq_false_2 by (rewrite Hs; by intros [? ?]).
  done.
Qed.

(** A call that returns leaves the assembled diff in place. *)
Lemma makeOrGetDiff_ret b st p st1 :
  makeOrGetDiff b st = (Ret p, st1) →
  p = getDiffPath b ∧ is_Some (diffs st1 !! p).
Proof.
  unfold makeOrGetDiff. intros Hrun.
  apply bind_ret_inv in Hrun as (cached & st' & Hreg & Hrun).
  unfold fs_is_regular_diff, gets in Hreg. injection Hreg as <- <-.
  case_bool_decide as Hc.
  - by injection Hrun as <- <-.
  - apply bind_ret_inv in Hrun as (present & st' & Hex & Hrun).
    unfold fs_exists_snapshot, gets in Hex. injection Hex as <- <-.
    case_bool_decide; simpl in Hrun.
    2:{ apply bind_ret_inv in Hrun as (_ & st2 & _ & Hrun). done. }
    apply bind_ret_inv in Hrun as (created & st2 & Hsend & Hrun).
    apply send_volumes_created in Hsend as ->. simpl in Hrun.
    apply bind_ret_inv in Hrun as (cat_ok & st3 & Hcat & Hrun).
    rewrite system_cat_cmd in Hcat. injection Hcat as <- <-.
    apply bind_ret_inv in Hrun as ([] & st4 & Hrm & Hrun).
    rewrite for_each_remove_diff in Hrm. injection Hrm as <-.
    destruct (bool_decide _); [|done]. injection Hrun as <- <-.
    split; [done|]. simpl.
    rewrite lookup_foldr_delete_not_elem_of, lookup_insert_eq; [done|].
    intros Hin. apply list_elem_of_fmap in Hin as (vol & Heq & _).
    symmetry in Heq. by apply part_path_ne in Heq.
Qed.

(** *** Deleting the clones of a snapshot *)

Lemma delete_volume_unfold b v st :
  delete_volume b v st =
    match snapshots st !! b with
    | Some dir =>
        match dir !! v with
        | Some _ => (Ret (), set_snapshots (<[b:=delete v dir]> (snapshots st)) st)
        | None => (Throw CannotPerformBtrfsOperation, st)
        end
    | None => (Throw CannotPerformBtrfsOperation, st)
    end.
Proof.
  unfold delete_volume, bind, btrfs_subvolume_delete.
  destruct (snapshots st !! b) as [dir|]; [|done]. by destruct (dir !! v).
Qed.

(** Deleting clones of snapshot [b] touches nothing but the content of
    the directory of [b], which stays. *)
Lemma delete_volumes_frame b vols st r st' :
  for_each vols (delete_volume b) st = (r, st') →
  live st' = live st ∧ diffs st' = diffs st ∧ sends st' = sends st ∧
  (∀ b', b' ≠ b → snapshots st' !! b' = snapshots st !! b') ∧
  (is_Some (snapshots st' !! b) ↔ is_Some (snapshots st !! b)).
Proof.
  revert st. induction vols as [|v vols IH]; intros st; simpl.
  - by intros [= <- <-].
  - unfold bind. rewrite delete_volume_unfold.
    destruct (snapshots st !! b) as [dir|] eqn:Hb.
    2:{ intros [= <- <-]. by rewrite Hb. }
    destruct (dir !! v).
    2:{ intros [= <- <-]. by rewrite Hb. }
    intros Hrun. apply IH in Hrun as (-> & -> & -> & Hother & Hsame). simpl_state.
    split_and!; try done.
    + intros b' Hne. rewrite Hother by done. by rewrite lookup_insert_ne.
    + rewrite Hsame, lookup_insert_eq. split; eauto.
Qed.

Lemma delete_volumes_ok b vols st dir :
  NoDup vols →
  snapshots st !! b = Some dir →
  (∀ v, v ∈ vols → is_Some (dir !! v)) →
  ∃ dir',
    for_each vols (delete_volume b) st =
      (Ret (), set_snapshots (<[b:=dir']> (snapshots st)) st).
Proof.
  intros Hnd. revert st dir.
  induction Hnd as [|v vols Hv Hnd IH]; intros st dir Hb Hall; simpl.
  - exists dir. unfold ret. by rewrite insert_id, set_snapshots_id.
  - unfold bind. rewrite delete_volume_unfold, Hb.
    destruct (Hall v) as [c Hc]; [by left|]. rewrite Hc.
    destruct (IH (set_snapshots (<[b:=delete v dir]> (snapshots st)) st) (delete v dir))
      as [dir' Hrun].
    + simpl. by rewrite lookup_insert_eq.
    + intros v' Hv'. rewrite lookup_delete_ne by (intros ->; done).
      apply Hall. by right.
    + exists dir'. rewrite Hrun. simpl. by rewrite insert_insert_eq.
Qed.

(** *** [doSnapshot] and [removeSnapshot] *)

Lemma doSnapshot_present b st :
  is_Some (snapshots st !! b) →
  doSnapshot b st = (Throw (SnapshotPresent b), st).
Proof.
  intros Hb. unfold doSnapshot, bind, fs_exists_snapshot, gets.
  by rewrite bool_decide_eq_true_2.
Qed.

Lemma removeSnapshot_ret b st st' :
  removeSnapshot b st = (Ret (), st') →
  is_Some (snapshots st !! b) ∧ is_Some (snapshots st' !! b).
Proof.
  unfold removeSnapshot, bind, fs_exists_snapshot, gets.
  case_bool_decide as Hb; simpl; [|done].
  intros Hrun. apply delete_volumes_frame in Hrun as (_ & _ & _ & _ & Hsame).
  split; [done|]. by apply Hsame.
Qed.

Lemma snapshot_volume_dirs b v st r st' :
  snapshot_volume b v st = (r, st') →
  ∀ b', is_Some (snapshots st' !! b') ↔ is_Some (snapshots st !! b').
Proof.
  unfold snapshot_volume, bind, btrfs_subvolume_snapshot_r.
  destruct (live st !! v); [|by intros [= <- <-]].
  destruct (snapshots st !! b) as [dir|] eqn:Hb; [|by intros [= <- <-]].
  destruct (dir !! v); intros [= <- <-]; [done|]. intros b'. simpl_state.
  destruct (decide (b' = b)) as [->|Hne].
  - rewrite lookup_insert_eq, Hb. split; eauto.
  - by rewrite lookup_insert_ne.
Qed.

Lemma snapshot_volumes_dirs b vols st r st' :
  for_each vols (snapshot_volume b) st = (r, st') →
  ∀ b', is_Some (snapshots st' !! b') ↔ is_Some (snapshots st !! b').
Proof.
  revert st. induction vols as [|v vols IH]; intros st; simpl.
  - by intros [= <- <-].
  - unfold bind. destruct (snapshot_volume b v st) as [[[]|e] st1] eqn:Hv.
    + intros Hrun b'. rewrite (IH _ Hrun). by eapply snapshot_volume_dirs.
    + intros [= <- <-]. by eapply snapshot_volume_dirs.
Qed.

Lemma doSnapshot_ret b st st' :
  doSnapshot b st = (Ret (), st') →
  snapshots st !! b = None ∧ is_Some (snapshots st' !! b).
Proof.
  unfold doSnapshot, bind at 1, fs_exists_snapshot, gets.
  case_bool_decide as Hb; simpl; [done|].
  apply eq_None_not_Some in Hb.
  unfold bind, fs_create_snapshot_dir, modify. rewrite Hb.
  intros Hrun. split; [done|].
  apply (snapshot_volumes_dirs _ _ _ _ _ Hrun). simpl_state.
  by rewrite lookup_insert_eq.
Qed.

(** *** The map [numbers] *)

(** Greatest key first; every entry maps the number of a directory
    other than ["0"] to that directory. *)
Definition numbers_ok (m : list (Z * N)) : Prop :=
  StronglySorted (λ p q, (q.1 < p.1)%Z) m ∧
  Forall (λ p, p.1 = Z.of_N p.2 ∧ p.2 ≠ 0%N) m.

Lemma numbers_insert_elem k f m p :
  p ∈ numbers_insert k f m → p = (k, f) ∨ p ∈ m.
Proof.
  induction m as [|[k' f'] m IH]; simpl.
  - intros ->%list_elem_of_singleton. by left.
  - destruct (Z.ltb_spec k' k); [|destruct (Z.eqb_spec k k')].
    + intros [->|Hin]%elem_of_cons; [by left|by right].
    + by right.
    + intros [->|Hin]%elem_of_cons; [right; by left|].
      destruct (IH Hin) as [->|]; [by left|right; by right].
Qed.

Lemma numbers_insert_ok f m :
  f ≠ 0%N → numbers_ok m → numbers_ok (numbers_insert (Z.of_N f) f m).
Proof.
  intros Hf [Hs Hall]. split.
  - induction m as [|[k' f'] m IH]; simpl; [repeat constructor|].
    apply StronglySorted_inv in Hs as [Hs Hk].
    apply Forall_cons in Hall as [_ Hall].
    destruct (Z.ltb_spec k' (Z.of_N f)); [|destruct (Z.eqb_spec (Z.of_N f) k')].
    + constructor; [by constructor|]. constructor; [done|].
      eapply Forall_impl; [exact Hk|]. simpl. intros; lia.
    + by constructor.
    + constructor; [by apply IH|].
      apply Forall_forall. intros p [->|Hin]%numbers_insert_elem; simpl; [lia|].
      rewrite Forall_forall in Hk. by apply Hk.
  - apply Forall_forall. intros p [->|Hin]%numbers_insert_elem; [done|].
    rewrite Forall_forall in Hall. by apply Hall.
Qed.

Lemma numbers_insert_dirs f m g :
  numbers_ok m →
  g ∈ (numbers_insert (Z.of_N f) f m).*2 ↔ g = f ∨ g ∈ m.*2.
Proof.
  intros [_ Hall]. induction m as [|[k' f'] m IH]; simpl.
  - rewrite list_elem_of_singleton. set_solver.
  - apply Forall_cons in Hall as [[Hk' _] Hall]. simpl in Hk'.
    destruct (Z.ltb_spec k' (Z.of_N f)); [|destruct (Z.eqb_spec (Z.of_N f) k')].
    + simpl. rewrite !elem_of_cons. done.
    + assert (f = f') as -> by lia. simpl. rewrite !elem_of_cons. naive_solver.
    + simpl. rewrite !elem_of_cons, IH by done. naive_solver.
Qed.

Lemma fill_numbers_ok entries m :
  (∀ f, f ∈ entries → (Z.of_N f ≤ INT_MAX)%Z) →
  numbers_ok m →
  ∃ m', fill_numbers entries m = Ret m' ∧ numbers_ok m' ∧
        ∀ g, g ∈ m'.*2 ↔ (g ∈ entries ∧ g ≠ 0%N) ∨ g ∈ m.*2.
Proof.
  revert m. induction entries as [|f entries IH]; intros m Hrange Hok; simpl.
  - exists m. split_and!; [done..|]. intros g. rewrite elem_of_nil. naive_solver.
  - case_bool_decide as Hf.
    + unfold stoi. rewrite bool_decide_eq_true_2 by (apply Hrange; by left).
      destruct (IH (numbers_insert (Z.of_N f) f m)) as (m' & -> & Hok' & Hdirs).
      * intros g Hg. apply Hrange. by right.
      * by apply numbers_insert_ok.
      * exists m'. split_and!; [done..|]. intros g.
        rewrite Hdirs, numbers_insert_dirs, elem_of_cons by done. naive_solver.
    + destruct (IH m) as (m' & -> & Hok' & Hdirs); [|done|].
      * intros g Hg. apply Hrange. by right.
      * exists m'. split_and!; [done..|]. intros g.
        rewrite Hdirs, elem_of_cons. naive_solver.
Qed.

(** Whatever the directory holds, the directory ["0"] never enters
    [numbers]. *)
Lemma fill_numbers_no_genesis entries m m' :
  fill_numbers entries m = Ret m' → 0%N ∉ m.*2 → 0%N ∉ m'.*2.
Proof.
  revert m. induction entries as [|f entries IH]; intros m; simpl.
  - by intros [= <-].
  - case_bool_decide as Hf; [|apply IH].
    destruct (stoi f) as [k|e] eqn:Hk; [|done].
    intros Hfill Hm. apply (IH _ Hfill).
    intros (p & Hp2 & Hp)%list_elem_of_fmap.
    apply numbers_insert_elem in Hp as [->|Hp]; [done|].
    apply Hm, list_elem_of_fmap. eauto.
Qed.

Lemma numbers_ok_dirs m :
  numbers_ok m → StronglySorted (λ x y, (y < x)%N) m.*2.
Proof.
  intros [Hs Hall]. induction m as [|[k f] m IH]; simpl; [constructor|].
  apply StronglySorted_inv in Hs as [Hs Hk].
  apply Forall_cons in Hall as [[Hkf _] Hall]. simpl in Hkf.
  constructor; [by apply IH|].
  apply Forall_fmap, Forall_forall. intros [k' f'] Hin. simpl.
  rewrite Forall_forall in Hk, Hall.
  specialize (Hk _ Hin). destruct (Hall _ Hin) as [Hkf' _]. simpl in *. lia.
Qed.

Lemma desc_sorted_NoDup (l : list N) :
  StronglySorted (λ x y, (y < x)%N) l → NoDup l.
Proof.
  induction 1 as [|x l Hs IH Hx]; constructor; [|done].
  intros Hin. rewrite Forall_forall in Hx. specialize (Hx _ Hin). lia.
Qed.

(** *** [leaveNLastSnapshots] *)

(** A snapshot directory that holds a clone of every configured volume,
    as [doSnapshot] leaves it. *)
Definition complete (dir : SnapshotDir) : Prop :=
  ∀ v, v ∈ volumes → is_Some (dir !! v).

(** The pruning loop touches no directory outside [numbers]. *)
Lemma prune_frame n i numbers st r st' :
  prune n i numbers st = (r, st') →
  live st' = live st ∧ diffs st' = diffs st ∧ sends st' = sends st ∧
  ∀ b, b ∉ numbers.*2 → snapshots st' !! b = snapshots st !! b.
Proof.
  revert i st. induction numbers as [|p numbers IH]; intros i st; simpl.
  - by intros [= <- <-].
  - assert (∀ b, b ∉ p.2 :: numbers.*2 → b ≠ p.2 ∧ b ∉ numbers.*2) as Hsplit
      by (intros b; rewrite not_elem_of_cons; done).
    destruct (n <? i)%N.
    + unfold bind at 1.
      destruct (for_each volumes (delete_volume p.2) st) as [[[]|e] st1] eqn:Hdel;
        apply delete_volumes_frame in Hdel as (Hl & Hd & Hs & Hother & _).
      * unfold bind, fs_remove_all_snapshot, modify.
        intros Hrun. apply IH in Hrun as (-> & -> & -> & Hrest). simpl_state.
        split_and!; try done. intros b [Hne Hb]%Hsplit.
        by rewrite Hrest, lookup_delete_ne, Hother.
      * intros [= <- <-]. split_and!; try done.
        intros b [Hne Hb]%Hsplit. by apply Hother.
    + intros Hrun. apply IH in Hrun as (-> & -> & -> & Hrest).
      split_and!; try done. intros b [Hne Hb]%Hsplit. by apply Hrest.
Qed.

(** As long as the counter does not wrap, the loop removes the
    directories from position [n + 1 - i] on. *)
Lemma prune_ok n i numbers st :
  NoDup volumes →
  NoDup numbers.*2 →
  (i + N.of_nat (length numbers) ≤ UINT_RANGE)%N →
  (∀ b, b ∈ numbers.*2 → ∃ dir, snapshots st !! b = Some dir ∧ complete dir) →
  prune n i numbers st =
    (Ret (),
     set_snapshots
       (foldr delete (snapshots st) (drop (N.to_nat (n + 1 - i)) numbers.*2)) st).
Proof.
  intros Hvols. revert i st.
  induction numbers as [|p numbers IH]; intros i st Hnd Hlen Hall; simpl.
  - rewrite drop_nil. simpl. unfold ret. by rewrite set_snapshots_id.
  - apply NoDup_cons in Hnd as [Hp Hnd]. simpl in Hlen.
    assert (numbers = [] ∨ unsigned_succ i = (i + 1)%N) as Hsucc.
    { destruct numbers; [by left|right]. simpl in Hlen.
      unfold unsigned_succ. apply N.mod_small. lia. }
    assert ((unsigned_succ i + N.of_nat (length numbers) ≤ UINT_RANGE)%N) as Hlen'.
    { destruct Hsucc as [-> | ->]; [|lia]. simpl. unfold unsigned_succ.
      pose proof (N.mod_upper_bound (i + 1) UINT_RANGE). unfold UINT_RANGE in *. lia. }
    assert (∀ m : gmap N SnapshotDir,
              foldr delete m (drop (N.to_nat (n + 1 - unsigned_succ i)) numbers.*2) =
              foldr delete m (drop (N.to_nat (n + 1 - (i + 1))) numbers.*2)) as Hdrop.
    { intros m. destruct Hsucc as [-> | ->]; [|done]. simpl. by rewrite !drop_nil. }
    destruct (N.ltb_spec n i) as [Hlt|Hge].
    + replace (N.to_nat (n + 1 - i)) with 0 by lia. simpl.
      destruct (Hall p.2) as (dir & Hdir & Hc); [by left|].
      destruct (delete_volumes_ok p.2 volumes st dir Hvols Hdir Hc) as [dir' Hdel].
      unfold bind at 1. rewrite Hdel.
      unfold bind, fs_remove_all_snapshot, modify. simpl_state.
      rewrite delete_insert_eq, IH; [| done | done |].
      * simpl_state. rewrite Hdrop.
        replace (N.to_nat (n + 1 - (i + 1))) with 0 by lia. simpl.
        by rewrite delete_foldr_delete.
      * intros b Hb. simpl.
        rewrite lookup_delete_ne by (intros Heq; by rewrite Heq in Hp).
        apply Hall. by right.
    + replace (N.to_nat (n + 1 - i)) with (S (N.to_nat (n + 1 - (i + 1)))) by lia.
      simpl. rewrite IH; [| done | done |].
      * by rewrite Hdrop.
      * intros b Hb. apply Hall. by right.
Qed.

(** Keys that decrease strictly and lie in [1 .. B] are at most [B]. *)
Lemma numbers_length m B :
  (0 ≤ B)%Z →
  StronglySorted (λ p q : Z * N, (q.1 < p.1)%Z) m →
  Forall (λ p, (0 < p.1 ≤ B)%Z) m →
  (Z.of_nat (length m) ≤ B)%Z.
Proof.
  intros HB Hs. revert B HB.
  induction Hs as [|p m Hs IH Hp]; intros B HB Hall; simpl; [lia|].
  apply Forall_cons in Hall as [Hb Hall].
  assert (Z.of_nat (length m) ≤ p.1 - 1)%Z; [|lia].
  apply IH; [lia|]. rewrite Forall_forall in Hp, Hall. apply Forall_forall.
  intros q' Hq'. specialize (Hp _ Hq'). specialize (Hall _ Hq'). simpl in *. lia.
Qed.

(** ** The claims on the snapshot manager *)

(** [fs::directory_iterator] yields the directories that exist, each
    once, in an order of its own. *)
Definition lists_directories : Prop :=
  ∀ m, directory_iterator m ≡ₚ elements (dom m).

(** The snapshots are as [doSnapshot] leaves them, and their numbers are
    within the range of [int]. *)
Definition intact (st : State) : Prop :=
  NoDup volumes ∧
  (∀ b dir, snapshots st !! b = Some dir → complete dir) ∧
  (∀ b, is_Some (snapshots st !! b) → (Z.of_N b ≤ INT_MAX)%Z).

Lemma listed_directories m b :
  lists_directories → b ∈ directory_iterator m ↔ is_Some (m !! b).
Proof. intros Hperm. by rewrite (Hperm m), elem_of_elements, elem_of_dom. Qed.

(** [intact], as a check that can be run. *)
Definition intact_check (st : State) : bool :=
  bool_decide (NoDup volumes) &&
  bool_decide (map_Forall (λ b (dir : SnapshotDir),
                 Forall (λ v, is_Some (dir !! v)) volumes ∧
                 (Z.of_N b ≤ INT_MAX)%Z) (snapshots st)).

Lemma intact_check_spec st : intact_check st = true → intact st.
Proof.
  unfold intact_check. intros [Hnd Hall]%andb_prop.
  apply bool_decide_eq_true in Hnd, Hall. split_and!; [done| |].
  - intros b dir Hdir v Hv. destruct (Hall b dir Hdir) as [Hc _].
    rewrite Forall_forall in Hc. by apply Hc.
  - intros b [dir Hdir]. by destruct (Hall b dir Hdir).
Qed.

(** C5: what the code does.  [removeSnapshot( b )] that returns has
    deleted clones only: the directory of [b] is still there, so the
    [doSnapshot( b )] that follows [doSnapshot( b ); removeSnapshot( b )]
    throws [SnapshotPresent( b )], as does [doSnapshot( b )] on any
    snapshot that exists. *)
Theorem removeSnapshot_leaves_directory (b : N) (st st1 st2 : State) :
  doSnapshot b st = (Ret (), st1) →
  removeSnapshot b st1 = (Ret (), st2) →
  is_Some (snapshots st2 !! b) ∧
  doSnapshot b st2 = (Throw (SnapshotPresent b), st2) ∧
  doSnapshot b st1 = (Throw (SnapshotPresent b), st1).
Proof.
  intros [_ Hb1]%doSnapshot_ret [_ Hb2]%removeSnapshot_ret.
  split_and!; [done|by apply doSnapshot_present..].
Qed.

(** C6: what the code does.  With [others] the numbers of the
    directories other than ["0"], greatest first: [getLatestSnasphot]
    returns [(0, 0)] when there is none, reads through the past-the-end
    iterator when there is exactly one, and returns the least of them
    paired with [0] when there are two or more. *)
Theorem getLatestSnasphot_returns_lowest (st : State) :
  lists_directories →
  (∀ b, is_Some (snapshots st !! b) → (Z.of_N b ≤ INT_MAX)%Z) →
  ∃ others,
    StronglySorted (λ x y, (y < x)%N) others ∧
    (∀ b, b ∈ others ↔ b ≠ 0%N ∧ is_Some (snapshots st !! b)) ∧
    match others with
    | [] => getLatestSnasphot st = Returns (0, 0)%Z
    | [_] => getLatestSnasphot st = Undefined
    | _ => ∃ lowest, last others = Some lowest ∧
                     getLatestSnasphot st = Returns (Z.of_N lowest, 0%Z)
    end.
Proof.
  intros Hperm Hrange.
  destruct (fill_numbers_ok (directory_iterator (snapshots st)) [])
    as (numbers & Hfill & Hok & Hdirs).
  { intros f Hf. by apply Hrange, listed_directories. }
  { split; constructor. }
  exists numbers.*2. split_and!.
  - by apply numbers_ok_dirs.
  - intros b. rewrite Hdirs, listed_directories by done. simpl.
    rewrite elem_of_nil. naive_solver.
  - unfold getLatestSnasphot. rewrite Hfill.
    destruct numbers as [|q numbers _] using rev_ind; [done|].
    assert ((Z.of_N q.2 ≤ INT_MAX)%Z) as Hq.
    { apply Hrange, (listed_directories _ _ Hperm).
      assert (q.2 ∈ (numbers ++ [q]).*2) as Hin by (rewrite fmap_app; set_solver).
      apply Hdirs in Hin as [[? _]|Hin]; [done|]. by apply elem_of_nil in Hin. }
    rewrite rev_app_distr, fmap_app, length_app. simpl.
    unfold stoi. rewrite bool_decide_eq_true_2 by done.
    destruct numbers as [|q' numbers]; simpl; [done|].
    rewrite bool_decide_eq_true_2 by lia.
    destruct (_ ++ [q.2]) as [|x l] eqn:Hl;
      [by apply app_nil in Hl as [_ ?]|].
    exists q.2. split; [|done].
    rewrite <-Hl, app_comm_cons. apply last_snoc.
Qed.

(** C8.  A call of [makeOrGetDiff( b )] that returns leaves the diff file
    of [b] in place, and a second call returns the same path and leaves
    the whole state as it was: the file with its content, and the count
    of [btrfs.send] runs. *)
Theorem makeOrGetDiff_idempotent (b : N) (st st1 : State) (p : string) :
  makeOrGetDiff b st = (Ret p, st1) →
  ∃ content,
    diffs st1 !! p = Some content ∧
    ∀ r st2, makeOrGetDiff b st1 = (r, st2) →
      r = Ret p ∧ diffs st2 !! p = Some content ∧ sends st2 = sends st1 ∧ st2 = st1.
Proof.
  intros [-> [content Hc]]%makeOrGetDiff_ret. exists content. split; [done|].
  intros r st2. rewrite makeOrGetDiff_cached by (by rewrite Hc).
  by intros [= <- <-].
Qed.

(** C10.  When the assembled diff of [b] is there, [makeOrGetDiff( b )]
    returns its path and leaves the state as it is, whether the
    snapshot [b] exists or not; [SnapshotAbsent( b )], with the removal
    of the diff path, is what a call gets only when the diff is not
    there and the snapshot is missing. *)
Theorem makeOrGetDiff_serves_cached_diff (b : N) (st : State) :
  (is_Some (diffs st !! getDiffPath b) →
     makeOrGetDiff b st = (Ret (getDiffPath b), st)) ∧
  (is_Some (diffs st !! getDiffPath b) → snapshots st !! b = None →
     makeOrGetDiff b st = (Ret (getDiffPath b), st)) ∧
  (diffs st !! getDiffPath b = None → snapshots st !! b = None →
     makeOrGetDiff b st =
       (Throw (SnapshotAbsent b), set_diffs (delete (getDiffPath b) (diffs st)) st)) ∧
  (∀ st', makeOrGetDiff b st = (Throw (SnapshotAbsent b), st') →
     diffs st !! getDiffPath b = None).
Proof.
  split_and!.
  - apply makeOrGetDiff_cached.
  - intros Hc _. by apply makeOrGetDiff_cached.
  - apply makeOrGetDiff_absent.
  - intros st' Hrun. destruct (diffs st !! getDiffPath b) eqn:Hd; [|done].
    rewrite makeOrGetDiff_cached in Hrun by (by rewrite Hd). done.
Qed.

(** C9 (as amended).  Whatever the state and [n], a call of
    [leaveNLastSnapshots( n )] leaves the snapshot of block [0] as it is,
    also when it throws.  On intact snapshots (every directory holds a
    clone of each of the distinct configured volumes, and no number is
    above [INT_MAX]) the call returns and, with [others] the numbers of
    the snapshots other than [0], greatest first, it keeps the snapshot
    of block [0] and those of the first [n] of [others] as they are,
    which are [min n (length others)] snapshots, and removes every other
    one; the order is that of the numbers, whatever order the directory
    is listed in. *)
Theorem leaveNLastSnapshots_keeps_genesis_and_n_highest (n : N) (st : State) :
  (∀ r st', leaveNLastSnapshots n st = (r, st') →
     snapshots st' !! 0%N = snapshots st !! 0%N) ∧
  (lists_directories → intact st →
     ∃ others st',
       StronglySorted (λ x y, (y < x)%N) others ∧
       (∀ b, b ∈ others ↔ b ≠ 0%N ∧ is_Some (snapshots st !! b)) ∧
       leaveNLastSnapshots n st = (Ret (), st') ∧
       (∀ b, snapshots st' !! b =
               if decide (b = 0%N ∨ b ∈ take (N.to_nat n) others)
               then snapshots st !! b else None) ∧
       length (take (N.to_nat n) others) = N.to_nat n `min` length others ∧
       live st' = live st ∧ diffs st' = diffs st).
Proof.
  split.
  - intros r st'. unfold leaveNLastSnapshots.
    destruct (fill_numbers _ _) as [numbers|e] eqn:Hfill; [|by intros [= <- <-]].
    intros (_ & _ & _ & Hother)%prune_frame. apply Hother.
    apply (fill_numbers_no_genesis _ _ _ Hfill). simpl. apply not_elem_of_nil.
  - intros Hperm (Hvols & Hcomplete & Hrange).
    destruct (fill_numbers_ok (directory_iterator (snapshots st)) [])
      as (numbers & Hfill & Hok & Hdirs).
    { intros f Hf. by apply Hrange, listed_directories. }
    { split; constructor. }
    assert (∀ b, b ∈ numbers.*2 ↔ b ≠ 0%N ∧ is_Some (snapshots st !! b)) as Hmem.
    { intros b. rewrite Hdirs, listed_directories by done. simpl.
      rewrite elem_of_nil. naive_solver. }
    pose proof (numbers_ok_dirs _ Hok) as Hsorted.
    pose proof (desc_sorted_NoDup _ Hsorted) as Hnd.
    eexists numbers.*2, _. split_and!; [done|done| | |apply length_take|..].
    + unfold leaveNLastSnapshots. rewrite Hfill. apply prune_ok; [done|done| |].
      * assert (Z.of_nat (length numbers) ≤ INT_MAX)%Z as Hlen.
        { destruct Hok as [Hs Hall]. apply numbers_length; [done|done|].
          rewrite Forall_forall in Hall. apply Forall_forall. intros p Hp.
          destruct (Hall p Hp) as [Hkey Hne]. rewrite Hkey. split; [lia|].
          apply Hrange, Hmem, list_elem_of_fmap. eauto. }
        unfold INT_MAX, UINT_RANGE in *. lia.
      * intros b [_ [dir Hdir]]%Hmem. exists dir. split; [done|]. by eapply Hcomplete.
    + intros b. simpl_state.
      replace (N.to_nat (n + 1 - 1)) with (N.to_nat n) by lia.
      rewrite <-(take_drop (N.to_nat n) numbers.*2) in Hnd, Hmem.
      apply NoDup_app in Hnd as (_ & Hdisj & _).
      destruct (decide (b ∈ drop (N.to_nat n) numbers.*2)) as [Hdrop|Hdrop].
      * rewrite lookup_foldr_delete by done.
        rewrite decide_False; [done|]. intros [->|Htake].
        -- assert (0%N ≠ 0%N); [|done]. apply Hmem, elem_of_app. by right.
        -- by apply (Hdisj b).
      * rewrite lookup_foldr_delete_not_elem_of by done.
        case_decide as Hkeep; [done|].
        apply eq_None_not_Some. intros Hsome. apply Hkeep.
        destruct (decide (b = 0%N)) as [|Hne]; [by left|right].
        assert (b ∈ take (N.to_nat n) numbers.*2 ++ drop (N.to_nat n) numbers.*2)
          as [?|?]%elem_of_app by (by apply Hmem); done.
    + done.
    + done.
Qed.

(** ** [restoreSnapshot] and what else the lifecycle shows *)

Definition set_live (l : gmap string string) (st : State) : State :=
  mkState l (snapshots st) (diffs st) (sends st).

(** Modelled from the spec: skutils/btrfs.h is not among the sources.
    [btrfs.subvolume._delete( data_dir / vol )] removes the live volume
    and fails when there is none. *)
Definition btrfs_subvolume_delete_live (vol : string) : M bool :=
  λ st,
    match live st !! vol with
    | Some _ => (Ret true, set_live (delete vol (live st)) st)
    | None => (Ret false, st)
    end.

(** Modelled from the spec: skutils/btrfs.h is not among the sources.
    [btrfs.subvolume.snapshot( snapshots_dir / to_string( b ) / vol, data_dir )]
    makes [data_dir / vol] a writable clone of the stored one; it fails
    without its source or when [data_dir / vol] is there already. *)
Definition btrfs_subvolume_snapshot (b : N) (vol : string) : M bool :=
  λ st,
    match snapshots st !! b ≫= (λ dir : SnapshotDir, dir !! vol), live st !! vol with
    | Some content, None => (Ret true, set_live (<[vol:=content]> (live st)) st)
    | _, _ => (Ret false, st)
    end.

(** The body of the loop of [restoreSnapshot]: delete, then clone. *)
Definition restore_volume (b : N) (vol : string) : M unit :=
  do deleted <- btrfs_subvolume_delete_live vol;;
  if negb deleted then throw CannotPerformBtrfsOperation
  else
    do cloned <- btrfs_subvolume_snapshot b vol;;
    if cloned then ret () else throw CannotPerformBtrfsOperation.

Definition restoreSnapshot (_blockNumber : N) : M unit :=
  do present <- fs_exists_snapshot _blockNumber;;
  if negb present then throw (SnapshotAbsent _blockNumber)
  else for_each volumes (restore_volume _blockNumber).

(** *** The loop of [doSnapshot] *)

Lemma snapshot_volume_unfold b v st :
  snapshot_volume b v st =
    match live st !! v, snapshots st !! b with
    | Some content, Some dir =>
        match dir !! v with
        | None => (Ret (), set_snapshots (<[b:=<[v:=content]> dir]> (snapshots st)) st)
        | Some _ => (Throw CannotPerformBtrfsOperation, st)
        end
    | _, _ => (Throw CannotPerformBtrfsOperation, st)
    end.
Proof.
  unfold snapshot_volume, bind, btrfs_subvolume_snapshot_r.
  destruct (live st !! v); [|done].
  destruct (snapshots st !! b) as [dir|]; [|done]. by destruct (dir !! v).
Qed.

(** A loop that returns has added, to the directory of [b], a clone of
    every volume of the list with the live content, and nothing else. *)
Lemma snapshot_volumes_ret b vols st st' dir :
  snapshots st !! b = Some dir →
  for_each vols (snapshot_volume b) st = (Ret (), st') →
  NoDup vols ∧
  (∀ v, v ∈ vols → dir !! v = None ∧ is_Some (live st !! v)) ∧
  ∃ dir',
    st' = set_snapshots (<[b:=dir']> (snapshots st)) st ∧
    (∀ v, v ∈ vols → dir' !! v = live st !! v) ∧
    (∀ v, v ∉ vols → dir' !! v = dir !! v).
Proof.
  revert st dir. induction vols as [|v vols IH]; intros st dir Hdir; simpl.
  - intros [= <-]. split_and!; [constructor|by intros v Hv%elem_of_nil|].
    exists dir. rewrite insert_id, set_snapshots_id by done.
    split_and!; [done|by intros v Hv%elem_of_nil|done].
  - unfold bind. rewrite snapshot_volume_unfold, Hdir.
    destruct (live st !! v) as [content|] eqn:Hlive; [|done].
    destruct (dir !! v) eqn:Hv; [done|].
    intros Hrun.
    apply (IH _ (<[v:=content]> dir)) in Hrun as (Hnd & Hfresh & dir' & -> & Hin & Hout);
      [|simpl_state; by rewrite lookup_insert_eq]. simpl_state.
    assert (v ∉ vols) as Hvv.
    { intros Hin'. destruct (Hfresh v Hin') as [Hnone _].
      by rewrite lookup_insert_eq in Hnone. }
    split_and!.
    + by constructor.
    + intros v' [->|Hv']%elem_of_cons; [by rewrite Hlive|].
      destruct (Hfresh v' Hv') as [Hnone Hl]. split; [|done].
      rewrite lookup_insert_ne in Hnone; [done|]. by intros ->.
    + exists dir'. rewrite insert_insert_eq. split_and!; [done| |].
      * intros v' [->|Hv']%elem_of_cons; [|by apply Hin].
        by rewrite Hout, lookup_insert_eq.
      * intros v' [Hne Hv']%not_elem_of_cons.
        by rewrite Hout, lookup_insert_ne.
Qed.

(** A loop over volumes one of which is not live throws. *)
Lemma snapshot_volumes_missing b vols st :
  (∃ v, v ∈ vols ∧ live st !! v = None) →
  ∃ st', for_each vols (snapshot_volume b) st = (Throw CannotPerformBtrfsOperation, st') ∧
         live st' = live st.
Proof.
  revert st. induction vols as [|v vols IH]; intros st (v0 & Hin & Hnone); simpl.
  - by apply elem_of_nil in Hin.
  - unfold bind. rewrite snapshot_volume_unfold.
    destruct (live st !! v) as [content|] eqn:Hlive; [|eauto].
    destruct (snapshots st !! b) as [dir|]; [|eauto].
    destruct (dir !! v); [eauto|].
    apply elem_of_cons in Hin as [->|Hin]; [congruence|].
    destruct (IH (set_snapshots (<[b:=<[v:=content]> dir]> (snapshots st)) st))
      as (st' & -> & Hl); eauto.
Qed.

Lemma doSnapshot_unfold b st :
  snapshots st !! b = None →
  doSnapshot b st =
    for_each volumes (snapshot_volume b) (set_snapshots (<[b:=∅]> (snapshots st)) st).
Proof.
  intros Hb. unfold doSnapshot, bind, fs_exists_snapshot, gets.
  rewrite bool_decide_eq_false_2 by (rewrite Hb; by intros [? ?]).
  unfold fs_create_snapshot_dir, modify. by rewrite Hb.
Qed.

(** What a returning [doSnapshot] has done. *)
Lemma doSnapshot_clones b st st' :
  doSnapshot b st = (Ret (), st') →
  snapshots st !! b = None ∧ NoDup volumes ∧
  ∃ dir,
    st' = set_snapshots (<[b:=dir]> (snapshots st)) st ∧
    (∀ v, v ∈ volumes → is_Some (live st !! v) ∧ dir !! v = live st !! v) ∧
    (∀ v, v ∉ volumes → dir !! v = None).
Proof.
  intros Hrun. destruct (doSnapshot_ret _ _ _ Hrun) as [Hb _].
  rewrite doSnapshot_unfold in Hrun by done.
  apply (snapshot_volumes_ret _ _ _ _ ∅) in Hrun
    as (Hnd & Hfresh & dir & -> & Hin & Hout);
    [|simpl_state; by rewrite lookup_insert_eq]. simpl_state.
  split_and!; [done..|]. exists dir. rewrite insert_insert_eq.
  split_and!; [done| |].
  - intros v Hv. split; [by apply Hfresh|by apply Hin].
  - intros v Hv. by rewrite Hout.
Qed.

(** X4.  A [doSnapshot( b )] that returns found no snapshot [b], has made
    the directory of [b] hold a clone of each configured volume with the
    content the live volume has, and nothing else, and has changed no
    other snapshot, no live volume and no diff; the configured volumes
    are then distinct and all live. *)
Theorem doSnapshot_clones_every_volume (b : N) (st st' : State) :
  doSnapshot b st = (Ret (), st') →
  snapshots st !! b = None ∧ NoDup volumes ∧
  (∀ v, v ∈ volumes → is_Some (live st !! v)) ∧
  (∃ dir, snapshots st' !! b = Some dir ∧
          ∀ v, dir !! v = if decide (v ∈ volumes) then live st !! v else None) ∧
  (∀ b', b' ≠ b → snapshots st' !! b' = snapshots st !! b') ∧
  live st' = live st ∧ diffs st' = diffs st ∧ sends st' = sends st.
Proof.
  intros (Hb & Hnd & dir & -> & Hin & Hout)%doSnapshot_clones. simpl_state.
  split_and!; [done|done| | | |done..].
  - intros v Hv. by apply Hin.
  - exists dir. rewrite lookup_insert_eq. split; [done|]. intros v.
    case_decide; [by apply Hin|by apply Hout].
  - intros b' Hne. by rewrite lookup_insert_ne.
Qed.

(** X5.  When a configured volume is not live, [doSnapshot( b )] on a
    block without snapshot throws after it has created the directory of
    [b], and leaves it behind: calling [doSnapshot( b )] again throws
    [SnapshotPresent( b )]. *)
Theorem doSnapshot_failure_leaves_directory (b : N) (st : State) (v : string) :
  snapshots st !! b = None →
  v ∈ volumes → live st !! v = None →
  ∃ st',
    doSnapshot b st = (Throw CannotPerformBtrfsOperation, st') ∧
    is_Some (snapshots st' !! b) ∧
    doSnapshot b st' = (Throw (SnapshotPresent b), st').
Proof.
  intros Hb Hv Hlive. rewrite doSnapshot_unfold by done.
  destruct (snapshot_volumes_missing b volumes
              (set_snapshots (<[b:=∅]> (snapshots st)) st)) as (st' & Hrun & _).
  { exists v. by split. }
  exists st'. split; [done|].
  assert (is_Some (snapshots st' !! b)) as Hdir.
  { apply (snapshot_volumes_dirs _ _ _ _ _ Hrun). simpl_state.
    by rewrite lookup_insert_eq. }
  split; [done|]. by apply doSnapshot_present.
Qed.

(** *** [removeSnapshot] once more *)

(** A loop that returns has deleted the clone of every volume of the
    list. *)
Lemma delete_volumes_ret b vols st st' :
  for_each vols (delete_volume b) st = (Ret (), st') →
  ∀ v, v ∈ vols → snapshots st' !! b ≫= (λ dir : SnapshotDir, dir !! v) = None.
Proof.
  revert st. induction vols as [|v vols IH]; intros st; simpl.
  - intros _ v Hv. by apply elem_of_nil in Hv.
  - unfold bind at 1. rewrite delete_volume_unfold.
    destruct (snapshots st !! b) as [dir|] eqn:Hb; [|done].
    destruct (dir !! v) eqn:Hv; [|done].
    intros Hrun v' Hv'.
    destruct (decide (v' ∈ vols)) as [Hin|Hnin]; [by eapply IH|].
    apply elem_of_cons in Hv' as [->|]; [|done].
    clear IH. revert Hrun.
    assert (snapshots (set_snapshots (<[b:=delete v dir]> (snapshots st)) st) !! b
              ≫= (λ dir : SnapshotDir, dir !! v) = None) as Hgone.
    { simpl_state. rewrite lookup_insert_eq. simpl. apply lookup_delete_eq. }
    revert Hgone. generalize (set_snapshots (<[b:=delete v dir]> (snapshots st)) st).
    clear Hb Hv. induction vols as [|w vols IH]; intros st1 Hgone; simpl.
    + by intros [= <-].
    + apply not_elem_of_cons in Hnin as [Hne Hnin].
      unfold bind at 1. rewrite delete_volume_unfold.
      destruct (snapshots st1 !! b) as [dir1|] eqn:Hb1; [|done].
      destruct (dir1 !! w); [|done]. apply IH; [done|]. simpl_state.
      rewrite lookup_insert_eq. simpl in *. by rewrite lookup_delete_ne.
Qed.

Lemma removeSnapshot_unfold b st :
  is_Some (snapshots st !! b) →
  removeSnapshot b st = for_each volumes (delete_volume b) st.
Proof.
  intros Hb. unfold removeSnapshot, bind, fs_exists_snapshot, gets.
  by rewrite bool_decide_eq_true_2.
Qed.

(** X6.  [removeSnapshot( b )] cannot be repeated: after a call that
    returned, a second call finds the directory of [b] still there and its
    first clone gone, and throws [CannotPerformBtrfsOperation] (not
    [SnapshotAbsent( b )]), leaving the state as it is. *)
Theorem removeSnapshot_twice_throws (b : N) (st st1 : State) :
  volumes ≠ [] →
  removeSnapshot b st = (Ret (), st1) →
  removeSnapshot b st1 = (Throw CannotPerformBtrfsOperation, st1).
Proof.
  intros Hvols Hrun. destruct (removeSnapshot_ret _ _ _ Hrun) as [Hb Hb1].
  rewrite removeSnapshot_unfold in Hrun by done.
  rewrite removeSnapshot_unfold by done.
  pose proof (delete_volumes_ret _ _ _ _ Hrun) as Hgone.
  destruct volumes as [|v vols]; [done|]. simpl.
  unfold bind. rewrite delete_volume_unfold.
  specialize (Hgone v). destruct (snapshots st1 !! b) as [dir|]; [|done].
  simpl in Hgone. rewrite Hgone; [done|by left].
Qed.

(** *** [restoreSnapshot] *)

Lemma restore_volume_unfold b v st :
  restore_volume b v st =
    match live st !! v with
    | None => (Throw CannotPerformBtrfsOperation, st)
    | Some _ =>
        match snapshots st !! b ≫= (λ dir : SnapshotDir, dir !! v) with
        | Some content => (Ret (), set_live (<[v:=content]> (live st)) st)
        | None => (Throw CannotPerformBtrfsOperation, set_live (delete v (live st)) st)
        end
    end.
Proof.
  unfold restore_volume, bind, btrfs_subvolume_delete_live.
  destruct (live st !! v); [|done]. simpl.
  unfold btrfs_subvolume_snapshot, set_live. simpl. rewrite lookup_delete_eq.
  destruct (snapshots st !! b ≫= _); [|done]. simpl. by rewrite insert_delete_eq.
Qed.

Lemma restoreSnapshot_unfold b st :
  is_Some (snapshots st !! b) →
  restoreSnapshot b st = for_each volumes (restore_volume b) st.
Proof.
  intros Hb. unfold restoreSnapshot, bind, fs_exists_snapshot, gets.
  by rewrite bool_decide_eq_true_2.
Qed.

(** The loop on a snapshot that holds the clones and live volumes that
    are there: every volume of the list gets the stored content. *)
Lemma restore_volumes_ok b vols st dir :
  snapshots st !! b = Some dir →
  (∀ v, v ∈ vols → is_Some (live st !! v) ∧ is_Some (dir !! v)) →
  ∃ l',
    for_each vols (restore_volume b) st = (Ret (), set_live l' st) ∧
    (∀ v, v ∈ vols → l' !! v = dir !! v) ∧
    (∀ v, v ∉ vols → l' !! v = live st !! v).
Proof.
  intros Hdir. revert st Hdir.
  induction vols as [|v vols IH]; intros st Hdir Hall; simpl.
  - exists (live st). unfold ret, set_live. destruct st. simpl.
    split_and!; [done|by intros v Hv%elem_of_nil|done].
  - unfold bind. rewrite restore_volume_unfold, Hdir. simpl.
    destruct (Hall v) as [[c Hc] [content Hcontent]]; [by left|].
    rewrite Hc, Hcontent.
    destruct (IH (set_live (<[v:=content]> (live st)) st)) as (l' & Hrun & Hin & Hout).
    + done.
    + intros v' Hv'. destruct (Hall v') as [Hl Hd]; [by right|].
      split; [|done]. unfold set_live. simpl.
      destruct (decide (v = v')) as [->|Hne];
        [by rewrite lookup_insert_eq|by rewrite lookup_insert_ne].
    + exists l'. rewrite Hrun. split_and!; [done| |].
      * intros v' Hv'. destruct (decide (v' ∈ vols)) as [|Hnin]; [by apply Hin|].
        apply elem_of_cons in Hv' as [->|]; [|done].
        rewrite Hout by done. unfold set_live. simpl.
        by rewrite lookup_insert_eq.
      * intros v' [Hne Hnin]%not_elem_of_cons. rewrite Hout by done.
        unfold set_live. simpl. by rewrite lookup_insert_ne.
Qed.

(** X7.  Round trip: after a [doSnapshot( b )] that returned, and whatever
    happened to the live volumes since (as long as each configured one
    is still there and the snapshot [b] is as it was),
    [restoreSnapshot( b )] returns and every configured live volume has
    the content it had when the snapshot was taken; other live volumes,
    the snapshots and the diffs are left alone. *)
Theorem restoreSnapshot_after_doSnapshot (b : N) (st st1 st2 : State) :
  doSnapshot b st = (Ret (), st1) →
  snapshots st2 !! b = snapshots st1 !! b →
  (∀ v, v ∈ volumes → is_Some (live st2 !! v)) →
  ∃ st3,
    restoreSnapshot b st2 = (Ret (), st3) ∧
    (∀ v, v ∈ volumes → live st3 !! v = live st !! v) ∧
    (∀ v, v ∉ volumes → live st3 !! v = live st2 !! v) ∧
    snapshots st3 = snapshots st2 ∧ diffs st3 = diffs st2.
Proof.
  intros (Hb & Hnd & dir & -> & Hin & Hout)%doSnapshot_clones Hsame Hlive.
  simpl_state. rewrite lookup_insert_eq in Hsame.
  rewrite restoreSnapshot_unfold by (by rewrite Hsame).
  destruct (restore_volumes_ok b volumes st2 dir Hsame) as (l' & Hrun & Hin' & Hout').
  { intros v Hv. split; [by apply Hlive|].
    destruct (Hin v Hv) as [Hl ->]. done. }
  exists (set_live l' st2). split_and!; [done| | |done..].
  - intros v Hv. unfold set_live. simpl. rewrite Hin' by done. by apply Hin.
  - intros v Hv. unfold set_live. simpl. by apply Hout'.
Qed.

(** X8.  [restoreSnapshot( b )] on a snapshot that [removeSnapshot( b )]
    has emptied deletes the first configured live volume, finds no clone
    to put in its place and throws: the live volume is gone. *)
Theorem restoreSnapshot_of_removed_loses_volume (b : N) (st st1 : State)
    (v : string) (vols : list string) :
  volumes = v :: vols →
  removeSnapshot b st = (Ret (), st1) →
  is_Some (live st1 !! v) →
  ∃ st2,
    restoreSnapshot b st1 = (Throw CannotPerformBtrfsOperation, st2) ∧
    live st2 !! v = None ∧ snapshots st2 = snapshots st1.
Proof.
  intros Hvols Hrun [c Hc]. destruct (removeSnapshot_ret _ _ _ Hrun) as [Hb Hb1].
  rewrite removeSnapshot_unfold in Hrun by done.
  pose proof (delete_volumes_ret _ _ _ _ Hrun v) as Hgone.
  rewrite restoreSnapshot_unfold by done. rewrite Hvols in *. simpl.
  unfold bind. rewrite restore_volume_unfold, Hc, Hgone by (by left).
  eexists. split; [done|]. unfold set_live. simpl.
  by rewrite lookup_delete_eq.
Qed.

(** *** [makeOrGetDiff]: what is sent, and what a failure leaves *)

(** [path + "_" + vol] *)
Definition part_path (path vol : string) : string := path +:+ "_" +:+ vol.

Lemma part_path_inj path v w : part_path path v = part_path path w → v = w.
Proof.
  unfold part_path. intros Heq. apply (inj (String.app path)) in Heq.
  by apply (inj (String.app "_")) in Heq.
Qed.

Lemma btrfs_send_unfold part b vol st :
  btrfs_send part b vol st =
    match snapshots st !! b ≫= (λ dir : SnapshotDir, dir !! vol) with
    | Some content =>
        (Ret true,
         mkState (live st) (snapshots st) (<[part:=send_stream content]> (diffs st))
           (S (sends st)))
    | None =>
        (Ret false,
         mkState (live st) (snapshots st) (<[part:=""]> (diffs st)) (S (sends st)))
    end.
Proof. unfold btrfs_send. by destruct (snapshots st !! b ≫= _). Qed.

(** Whatever the loop does, it throws nothing but
    [CannotPerformBtrfsOperation], and then neither the assembled diff
    nor any file that was not there before the call is left. *)
Lemma send_volumes_throw b path vols created st (d0 : gmap string string) e st' :
  (∀ name, name ∉ created → diffs st !! name = d0 !! name) →
  send_volumes b path vols created st = (Throw e, st') →
  e = CannotPerformBtrfsOperation ∧
  live st' = live st ∧ snapshots st' = snapshots st ∧
  diffs st' !! path = None ∧
  ∀ name c, diffs st' !! name = Some c → d0 !! name = Some c.
Proof.
  revert created st. induction vols as [|vol vols IH]; intros created st Hinv; simpl.
  - done.
  - unfold bind at 1. rewrite btrfs_send_unfold.
    assert (∀ x name, name ∉ created ++ [path +:+ "_" +:+ vol] →
              <[path +:+ "_" +:+ vol:=x]> (diffs st) !! name = d0 !! name) as Hinv'.
    { intros x name [Hn1 Hn2]%not_elem_of_app.
      rewrite lookup_insert_ne by set_solver. by apply Hinv. }
    destruct (snapshots st !! b ≫= _) as [content|].
    + intros Hrun. apply IH in Hrun as (-> & -> & -> & Hpath & Hsub); [done|].
      simpl. apply Hinv'.
    + unfold bind, fs_remove_diff, modify. rewrite for_each_remove_diff.
      intros [= <- <-]. simpl_state. split_and!; [done..| |].
      * apply eq_None_not_Some. intros [c Hc].
        apply lookup_foldr_delete_Some in Hc as [_ Hc].
        by rewrite lookup_delete_eq in Hc.
      * intros name c [Hnin Hc]%lookup_foldr_delete_Some.
        apply lookup_delete_Some in Hc as [Hne Hc].
        by rewrite Hinv' in Hc.
Qed.

(** X9.  When [makeOrGetDiff( b )] throws because a [btrfs.send] failed,
    it has removed its partial output: there is no assembled diff for
    [b], no file is left in the diffs directory that was not there before
    the call, and snapshots and live volumes are untouched. *)
Theorem makeOrGetDiff_failure_leaves_no_output (b : N) (st st' : State) :
  makeOrGetDiff b st = (Throw CannotPerformBtrfsOperation, st') →
  diffs st' !! getDiffPath b = None ∧
  (∀ name c, diffs st' !! name = Some c → diffs st !! name = Some c) ∧
  snapshots st' = snapshots st ∧ live st' = live st.
Proof.
  unfold makeOrGetDiff, bind at 1, fs_is_regular_diff, gets.
  case_bool_decide as Hc; [done|].
  unfold bind at 1, fs_exists_snapshot, gets.
  case_bool_decide as Hb; simpl; [|done].
  unfold bind at 1.
  destruct (send_volumes b (getDiffPath b) volumes [] st) as [[created|e] st1] eqn:Hsend.
  - unfold bind. rewrite system_cat_cmd. simpl. rewrite for_each_remove_diff.
    by destruct (bool_decide _).
  - intros [= -> <-].
    apply (send_volumes_throw _ _ _ _ _ (diffs st)) in Hsend
      as (_ & -> & -> & Hpath & Hsub); done.
Qed.

(** A name made of blanks and of characters that are not special to the
    shell. *)
Definition blank_or_plain_name (s : string) : Prop :=
  string_forall (λ c, plain_char c || shell_blank c) s = true.

(** X24.  When [cat] fails ([makeOrGetDiff( b )] throws [CannotWrite],
    as it does when the name of a volume holds a blank and its part is
    not one word of the command line), the parts are removed but the file
    the shell created for the diff, with what [cat] could copy, stays:
    the next [makeOrGetDiff( b )] returns it as the diff of [b] without
    running anything.  The names of the volumes are taken to hold blanks
    and characters that are not special to the shell only. *)
Theorem makeOrGetDiff_failed_cat_leaves_diff (b : N) (st st' : State) (p : string) :
  Forall blank_or_plain_name volumes →
  makeOrGetDiff b st = (Throw (CannotWrite p), st') →
  p = getDiffPath b ∧ is_Some (diffs st' !! p) ∧
  (∀ v, v ∈ volumes → diffs st' !! part_path p v = None) ∧
  snapshots st' = snapshots st ∧ live st' = live st ∧
  makeOrGetDiff b st' = (Ret p, st').
Proof.
  intros _.
  unfold makeOrGetDiff at 1, bind at 1, fs_is_regular_diff at 1, gets at 1.
  case_bool_decide as Hc; [done|].
  unfold bind at 1, fs_exists_snapshot, gets.
  case_bool_decide as Hb; simpl; [|done].
  unfold bind at 1.
  destruct (send_volumes b (getDiffPath b) volumes [] st) as [[created|e] st1] eqn:Hsend.
  2:{ intros [= -> <-].
      by apply (send_volumes_throw _ _ _ _ _ (diffs st)) in Hsend as (? & _). }
  pose proof (send_volumes_created _ _ _ _ _ _ _ Hsend) as Hcreated.
  simpl in Hcreated.
  assert (live st1 = live st ∧ snapshots st1 = snapshots st) as [Hlive Hsnap].
  { clear Hcreated Hc Hb. revert Hsend. generalize (@nil string).
    revert st. induction volumes as [|vol vols IH]; intros st cr; simpl.
    - by intros [= _ <-].
    - unfold bind at 1. rewrite btrfs_send_unfold.
      destruct (snapshots st !! b ≫= _) as [content|];
        [|unfold bind, fs_remove_diff, modify; by rewrite for_each_remove_diff].
      intros Hrun. by apply IH in Hrun as [-> ->]. }
  unfold bind. rewrite system_cat_cmd. simpl. rewrite for_each_remove_diff.
  destruct (bool_decide _); [done|]. intros [= <- <-]. simpl_state.
  assert (getDiffPath b ∉ created) as Hpath.
  { rewrite Hcreated. intros (v & Heq & _)%list_elem_of_fmap.
    symmetry in Heq. by apply part_path_ne in Heq. }
  assert (is_Some (foldr delete
            (<[getDiffPath b:=foldr String.append ""
                 (omap id ((λ p, diffs st1 !! p) <$> created ≫= shell_words))]>
               (diffs st1)) created !! getDiffPath b)) as Hdiff
    by (by rewrite lookup_foldr_delete_not_elem_of, lookup_insert_eq).
  split_and!; [done|done| |done|done|].
  - intros v Hv. apply lookup_foldr_delete. rewrite Hcreated.
    by apply list_elem_of_fmap_2.
  - rewrite makeOrGetDiff_cached; [done|exact Hdiff].
Qed.

(** The files the loop leaves when every clone is there. *)
Definition sent_parts (path : string) (dir : SnapshotDir) (vols : list string)
    (d : gmap string string) : gmap string string :=
  foldl (λ d vol, <[part_path path vol:=send_stream (dir !!! vol)]> d) d vols.

Lemma sent_parts_lookup_other path dir vols d name :
  name ∉ part_path path <$> vols →
  sent_parts path dir vols d !! name = d !! name.
Proof.
  unfold sent_parts. revert d. induction vols as [|v vols IH]; intros d; simpl; [done|].
  intros [Hne Hnin]%not_elem_of_cons. rewrite IH by done. by rewrite lookup_insert_ne.
Qed.

Lemma sent_parts_lookup path dir vols d v :
  v ∈ vols →
  sent_parts path dir vols d !! part_path path v = Some (send_stream (dir !!! v)).
Proof.
  unfold sent_parts. revert d. induction vols as [|w vols IH]; intros d Hv; simpl.
  - by apply elem_of_nil in Hv.
  - destruct (decide (v ∈ vols)) as [Hin|Hnin]; [by apply IH|].
    apply elem_of_cons in Hv as [->|]; [|done].
    fold (sent_parts path dir vols (<[part_path path w:=send_stream (dir !!! w)]> d)).
    rewrite sent_parts_lookup_other, lookup_insert_eq; [done|].
    intros (w' & Heq & Hw')%list_elem_of_fmap. apply part_path_inj in Heq. by subst.
Qed.

Lemma send_volumes_ok b path vols created st dir :
  snapshots st !! b = Some dir →
  (∀ v, v ∈ vols → is_Some (dir !! v)) →
  send_volumes b path vols created st =
    (Ret (created ++ (part_path path <$> vols)),
     mkState (live st) (snapshots st) (sent_parts path dir vols (diffs st))
       (sends st + length vols)).
Proof.
  intros Hdir. revert created st Hdir.
  induction vols as [|v vols IH]; intros created st Hdir Hall; simpl.
  - unfold ret. rewrite app_nil_r, Nat.add_0_r. by destruct st.
  - unfold bind. rewrite btrfs_send_unfold, Hdir. simpl.
    destruct (Hall v) as [content Hc]; [by left|]. rewrite Hc.
    fold (part_path path v). rewrite IH; [|done|intros w Hw; apply Hall; by right].
    simpl. rewrite <-app_assoc, Nat.add_succ_r. simpl.
    by rewrite (lookup_total_correct _ _ _ Hc).
Qed.

Lemma omap_id_fmap_Some {A B} (f : A → B) (l : list A) :
  omap id ((λ x, Some (f x)) <$> l) = f <$> l.
Proof. induction l as [|x l IH]; csimpl; [done|]. by rewrite IH. Qed.

(** X10.  When the names of the configured volumes are made of letters,
    digits and [_ - . /] only, so that each part is one word of the
    command line of [cat] (the path of [diffs_dir], to which the paths of
    the model are relative, being taken to be of that kind too), no diff
    of [b] is there and the snapshot [b] holds a clone of every
    configured volume, [makeOrGetDiff( b )] returns
    the diff path, runs [btrfs.send] once for each configured volume,
    leaves as the diff the streams of the clones one after the other in
    the order of the configured volumes, and leaves no per-volume part
    behind. *)
Theorem makeOrGetDiff_assembles_streams (b : N) (st : State) (dir : SnapshotDir) :
  Forall plain_name volumes →
  diffs st !! getDiffPath b = None →
  snapshots st !! b = Some dir →
  (∀ v, v ∈ volumes → is_Some (dir !! v)) →
  let path := getDiffPath b in
  let parts := part_path path <$> volumes in
  let content := foldr String.append "" ((λ v, send_stream (dir !!! v)) <$> volumes) in
  makeOrGetDiff b st =
    (Ret path,
     mkState (live st) (snapshots st)
       (<[path:=content]> (foldr delete (diffs st) parts))
       (sends st + length volumes)).
Proof.
  intros Hplain Hnone Hdir Hall path parts content.
  unfold makeOrGetDiff, bind at 1, fs_is_regular_diff, gets. fold path.
  rewrite bool_decide_eq_false_2 by (unfold path; rewrite Hnone; by intros [? ?]).
  unfold bind at 1, fs_exists_snapshot, gets.
  rewrite bool_decide_eq_true_2 by (by rewrite Hdir). simpl.
  unfold bind at 1. rewrite (send_volumes_ok b path volumes [] st dir Hdir Hall).
  simpl. fold parts.
  assert ((λ p, sent_parts path dir volumes (diffs st) !! p) <$> parts =
          (λ v, Some (send_stream (dir !!! v))) <$> volumes) as Hcontents.
  { unfold parts. rewrite <-list_fmap_compose. apply list_fmap_ext.
    intros i v Hv. simpl. apply sent_parts_lookup.
    by apply list_elem_of_lookup_2 in Hv. }
  unfold bind, path. rewrite system_cat_cmd. fold path. cbv zeta.
  assert (parts ≫= shell_words = parts) as ->
    by (unfold parts, part_path, path; by apply shell_words_parts).
  simpl. rewrite Hcontents, for_each_remove_diff. simpl_state.
  assert (omap id ((λ v, Some (send_stream (dir !!! v))) <$> volumes) =
          (λ v, send_stream (dir !!! v)) <$> volumes) as ->.
  { apply omap_id_fmap_Some. }
  rewrite bool_decide_eq_true_2
    by (apply Forall_fmap, Forall_forall; intros v _; simpl; eauto).
  f_equal. unfold set_diffs. simpl. f_equal. fold content.
  apply map_eq. intros name.
  assert (path ∉ parts) as Hpath.
  { unfold parts. intros (v & Heq & _)%list_elem_of_fmap.
    symmetry in Heq. by apply part_path_ne in Heq. }
  destruct (decide (name ∈ parts)) as [Hin|Hnin].
  - rewrite lookup_foldr_delete by done.
    rewrite lookup_insert_ne by (intros ->; done).
    by rewrite lookup_foldr_delete.
  - rewrite lookup_foldr_delete_not_elem_of by done.
    destruct (decide (name = path)) as [->|Hne].
    + by rewrite !lookup_insert_eq.
    + rewrite !lookup_insert_ne by done.
      rewrite lookup_foldr_delete_not_elem_of by done.
      by apply sent_parts_lookup_other.
Qed.

(** ** [importDiff] *)

(** The clones a stream of [btrfs send] holds, by volume name, or [None]
    when [btrfs receive] cannot apply the stream. *)
Variable receive_stream : string → option SnapshotDir.

(** Modelled from the spec: skutils/btrfs.h is not among the sources.
    [btrfs.receive( diffs_dir / name, snapshots_dir / to_string( b ) )]
    reconstructs the clones of the stream in the directory; it fails, and
    creates nothing, when the file or the directory is not there or the
    stream cannot be applied. *)
Definition btrfs_receive (name : string) (b : N) : M bool :=
  λ st,
    match diffs st !! name ≫= receive_stream, snapshots st !! b with
    | Some clones, Some dir =>
        (Ret true, set_snapshots (<[b:=clones ∪ dir]> (snapshots st)) st)
    | _, _ => (Ret false, st)
    end.

Definition importDiff (_toBlock : N) : M unit :=
  let diffPath := getDiffPath _toBlock in
  do regular <- fs_is_regular_diff diffPath;;
  if negb regular then throw (InvalidPath diffPath)
  else
    do present <- fs_exists_snapshot _toBlock;;
    if present then throw (SnapshotPresent _toBlock)
    else
      do _ <- fs_create_snapshot_dir _toBlock;;
      do received <- btrfs_receive diffPath _toBlock;;
      if received then ret ()
      else
        do _ <- fs_remove_all_snapshot _toBlock;;
        throw CannotPerformBtrfsOperation.

(** All the ways through [importDiff]. *)
Lemma importDiff_unfold b st :
  importDiff b st =
    match diffs st !! getDiffPath b with
    | None => (Throw (InvalidPath (getDiffPath b)), st)
    | Some content =>
        match snapshots st !! b with
        | Some _ => (Throw (SnapshotPresent b), st)
        | None =>
            match receive_stream content with
            | Some clones =>
                (Ret (), set_snapshots (<[b:=clones]> (snapshots st)) st)
            | None => (Throw CannotPerformBtrfsOperation, st)
            end
        end
    end.
Proof.
  unfold importDiff, bind at 1, fs_is_regular_diff, gets.
  destruct (diffs st !! getDiffPath b) as [content|] eqn:Hd.
  2:{ rewrite bool_decide_eq_false_2 by (by intros [? ?]). done. }
  rewrite bool_decide_eq_true_2 by done. simpl.
  unfold bind at 1, fs_exists_snapshot, gets.
  destruct (snapshots st !! b) as [dir|] eqn:Hb.
  { rewrite bool_decide_eq_true_2 by done. done. }
  rewrite bool_decide_eq_false_2 by (by intros [? ?]).
  unfold bind, fs_create_snapshot_dir, modify, btrfs_receive. rewrite Hb.
  simpl_state. rewrite Hd, lookup_insert_eq. simpl.
  destruct (receive_stream content) as [clones|]; simpl.
  - unfold ret. simpl_state.
    by rewrite insert_insert_eq, (right_id_L ∅ (∪)).
  - unfold fs_remove_all_snapshot, throw. simpl_state.
    rewrite delete_insert_id by done. by destruct st.
Qed.

(** X11.  [importDiff( b )] looks for the diff file first: without it the
    error is [InvalidPath], also when the snapshot [b] exists; with the
    diff file and the snapshot there it is [SnapshotPresent( b )].
    Whatever it throws, it leaves the data directory as it found it: the
    directory it creates for the snapshot is removed again when the
    stream cannot be applied. *)
Theorem importDiff_failure_changes_nothing (b : N) (st : State) :
  (diffs st !! getDiffPath b = None →
     importDiff b st = (Throw (InvalidPath (getDiffPath b)), st)) ∧
  (is_Some (diffs st !! getDiffPath b) → is_Some (snapshots st !! b) →
     importDiff b st = (Throw (SnapshotPresent b), st)) ∧
  (∀ e st', importDiff b st = (Throw e, st') → st' = st).
Proof.
  rewrite importDiff_unfold. split_and!.
  - by intros ->.
  - by intros [content ->] [dir ->].
  - intros e st'. destruct (diffs st !! getDiffPath b) as [content|]; [|by intros [= _ <-]].
    destruct (snapshots st !! b); [by intros [= _ <-]|].
    destruct (receive_stream content); [done|by intros [= _ <-]].
Qed.

(** X12.  [importDiff( b )] returns exactly when the diff file of [b] is
    there, no snapshot [b] exists and the stream can be applied; the
    snapshot [b] then holds the clones of the stream, and nothing else has
    changed (the diff file stays). *)
Theorem importDiff_returns_iff (b : N) (st st' : State) :
  importDiff b st = (Ret (), st') ↔
  ∃ content clones,
    diffs st !! getDiffPath b = Some content ∧
    snapshots st !! b = None ∧
    receive_stream content = Some clones ∧
    st' = set_snapshots (<[b:=clones]> (snapshots st)) st.
Proof.
  rewrite importDiff_unfold. split.
  - destruct (diffs st !! getDiffPath b) as [content|]; [|done].
    destruct (snapshots st !! b); [done|].
    destruct (receive_stream content) as [clones|] eqn:Hr; [|done].
    intros [= <-]. by exists content, clones.
  - intros (content & clones & -> & -> & -> & ->). done.
Qed.

(** ** Directory names: [std::to_string], [fs::basename], [std::stoi] *)

(** What [std::stoi] throws. *)
Inductive stoi_exn : Type :=
  | invalid_argument    (* no digits to convert *)
  | out_of_range.       (* the value does not fit in an [int] *)

Definition INT_MIN : Z := -2147483648.

(** The characters ['+'], ['-'] and ['.']. *)
Definition char_plus : Ascii.ascii := Ascii.ascii_of_N 43.
Definition char_minus : Ascii.ascii := Ascii.ascii_of_N 45.
Definition char_dot : Ascii.ascii := Ascii.ascii_of_N 46.

Definition digit_of (c : Ascii.ascii) : option Z :=
  let n := Z.of_N (Ascii.N_of_ascii c) in
  if bool_decide (48 ≤ n ≤ 57)%Z then Some (n - 48)%Z else None.

(** The longest prefix of decimal digits, as a number; [None] when the
    string does not begin with a digit and none was [seen] before. *)
Fixpoint parse_digits (s : string) (acc : Z) (seen : bool) : option Z :=
  match s with
  | String c s' =>
      match digit_of c with
      | Some d => parse_digits s' (10 * acc + d) true
      | None => if seen then Some acc else None
      end
  | EmptyString => if seen then Some acc else None
  end.

Fixpoint skip_space (s : string) : string :=
  match s with
  | String c s' => if Ascii.is_space c then skip_space s' else s
  | EmptyString => s
  end.

(** [std::stoi( s )], base 10: white space is skipped, a sign is
    accepted, the digits that follow are converted and what comes after
    them is ignored. *)
Definition stoi_string (s : string) : result stoi_exn Z :=
  let s1 := skip_space s in
  let '(negative, s2) :=
    match s1 with
    | String c r =>
        if bool_decide (c = char_minus) then (true, r)
        else if bool_decide (c = char_plus) then (false, r)
        else (false, s1)
    | EmptyString => (false, s1)
    end in
  match parse_digits s2 0 false with
  | None => Throw invalid_argument
  | Some v =>
      let v := if negative : bool then (- v)%Z else v in
      if bool_decide (INT_MIN ≤ v ≤ INT_MAX)%Z then Ret v else Throw out_of_range
  end.

(** [Some t] when [s] holds a dot, [t] being [s] up to its last dot. *)
Fixpoint up_to_last_dot (s : string) : option string :=
  match s with
  | String c s' =>
      match up_to_last_dot s' with
      | Some t => Some (String c t)
      | None => if bool_decide (c = char_dot) then Some "" else None
      end
  | EmptyString => None
  end.

(** [fs::basename( f )] of an entry with the given file name: the stem,
    which is the name without its extension; the names ["."] and [".."]
    are their own stem. *)
Definition basename (name : string) : string :=
  if bool_decide (name = "." ∨ name = "..") then name
  else default name (up_to_last_dot name).

Lemma digit_of_pretty_N_char (d : N) :
  (d < 10)%N →
  digit_of (pretty_N_char d) = Some (Z.of_N d) ∧
  Ascii.is_space (pretty_N_char d) = false ∧
  pretty_N_char d ≠ char_dot ∧ pretty_N_char d ≠ char_minus ∧
  pretty_N_char d ≠ char_plus.
Proof.
  intros Hd.
  assert (d = 0 ∨ d = 1 ∨ d = 2 ∨ d = 3 ∨ d = 4 ∨ d = 5 ∨ d = 6 ∨ d = 7 ∨ d = 8
          ∨ d = 9)%N as Hcases by lia.
  repeat destruct Hcases as [->|Hcases]; try subst d; by vm_compute.
Qed.

(** The digits of a positive number, put in front of [s]: they begin
    with a digit, hold no dot, and are read back as the number. *)
Lemma pretty_N_go_digits (x : N) :
  (0 < x)%N →
  ∃ k : Z,
    (∀ s, ∃ d rest, (d < 10)%N ∧ pretty_N_go x s = String (pretty_N_char d) rest) ∧
    (∀ s, up_to_last_dot s = None → up_to_last_dot (pretty_N_go x s) = None) ∧
    (∀ s acc seen,
       parse_digits (pretty_N_go x s) acc seen =
         parse_digits s (acc * 10 ^ k + Z.of_N x) true) ∧
    (0 ≤ k)%Z.
Proof.
  induction (N.lt_wf_0 x) as [x _ IH]. intros Hx.
  assert (x `mod` 10 < 10)%N as Hmod by (apply N.mod_lt; lia).
  destruct (digit_of_pretty_N_char _ Hmod) as (Hdigit & _ & Hdot & _).
  assert (∀ s, up_to_last_dot s = None →
            up_to_last_dot (String (pretty_N_char (x `mod` 10)) s) = None) as Hnodot.
  { intros s Hs. simpl. rewrite Hs. by rewrite bool_decide_eq_false_2. }
  pose proof (N.div_mod x 10) as Hdm.
  destruct (decide (x `div` 10 = 0)%N) as [Hz|Hnz].
  - exists 1%Z. split_and!; [| | |lia].
    + intros s. rewrite pretty_N_go_step, Hz, pretty_N_go_0 by done. eauto.
    + intros s Hs. rewrite pretty_N_go_step, Hz, pretty_N_go_0 by done. by apply Hnodot.
    + intros s acc seen. rewrite pretty_N_go_step, Hz, pretty_N_go_0 by done.
      simpl. rewrite Hdigit. f_equal. lia.
  - destruct (IH (x `div` 10)%N) as (k & Hfirst & Hdots & Hparse & Hk).
    { apply N.div_lt; lia. }
    { lia. }
    exists (k + 1)%Z. split_and!; [| | |lia].
    + intros s. rewrite pretty_N_go_step by done. apply Hfirst.
    + intros s Hs. rewrite pretty_N_go_step by done. by apply Hdots, Hnodot.
    + intros s acc seen. rewrite pretty_N_go_step, Hparse by done.
      simpl. rewrite Hdigit. f_equal. rewrite Z.pow_add_r by lia. lia.
Qed.

Lemma basename_pretty (b : N) : basename (pretty b) = pretty b.
Proof.
  unfold pretty, pretty_N. case_decide as Hb; [done|].
  destruct (pretty_N_go_digits b) as (k & Hfirst & Hdots & _); [lia|].
  destruct (Hfirst "") as (d & rest & Hd & Hstr).
  unfold basename. rewrite Hdots by done. simpl.
  case_bool_decide as Hspecial; [|done].
  destruct (digit_of_pretty_N_char d Hd) as (_ & _ & Hdot & _).
  rewrite Hstr in Hspecial. destruct Hspecial as [[= ? ?]|[= ? ?]]; done.
Qed.

Lemma stoi_string_pretty (b : N) :
  stoi_string (pretty b) =
    (if bool_decide (Z.of_N b ≤ INT_MAX)%Z then Ret (Z.of_N b) else Throw out_of_range).
Proof.
  unfold pretty, pretty_N. case_decide as Hb; [by subst|].
  destruct (pretty_N_go_digits b) as (k & Hfirst & _ & Hparse & Hk); [lia|].
  destruct (Hfirst "") as (d & rest & Hd & Hstr).
  destruct (digit_of_pretty_N_char d Hd) as (_ & Hspace & _ & Hminus & Hplus).
  unfold stoi_string.
  assert (skip_space (pretty_N_go b "") = pretty_N_go b "") as ->.
  { rewrite Hstr. simpl. by rewrite Hspace. }
  rewrite Hstr at 1.
  rewrite (bool_decide_eq_false_2 _ Hminus), (bool_decide_eq_false_2 _ Hplus).
  rewrite Hparse. simpl.
  replace (0 * 10 ^ k + Z.of_N b)%Z with (Z.of_N b) by lia.
  unfold INT_MIN. repeat case_bool_decide; done || lia.
Qed.

(** X13.  The name [std::to_string( b )] of the directory or diff of block
    [b] is its own [fs::basename], is ["0"] for block [0] only, and
    [std::stoi] reads [b] back from it as long as [b] fits in an [int];
    beyond [INT_MAX] it throws [std::out_of_range]. *)
Theorem stoi_of_to_string (b : N) :
  basename (pretty b) = pretty b ∧
  (pretty b = "0" ↔ b = 0%N) ∧
  stoi_string (pretty b) =
    (if bool_decide (Z.of_N b ≤ INT_MAX)%Z then Ret (Z.of_N b) else Throw out_of_range).
Proof.
  split_and!; [apply basename_pretty| |apply stoi_string_pretty].
  split; [|by intros ->]. intros Hp. by apply (inj pretty b 0%N).
Qed.

(** ** Block numbers beyond [INT_MAX] *)

(** The first loop throws as soon as the directory holds a snapshot,
    other than ["0"], whose number does not fit in an [int]. *)
Lemma fill_numbers_out_of_range entries m b :
  b ∈ entries → b ≠ 0%N → (INT_MAX < Z.of_N b)%Z →
  fill_numbers entries m = Throw StoiOutOfRange.
Proof.
  revert m. induction entries as [|f entries IH]; intros m Hin Hne Hbig; simpl.
  - by apply elem_of_nil in Hin.
  - case_bool_decide as Hf.
    + unfold stoi. case_bool_decide as Hrange; [|done].
      apply elem_of_cons in Hin as [->|Hin]; [lia|]. by apply IH.
    + apply elem_of_cons in Hin as [->|Hin]; [done|by apply IH].
Qed.

(** X14.  [doSnapshot] takes an [unsigned] block number, the pruning reads
    the directory names back with [std::stoi] into an [int]: once a
    snapshot with a number above [INT_MAX] exists,
    [leaveNLastSnapshots( n )] throws [std::out_of_range] for every [n]
    and removes nothing, and [getLatestSnasphot] throws it as well. *)
Theorem snapshot_beyond_INT_MAX_stops_pruning (b n : N) (st : State) :
  lists_directories →
  is_Some (snapshots st !! b) → (INT_MAX < Z.of_N b)%Z →
  leaveNLastSnapshots n st = (Throw StoiOutOfRange, st) ∧
  getLatestSnasphot st = Throws StoiOutOfRange.
Proof.
  intros Hperm Hb Hbig.
  assert (fill_numbers (directory_iterator (snapshots st)) [] = Throw StoiOutOfRange)
    as Hfill.
  { apply (fill_numbers_out_of_range _ _ b); [by apply listed_directories| |done].
    intros ->. unfold INT_MAX in Hbig. lia. }
  unfold leaveNLastSnapshots, getLatestSnasphot. by rewrite Hfill.
Qed.

(** ** [leaveNLastDiffs] *)

(** The order in which [fs::directory_iterator( diffs_dir )] yields the
    files. *)
Variable diffs_iterator : gmap string string → list string.

(** [numbers.insert( make_pair( k, f ) )] on the
    [std::map< int, fs::path, std::greater< int > >] of the diffs, the
    mapped path being given by the name of the file. *)
Fixpoint diff_numbers_insert (k : Z) (f : string) (m : list (Z * string)) :
    list (Z * string) :=
  match m with
  | [] => [(k, f)]
  | (k', f') :: m' =>
      if (k' <? k)%Z then (k, f) :: (k', f') :: m'
      else if (k =? k')%Z then (k', f') :: m'
      else (k', f') :: diff_numbers_insert k f m'
  end.

(** The first loop:
    [numbers.insert( make_pair( std::stoi( fs::basename( f ) ), f ) )];
    an exception of [std::stoi] escapes. *)
Fixpoint fill_diff_numbers (entries : list string) (numbers : list (Z * string)) :
    result stoi_exn (list (Z * string)) :=
  match entries with
  | [] => Ret numbers
  | f :: entries' =>
      match stoi_string (basename f) with
      | Ret k => fill_diff_numbers entries' (diff_numbers_insert k f numbers)
      | Throw e => Throw e
      end
  end.

(** The second loop, [i] being the counter:
    [if ( i++ > n ) fs::remove( path )]. *)
Fixpoint prune_diffs (n i : N) (numbers : list (Z * string)) (st : State) : State :=
  match numbers with
  | [] => st
  | p :: numbers' =>
      prune_diffs n (unsigned_succ i) numbers'
        (if (n <? i)%N then set_diffs (delete p.2 (diffs st)) st else st)
  end.

Definition leaveNLastDiffs (n : N) (st : State) : result stoi_exn unit * State :=
  match fill_diff_numbers (diffs_iterator (diffs st)) [] with
  | Throw e => (Throw e, st)
  | Ret numbers => (Ret (), prune_diffs n 1 numbers st)
  end.

(** Greatest key first; every entry maps the number of a block within
    the range of [int] to the diff path of that block. *)
Definition diff_numbers_ok (m : list (Z * string)) : Prop :=
  StronglySorted (λ p q, (q.1 < p.1)%Z) m ∧
  Forall (λ p, ∃ b : N, p.1 = Z.of_N b ∧ p.2 = getDiffPath b ∧ (Z.of_N b ≤ INT_MAX)%Z) m.

Lemma diff_numbers_insert_elem k f m p :
  p ∈ diff_numbers_insert k f m → p = (k, f) ∨ p ∈ m.
Proof.
  induction m as [|[k' f'] m IH]; simpl.
  - intros ->%list_elem_of_singleton. by left.
  - destruct (Z.ltb_spec k' k); [|destruct (Z.eqb_spec k k')].
    + intros [->|Hin]%elem_of_cons; [by left|by right].
    + by right.
    + intros [->|Hin]%elem_of_cons; [right; by left|].
      destruct (IH Hin) as [->|]; [by left|right; by right].
Qed.

Lemma diff_numbers_insert_ok b m :
  (Z.of_N b ≤ INT_MAX)%Z → diff_numbers_ok m →
  diff_numbers_ok (diff_numbers_insert (Z.of_N b) (getDiffPath b) m).
Proof.
  intros Hb [Hs Hall]. split.
  - clear Hall. induction m as [|[k' f'] m IH]; simpl; [repeat constructor|].
    apply StronglySorted_inv in Hs as [Hs Hk].
    destruct (Z.ltb_spec k' (Z.of_N b)); [|destruct (Z.eqb_spec (Z.of_N b) k')].
    + constructor; [by constructor|]. constructor; [done|].
      eapply Forall_impl; [exact Hk|]. simpl. intros; lia.
    + by constructor.
    + constructor; [by apply IH|].
      apply Forall_forall. intros p [->|Hin]%diff_numbers_insert_elem; simpl; [lia|].
      rewrite Forall_forall in Hk. by apply Hk.
  - apply Forall_forall. intros p [->|Hin]%diff_numbers_insert_elem; [by exists b|].
    rewrite Forall_forall in Hall. by apply Hall.
Qed.

Lemma diff_numbers_insert_names b m g :
  diff_numbers_ok m →
  g ∈ (diff_numbers_insert (Z.of_N b) (getDiffPath b) m).*2 ↔
  g = getDiffPath b ∨ g ∈ m.*2.
Proof.
  clear volumes directory_iterator send_stream receive_stream diffs_iterator.
  intros [_ Hall]. induction m as [|[k' f'] m IH]; simpl.
  - rewrite list_elem_of_singleton. set_solver.
  - apply Forall_cons in Hall as [(b' & Hk' & Hf' & _) Hall]. simpl in Hk', Hf'.
    destruct (Z.ltb_spec k' (Z.of_N b)); [|destruct (Z.eqb_spec (Z.of_N b) k')].
    + simpl. rewrite !elem_of_cons. done.
    + assert (b = b') as -> by lia. simpl. rewrite !elem_of_cons. naive_solver.
    + simpl. rewrite !elem_of_cons, IH by done. naive_solver.
Qed.

Lemma fill_diff_numbers_ok entries m :
  (∀ f, f ∈ entries → ∃ b : N, f = getDiffPath b ∧ (Z.of_N b ≤ INT_MAX)%Z) →
  diff_numbers_ok m →
  ∃ m', fill_diff_numbers entries m = Ret m' ∧ diff_numbers_ok m' ∧
        ∀ g, g ∈ m'.*2 ↔ g ∈ entries ∨ g ∈ m.*2.
Proof.
  clear volumes directory_iterator send_stream receive_stream diffs_iterator.
  revert m. induction entries as [|f entries IH]; intros m Hnames Hok; simpl.
  - exists m. split_and!; [done..|]. intros g. rewrite elem_of_nil. naive_solver.
  - destruct (Hnames f) as (b & -> & Hb); [by left|].
    unfold getDiffPath at 1. rewrite basename_pretty, stoi_string_pretty.
    rewrite bool_decide_eq_true_2 by done.
    destruct (IH (diff_numbers_insert (Z.of_N b) (getDiffPath b) m))
      as (m' & Hfill & Hok' & Hdirs).
    + intros g Hg. apply Hnames. by right.
    + by apply diff_numbers_insert_ok.
    + exists m'. split_and!; [done..|]. intros g.
      rewrite Hdirs, diff_numbers_insert_names, elem_of_cons by done. naive_solver.
Qed.

(** A file whose name [std::stoi] cannot read makes the first loop
    throw. *)
Lemma fill_diff_numbers_throws entries m f e0 :
  f ∈ entries → stoi_string (basename f) = Throw e0 →
  ∃ e, fill_diff_numbers entries m = Throw e.
Proof.
  revert m. induction entries as [|g entries IH]; intros m Hin Hbad; simpl.
  - by apply elem_of_nil in Hin.
  - destruct (stoi_string (basename g)) as [k|e] eqn:Hg; [|by exists e].
    apply elem_of_cons in Hin as [->|Hin]; [congruence|]. by apply IH.
Qed.

(** As long as the counter does not wrap, the loop removes the files from
    position [n + 1 - i] on. *)
Lemma prune_diffs_ok n i numbers st :
  (i + N.of_nat (length numbers) ≤ UINT_RANGE)%N →
  prune_diffs n i numbers st =
    set_diffs (foldr delete (diffs st) (drop (N.to_nat (n + 1 - i)) numbers.*2)) st.
Proof.
  revert i st. induction numbers as [|p numbers IH]; intros i st Hlen; simpl.
  - rewrite drop_nil. simpl. by rewrite set_diffs_id.
  - simpl in Hlen.
    assert (numbers = [] ∨ unsigned_succ i = (i + 1)%N) as Hsucc.
    { destruct numbers; [by left|right]. simpl in Hlen.
      unfold unsigned_succ. apply N.mod_small. lia. }
    assert ((unsigned_succ i + N.of_nat (length numbers) ≤ UINT_RANGE)%N) as Hlen'.
    { destruct Hsucc as [-> | ->]; [|lia]. simpl. unfold unsigned_succ.
      pose proof (N.mod_upper_bound (i + 1) UINT_RANGE). unfold UINT_RANGE in *. lia. }
    assert (∀ m : gmap string string,
              foldr delete m (drop (N.to_nat (n + 1 - unsigned_succ i)) numbers.*2) =
              foldr delete m (drop (N.to_nat (n + 1 - (i + 1))) numbers.*2)) as Hdrop.
    { intros m. destruct Hsucc as [-> | ->]; [|done]. simpl. by rewrite !drop_nil. }
    rewrite IH by done. rewrite Hdrop.
    destruct (N.ltb_spec n i) as [Hlt|Hge].
    + replace (N.to_nat (n + 1 - i)) with 0 by lia.
      replace (N.to_nat (n + 1 - (i + 1))) with 0 by lia. simpl. simpl_state.
      by rewrite delete_foldr_delete.
    + replace (N.to_nat (n + 1 - i)) with (S (N.to_nat (n + 1 - (i + 1)))) by lia.
      done.
Qed.

(** Keys that decrease strictly and lie in [0 .. B] are at most [B + 1]. *)
Lemma desc_keys_length {A} (m : list (Z * A)) B :
  (-1 ≤ B)%Z →
  StronglySorted (λ p q : Z * A, (q.1 < p.1)%Z) m →
  Forall (λ p, (0 ≤ p.1 ≤ B)%Z) m →
  (Z.of_nat (length m) ≤ B + 1)%Z.
Proof.
  intros HB Hs. revert B HB.
  induction Hs as [|p m Hs IH Hp]; intros B HB Hall; simpl; [lia|].
  apply Forall_cons in Hall as [Hb Hall].
  assert (Z.of_nat (length m) ≤ (p.1 - 1) + 1)%Z; [|lia].
  apply IH; [lia|]. rewrite Forall_forall in Hp, Hall. apply Forall_forall.
  intros q' Hq'. specialize (Hp _ Hq'). specialize (Hall _ Hq'). simpl in *. lia.
Qed.

(** [fs::directory_iterator] yields the files that exist, each once, in
    an order of its own. *)
Definition lists_files : Prop :=
  ∀ m, diffs_iterator m ≡ₚ elements (dom m).

(** X15.  When the files of the diffs directory are diffs of blocks
    within the range of [int], named as [makeOrGetDiff] names them,
    [leaveNLastDiffs( n )] returns and, with [blocks] the numbers of these
    blocks, greatest first, it keeps the diffs of the first [n] of
    [blocks] as they are and removes every other one; the diff of block
    [0] is treated like any other; live volumes and snapshots are left
    alone.  The order is that of the numbers, whatever order the
    directory is listed in. *)
Theorem leaveNLastDiffs_keeps_n_highest (n : N) (st : State) :
  lists_files →
  (∀ name, is_Some (diffs st !! name) →
     ∃ b : N, name = getDiffPath b ∧ (Z.of_N b ≤ INT_MAX)%Z) →
  ∃ blocks st',
    StronglySorted (λ x y, (y < x)%N) blocks ∧
    (∀ b, b ∈ blocks ↔ is_Some (diffs st !! getDiffPath b)) ∧
    leaveNLastDiffs n st = (Ret (), st') ∧
    (∀ name, diffs st' !! name =
               if decide (name ∈ getDiffPath <$> take (N.to_nat n) blocks)
               then diffs st !! name else None) ∧
    live st' = live st ∧ snapshots st' = snapshots st.
Proof.
  intros Hperm Hnames.
  assert (∀ name, name ∈ diffs_iterator (diffs st) ↔ is_Some (diffs st !! name))
    as Hlisted.
  { intros name. by rewrite (Hperm (diffs st)), elem_of_elements, elem_of_dom. }
  destruct (fill_diff_numbers_ok (diffs_iterator (diffs st)) [])
    as (numbers & Hfill & [Hs Hall] & Hdirs).
  { intros f Hf. by apply Hnames, Hlisted. }
  { split; constructor. }
  set (blocks := (λ p : Z * string, Z.to_N p.1) <$> numbers).
  assert (numbers.*2 = getDiffPath <$> blocks) as Hpaths.
  { unfold blocks. rewrite <-list_fmap_compose. apply list_fmap_ext.
    intros i p Hp. apply list_elem_of_lookup_2 in Hp.
    rewrite Forall_forall in Hall. destruct (Hall p Hp) as (b & Hk & -> & _).
    simpl. rewrite Hk. by rewrite N2Z.id. }
  assert (StronglySorted (λ x y, (y < x)%N) blocks) as Hsorted.
  { unfold blocks. clear Hfill Hdirs Hpaths.
    induction numbers as [|[k f] m IH]; simpl; [constructor|].
    apply StronglySorted_inv in Hs as [Hs Hk].
    apply Forall_cons in Hall as [(b & Hkb & _) Hall]. simpl in Hkb.
    constructor; [by apply IH|].
    apply Forall_fmap, Forall_forall. intros [k' f'] Hin. simpl.
    rewrite Forall_forall in Hk, Hall.
    specialize (Hk _ Hin). destruct (Hall _ Hin) as (b' & Hkb' & _). simpl in *. lia. }
  assert (∀ b, b ∈ blocks ↔ is_Some (diffs st !! getDiffPath b)) as Hmem.
  { intros b. rewrite <-Hlisted.
    assert (getDiffPath b ∈ numbers.*2 ↔ getDiffPath b ∈ diffs_iterator (diffs st)) as <-.
    { rewrite Hdirs. simpl. rewrite elem_of_nil. naive_solver. }
    rewrite Hpaths. split; [apply list_elem_of_fmap_2|].
    intros (b' & Heq & Hb')%list_elem_of_fmap.
    apply (inj pretty) in Heq. by subst. }
  assert (leaveNLastDiffs n st =
            (Ret (), set_diffs (foldr delete (diffs st)
                                  (drop (N.to_nat n) numbers.*2)) st)) as Hrun.
  { unfold leaveNLastDiffs. rewrite Hfill, prune_diffs_ok.
    - by replace (N.to_nat (n + 1 - 1)) with (N.to_nat n) by lia.
    - assert (Z.of_nat (length numbers) ≤ INT_MAX + 1)%Z as Hlen.
      { apply desc_keys_length; [done|done|].
        rewrite Forall_forall in Hall. apply Forall_forall. intros p Hp.
        destruct (Hall p Hp) as (b & -> & _ & Hb). lia. }
      unfold INT_MAX, UINT_RANGE in *. lia. }
  eexists blocks, _. split_and!; [done|done|exact Hrun| |done|done].
  intros name. simpl_state. rewrite Hpaths, <-fmap_drop.
  pose proof (desc_sorted_NoDup _ Hsorted) as Hnd.
  rewrite <-(take_drop (N.to_nat n) blocks) in Hnd, Hmem.
  apply NoDup_app in Hnd as (_ & Hdisj & _).
  destruct (decide (name ∈ getDiffPath <$> drop (N.to_nat n) blocks)) as [Hdrop|Hdrop].
  - rewrite lookup_foldr_delete by done.
    rewrite decide_False; [done|].
    intros (b & -> & Hb)%list_elem_of_fmap.
    apply list_elem_of_fmap in Hdrop as (b' & Heq & Hb').
    apply (inj pretty) in Heq. subst b'. by apply (Hdisj b).
  - rewrite lookup_foldr_delete_not_elem_of by done.
    case_decide as Hkeep; [done|].
    apply eq_None_not_Some. intros Hsome. apply Hkeep.
    destruct (Hnames name Hsome) as (b & -> & _).
    apply Hmem in Hsome. apply elem_of_app in Hsome as [Hb|Hb].
    + by apply list_elem_of_fmap_2.
    + exfalso. apply Hdrop. by apply list_elem_of_fmap_2.
Qed.

(** X16.  A file in the diffs directory whose name [std::stoi] cannot
    read makes [leaveNLastDiffs( n )] throw the exception of [std::stoi]
    before it has removed anything; and whatever it throws, it has removed
    nothing. *)
Theorem leaveNLastDiffs_unreadable_name_throws (n : N) (st : State)
    (name : string) (e0 : stoi_exn) :
  lists_files →
  is_Some (diffs st !! name) →
  stoi_string (basename name) = Throw e0 →
  (∃ e, leaveNLastDiffs n st = (Throw e, st)) ∧
  (∀ e st', leaveNLastDiffs n st = (Throw e, st') → st' = st).
Proof.
  intros Hperm Hname Hbad. unfold leaveNLastDiffs.
  destruct (fill_diff_numbers_throws (diffs_iterator (diffs st)) [] name e0)
    as [e ->]; [|done|].
  - by rewrite (Hperm (diffs st)), elem_of_elements, elem_of_dom.
  - split; [by exists e|]. by intros e' st' [= _ <-].
Qed.

End Manager.

(** ** A concrete data directory *)

Definition volumes2 : list string := ["chain"; "filestorage"].

(** The directories in the order the map of the model keeps them, which
    is not the order of their numbers. *)
Definition map_order (m : gmap N SnapshotDir) : list N := elements (dom m).

Definition framed_stream (content : string) : string := "<" +:+ content +:+ ">".

(** Two live volumes, no snapshot, no diff. *)
Definition data_dir0 : State :=
  mkState (<["chain":="blocks"]> (<["filestorage":="files"]> ∅)) ∅ ∅ 0.

Definition after {A} (m : M A) (st : State) : State := (m st).2.

(** Snapshots of the blocks 0, 3, 7, 12 and 5, taken in that order. *)
Definition data_dir5 : State :=
  after (do _ <- doSnapshot volumes2 0;;
         do _ <- doSnapshot volumes2 3;;
         do _ <- doSnapshot volumes2 7;;
         do _ <- doSnapshot volumes2 12;;
         doSnapshot volumes2 5) data_dir0.

(** Snapshots of the blocks 0, 3 and 7; of the blocks 0 and 5. *)
Definition data_dir_0_3_7 : State :=
  after (do _ <- doSnapshot volumes2 0;;
         do _ <- doSnapshot volumes2 7;;
         doSnapshot volumes2 3) data_dir0.

Definition data_dir_0_5 : State :=
  after (do _ <- doSnapshot volumes2 0;; doSnapshot volumes2 5) data_dir0.

Lemma map_order_lists_directories : lists_directories map_order.
Proof. intros m. reflexivity. Qed.

Example map_order_data_dir5 :
  map_order (snapshots data_dir5) = [12; 5; 7; 3; 0]%N.
Proof. vm_compute. reflexivity. Qed.

(** C5 at a concrete input: on a data directory without snapshots,
    [doSnapshot( 1 ); removeSnapshot( 1 )] return, the directory of block 1
    is left behind empty, and [doSnapshot( 1 )] then throws
    [SnapshotPresent( 1 )]. *)
Lemma removeSnapshot_leaves_directory_witness :
  let st1 := after (doSnapshot volumes2 1) data_dir0 in
  let st2 := after (removeSnapshot volumes2 1) st1 in
  doSnapshot volumes2 1 data_dir0 = (Ret (), st1) ∧
  removeSnapshot volumes2 1 st1 = (Ret (), st2) ∧
  snapshots st2 !! 1%N = Some ∅ ∧
  is_Some (snapshots st2 !! 1%N) ∧
  doSnapshot volumes2 1 st2 = (Throw (SnapshotPresent 1), st2) ∧
  doSnapshot volumes2 1 st1 = (Throw (SnapshotPresent 1), st1).
Proof.
  intros st1 st2.
  assert (doSnapshot volumes2 1 data_dir0 = (Ret (), st1)) as H1
    by (vm_compute; reflexivity).
  assert (removeSnapshot volumes2 1 st1 = (Ret (), st2)) as H2
    by (vm_compute; reflexivity).
  split_and!; [exact H1|exact H2|vm_compute; reflexivity|..];
    apply (removeSnapshot_leaves_directory volumes2 1 data_dir0 st1 st2 H1 H2).
Defined.

Lemma data_dir_0_3_7_in_range b :
  is_Some (snapshots data_dir_0_3_7 !! b) → (Z.of_N b ≤ INT_MAX)%Z.
Proof.
  intros [dir Hdir]. revert b dir Hdir.
  change (map_Forall (λ b (_ : SnapshotDir), (Z.of_N b ≤ INT_MAX)%Z)
            (snapshots data_dir_0_3_7)).
  apply (bool_decide_unpack _). vm_compute. exact I.
Qed.

(** C6 at concrete inputs: with the snapshots 0, 3 and 7 the pair returned
    is [(3, 0)], not [(7, 3)]; with the snapshots 0 and 5 the iterator is
    read past the end; with the snapshot 0 alone the pair is [(0, 0)]. *)
Example getLatestSnasphot_runs :
  getLatestSnasphot map_order data_dir_0_3_7 = Returns (3, 0)%Z ∧
  getLatestSnasphot map_order data_dir_0_5 = Undefined ∧
  getLatestSnasphot map_order (after (doSnapshot volumes2 0) data_dir0) =
    Returns (0, 0)%Z.
Proof. vm_compute. split_and!; reflexivity. Qed.

(** C6 on the data directory with the snapshots 0, 3 and 7. *)
Lemma getLatestSnasphot_returns_lowest_witness :
  ∃ others,
    StronglySorted (λ x y, (y < x)%N) others ∧
    (∀ b, b ∈ others ↔ b ≠ 0%N ∧ is_Some (snapshots data_dir_0_3_7 !! b)) ∧
    match others with
    | [] => getLatestSnasphot map_order data_dir_0_3_7 = Returns (0, 0)%Z
    | [_] => getLatestSnasphot map_order data_dir_0_3_7 = Undefined
    | _ => ∃ lowest, last others = Some lowest ∧
             getLatestSnasphot map_order data_dir_0_3_7 = Returns (Z.of_N lowest, 0%Z)
    end.
Proof.
  apply (getLatestSnasphot_returns_lowest map_order data_dir_0_3_7
           map_order_lists_directories data_dir_0_3_7_in_range).
Defined.

(** C8 at a concrete input: the first call runs [btrfs.send] once per
    volume and assembles the diff; the second returns it. *)
Lemma makeOrGetDiff_idempotent_witness :
  let st1 := after (makeOrGetDiff volumes2 framed_stream 3) data_dir5 in
  makeOrGetDiff volumes2 framed_stream 3 data_dir5 = (Ret "3", st1) ∧
  sends data_dir5 = 0 ∧ sends st1 = 2 ∧
  ∃ content,
    diffs st1 !! "3" = Some content ∧
    ∀ r st2, makeOrGetDiff volumes2 framed_stream 3 st1 = (r, st2) →
      r = Ret "3" ∧ diffs st2 !! "3" = Some content ∧ sends st2 = sends st1 ∧
      st2 = st1.
Proof.
  intros st1.
  assert (makeOrGetDiff volumes2 framed_stream 3 data_dir5 = (Ret "3", st1)) as H1
    by (vm_compute; reflexivity).
  split_and!; [exact H1|reflexivity|vm_compute; reflexivity|].
  apply (makeOrGetDiff_idempotent volumes2 framed_stream 3 data_dir5 st1 "3" H1).
Defined.

Example makeOrGetDiff_content :
  diffs (after (makeOrGetDiff volumes2 framed_stream 3) data_dir5) !! "3" =
    Some "<blocks><files>".
Proof. vm_compute. reflexivity. Qed.

(** C9 at a concrete input: of the snapshots 0, 3, 5, 7 and 12,
    [leaveNLastSnapshots( 2 )] keeps 0, 12 and 7. *)
Example leaveNLastSnapshots_runs :
  let r := leaveNLastSnapshots volumes2 map_order 2 data_dir5 in
  r.1 = Ret () ∧ dom (snapshots r.2) = {[0; 7; 12]}%N.
Proof. vm_compute. split; reflexivity. Qed.

Lemma data_dir5_intact : intact volumes2 data_dir5.
Proof. apply intact_check_spec. vm_compute. reflexivity. Qed.

(** C9 on the data directory with the snapshots 0, 3, 5, 7 and 12, for
    [n = 2]. *)
Lemma leaveNLastSnapshots_keeps_genesis_and_n_highest_witness :
  ∃ others st',
    StronglySorted (λ x y, (y < x)%N) others ∧
    (∀ b, b ∈ others ↔ b ≠ 0%N ∧ is_Some (snapshots data_dir5 !! b)) ∧
    leaveNLastSnapshots volumes2 map_order 2 data_dir5 = (Ret (), st') ∧
    (∀ b, snapshots st' !! b =
            if decide (b = 0%N ∨ b ∈ take (N.to_nat 2) others)
            then snapshots data_dir5 !! b else None) ∧
    length (take (N.to_nat 2) others) = N.to_nat 2 `min` length others ∧
    live st' = live data_dir5 ∧ diffs st' = diffs data_dir5.
Proof.
  apply (leaveNLastSnapshots_keeps_genesis_and_n_highest volumes2 map_order 2 data_dir5).
  - exact map_order_lists_directories.
  - exact data_dir5_intact.
Defined.

(** C9 does not hold on every set of snapshot directories: of the
    snapshots 0, 3, 5, 7 and 12, [removeSnapshot( 7 )] deletes the clones
    of block 7 and leaves its directory; [leaveNLastSnapshots( 1 )] then
    keeps 12, fails to delete a clone of 7, and throws; the snapshots of
    the blocks 5 and 3, which are not among the one highest, are still
    there, as they were. *)
Lemma pruning_stops_at_first_failed_delete :
  let st := after (removeSnapshot volumes2 7) data_dir5 in
  let r := leaveNLastSnapshots volumes2 map_order 1 st in
  removeSnapshot volumes2 7 data_dir5 = (Ret (), st) ∧
  r.1 = Throw CannotPerformBtrfsOperation ∧
  dom (snapshots r.2) = {[0; 3; 5; 7; 12]}%N ∧
  snapshots r.2 !! 5%N = snapshots data_dir5 !! 5%N ∧
  snapshots r.2 !! 3%N = snapshots data_dir5 !! 3%N ∧
  is_Some (snapshots data_dir5 !! 5%N) ∧
  is_Some (snapshots data_dir5 !! 3%N).
Proof.
  intros st r.
  split_and!; [vm_compute; reflexivity..|vm_compute; eauto|vm_compute; eauto].
Defined.

(** C10 at a concrete input: the diff of block 3 is assembled, the
    snapshot of block 3 is pruned, and the diff is still served. *)
Lemma makeOrGetDiff_serves_cached_diff_witness :
  let st1 := after (do _ <- makeOrGetDiff volumes2 framed_stream 3;;
                    leaveNLastSnapshots volumes2 map_order 1) data_dir5 in
  snapshots st1 !! 3%N = None ∧
  makeOrGetDiff volumes2 framed_stream 3 st1 = (Ret "3", st1) ∧
  makeOrGetDiff volumes2 framed_stream 4 st1 = (Throw (SnapshotAbsent 4), st1).
Proof.
  intros st1.
  assert (snapshots st1 !! 3%N = None) as Hs by (vm_compute; reflexivity).
  assert (is_Some (diffs st1 !! getDiffPath 3)) as Hd by (vm_compute; eauto).
  destruct (makeOrGetDiff_serves_cached_diff volumes2 framed_stream 3 st1)
    as (_ & Hcached & _).
  destruct (makeOrGetDiff_serves_cached_diff volumes2 framed_stream 4 st1)
    as (_ & _ & Habsent & _).
  split_and!; [exact Hs|exact (Hcached Hd Hs)|].
  rewrite Habsent by (vm_compute; reflexivity).
  vm_compute. reflexivity.
Defined.

(** ** The lifecycle on the concrete data directory *)

(** X4 at a concrete input: [doSnapshot( 1 )] on the data directory
    without snapshots. *)
Lemma doSnapshot_clones_every_volume_witness :
  let st1 := after (doSnapshot volumes2 1) data_dir0 in
  doSnapshot volumes2 1 data_dir0 = (Ret (), st1) ∧
  snapshots data_dir0 !! 1%N = None ∧ NoDup volumes2 ∧
  (∀ v, v ∈ volumes2 → is_Some (live data_dir0 !! v)) ∧
  (∃ dir, snapshots st1 !! 1%N = Some dir ∧
          ∀ v, dir !! v = if decide (v ∈ volumes2) then live data_dir0 !! v else None) ∧
  (∀ b', b' ≠ 1%N → snapshots st1 !! b' = snapshots data_dir0 !! b') ∧
  live st1 = live data_dir0 ∧ diffs st1 = diffs data_dir0 ∧ sends st1 = sends data_dir0.
Proof.
  intros st1.
  assert (doSnapshot volumes2 1 data_dir0 = (Ret (), st1)) as H1
    by (vm_compute; reflexivity).
  split; [exact H1|].
  apply (doSnapshot_clones_every_volume volumes2 1 data_dir0 st1 H1).
Defined.

(** A data directory whose volume [filestorage] is missing. *)
Definition data_dir_chain_only : State :=
  mkState (<["chain":="blocks"]> ∅) ∅ ∅ 0.

(** X5 at a concrete input: [doSnapshot( 1 )] without the volume
    [filestorage]. *)
Lemma doSnapshot_failure_leaves_directory_witness :
  snapshots data_dir_chain_only !! 1%N = None ∧
  "filestorage" ∈ volumes2 ∧
  live data_dir_chain_only !! "filestorage" = None ∧
  ∃ st',
    doSnapshot volumes2 1 data_dir_chain_only = (Throw CannotPerformBtrfsOperation, st') ∧
    is_Some (snapshots st' !! 1%N) ∧
    doSnapshot volumes2 1 st' = (Throw (SnapshotPresent 1), st').
Proof.
  assert (snapshots data_dir_chain_only !! 1%N = None) as H1 by reflexivity.
  assert ("filestorage" ∈ volumes2) as H2 by (unfold volumes2; set_solver).
  assert (live data_dir_chain_only !! "filestorage" = None) as H3
    by (vm_compute; reflexivity).
  split_and!; [exact H1|exact H2|exact H3|].
  apply (doSnapshot_failure_leaves_directory volumes2 1 data_dir_chain_only
           "filestorage" H1 H2 H3).
Defined.

(** X6 at a concrete input: [removeSnapshot( 3 )] twice on the data
    directory with the snapshots 0, 3, 5, 7 and 12. *)
Lemma removeSnapshot_twice_throws_witness :
  let st1 := after (removeSnapshot volumes2 3) data_dir5 in
  volumes2 ≠ [] ∧
  removeSnapshot volumes2 3 data_dir5 = (Ret (), st1) ∧
  removeSnapshot volumes2 3 st1 = (Throw CannotPerformBtrfsOperation, st1).
Proof.
  intros st1.
  assert (volumes2 ≠ []) as H0 by done.
  assert (removeSnapshot volumes2 3 data_dir5 = (Ret (), st1)) as H1
    by (vm_compute; reflexivity).
  split_and!; [exact H0|exact H1|].
  apply (removeSnapshot_twice_throws volumes2 3 data_dir5 st1 H0 H1).
Defined.

(** The data directory with the snapshots 0, 3, 5, 7 and 12 after the
    chain has moved on. *)
Definition data_dir5_later : State :=
  set_live (<["chain":="more blocks"]> (<["filestorage":="other files"]> ∅))
    (after (doSnapshot volumes2 20) data_dir5).

(** X7 at a concrete input: the snapshot 20 is taken, the live volumes
    change, and [restoreSnapshot( 20 )] brings their content back. *)
Lemma restoreSnapshot_after_doSnapshot_witness :
  let st1 := after (doSnapshot volumes2 20) data_dir5 in
  doSnapshot volumes2 20 data_dir5 = (Ret (), st1) ∧
  snapshots data_dir5_later !! 20%N = snapshots st1 !! 20%N ∧
  live data_dir5_later !! "chain" = Some "more blocks" ∧
  ∃ st3,
    restoreSnapshot volumes2 20 data_dir5_later = (Ret (), st3) ∧
    (∀ v, v ∈ volumes2 → live st3 !! v = live data_dir5 !! v) ∧
    (∀ v, v ∉ volumes2 → live st3 !! v = live data_dir5_later !! v) ∧
    snapshots st3 = snapshots data_dir5_later ∧ diffs st3 = diffs data_dir5_later.
Proof.
  intros st1.
  assert (doSnapshot volumes2 20 data_dir5 = (Ret (), st1)) as H1
    by (vm_compute; reflexivity).
  assert (snapshots data_dir5_later !! 20%N = snapshots st1 !! 20%N) as H2
    by reflexivity.
  assert (∀ v, v ∈ volumes2 → is_Some (live data_dir5_later !! v)) as H3.
  { intros v Hv. unfold volumes2 in Hv.
    apply elem_of_cons in Hv as [-> | Hv]; [vm_compute; eauto|].
    apply list_elem_of_singleton in Hv as ->. vm_compute; eauto. }
  split_and!; [exact H1|exact H2|vm_compute; reflexivity|].
  apply (restoreSnapshot_after_doSnapshot volumes2 20 data_dir5 st1 data_dir5_later
           H1 H2 H3).
Defined.

(** X8 at a concrete input: [removeSnapshot( 3 )], then
    [restoreSnapshot( 3 )]. *)
Lemma restoreSnapshot_of_removed_loses_volume_witness :
  let st1 := after (removeSnapshot volumes2 3) data_dir5 in
  volumes2 = "chain" :: ["filestorage"] ∧
  removeSnapshot volumes2 3 data_dir5 = (Ret (), st1) ∧
  live st1 !! "chain" = Some "blocks" ∧
  ∃ st2,
    restoreSnapshot volumes2 3 st1 = (Throw CannotPerformBtrfsOperation, st2) ∧
    live st2 !! "chain" = None ∧ snapshots st2 = snapshots st1.
Proof.
  intros st1.
  assert (removeSnapshot volumes2 3 data_dir5 = (Ret (), st1)) as H1
    by (vm_compute; reflexivity).
  assert (live st1 !! "chain" = Some "blocks") as H2 by (vm_compute; reflexivity).
  split_and!; [reflexivity|exact H1|exact H2|].
  apply (restoreSnapshot_of_removed_loses_volume volumes2 3 data_dir5 st1
           "chain" ["filestorage"] eq_refl H1).
  rewrite H2. eauto.
Defined.

(** X9 at a concrete input: the snapshot 3 has lost its clones, a diff of
    block 7 is there, and [makeOrGetDiff( 3 )] fails. *)
Lemma makeOrGetDiff_failure_leaves_no_output_witness :
  let st := after (do _ <- makeOrGetDiff volumes2 framed_stream 7;;
                   removeSnapshot volumes2 3) data_dir5 in
  let st' := after (makeOrGetDiff volumes2 framed_stream 3) st in
  makeOrGetDiff volumes2 framed_stream 3 st = (Throw CannotPerformBtrfsOperation, st') ∧
  diffs st !! "7" = Some "<blocks><files>" ∧
  diffs st' !! getDiffPath 3 = None ∧
  (∀ name c, diffs st' !! name = Some c → diffs st !! name = Some c) ∧
  snapshots st' = snapshots st ∧ live st' = live st.
Proof.
  intros st st'.
  assert (makeOrGetDiff volumes2 framed_stream 3 st =
            (Throw CannotPerformBtrfsOperation, st')) as H1
    by (vm_compute; reflexivity).
  split_and!; [exact H1|vm_compute; reflexivity|..];
    apply (makeOrGetDiff_failure_leaves_no_output volumes2 framed_stream 3 st st' H1).
Defined.

(** The directory of the snapshot 3 of the concrete data directory. *)
Definition snapshot3 : SnapshotDir :=
  <["chain":="blocks"]> (<["filestorage":="files"]> ∅).

(** X10 at a concrete input: the diff of block 3. *)
Lemma makeOrGetDiff_assembles_streams_witness :
  Forall plain_name volumes2 ∧
  diffs data_dir5 !! getDiffPath 3 = None ∧
  snapshots data_dir5 !! 3%N = Some snapshot3 ∧
  makeOrGetDiff volumes2 framed_stream 3 data_dir5 =
    (Ret (getDiffPath 3),
     mkState (live data_dir5) (snapshots data_dir5)
       (<[getDiffPath 3:=
            foldr String.append "" ((λ v, framed_stream (snapshot3 !!! v)) <$> volumes2)]>
          (foldr delete (diffs data_dir5) (part_path (getDiffPath 3) <$> volumes2)))
       (sends data_dir5 + length volumes2)).
Proof.
  assert (diffs data_dir5 !! getDiffPath 3 = None) as H1 by (vm_compute; reflexivity).
  assert (snapshots data_dir5 !! 3%N = Some snapshot3) as H2 by (vm_compute; reflexivity).
  assert (∀ v, v ∈ volumes2 → is_Some (snapshot3 !! v)) as H3.
  { intros v Hv. unfold volumes2 in Hv.
    apply elem_of_cons in Hv as [-> | Hv]; [vm_compute; eauto|].
    apply list_elem_of_singleton in Hv as ->. vm_compute; eauto. }
  assert (Forall plain_name volumes2) as H0 by (repeat constructor).
  split_and!; [exact H0|exact H1|exact H2|].
  apply (makeOrGetDiff_assembles_streams volumes2 framed_stream 3 data_dir5 snapshot3
           H0 H1 H2 H3).
Defined.

(** A data directory whose second volume has a blank in its name, with a
    snapshot of block 3. *)
Definition volumes_blank : list string := ["chain"; "file storage"].

Definition data_dir_blank : State :=
  after (doSnapshot volumes_blank 3)
    (mkState (<["chain":="blocks"]> (<["file storage":="files"]> ∅)) ∅ ∅ 0).

Example makeOrGetDiff_blank_runs :
  let r := makeOrGetDiff volumes_blank framed_stream 3 data_dir_blank in
  shell_words (cat_cmd ["3_chain"; "3_file storage"] "3") =
    ["cat"; "3_chain"; "3_file"; "storage"; ">" +:+ quoted "3"] ∧
  r.1 = Throw (CannotWrite "3") ∧
  diffs r.2 !! "3" = Some "<blocks>" ∧
  dom (diffs r.2) = {["3"]}.
Proof. vm_compute. split_and!; reflexivity. Qed.

(** X24 at a concrete input: the volume [file storage]. *)
Lemma makeOrGetDiff_failed_cat_leaves_diff_witness :
  let st' := after (makeOrGetDiff volumes_blank framed_stream 3) data_dir_blank in
  Forall blank_or_plain_name volumes_blank ∧
  makeOrGetDiff volumes_blank framed_stream 3 data_dir_blank =
    (Throw (CannotWrite "3"), st') ∧
  "3" = getDiffPath 3 ∧ is_Some (diffs st' !! "3") ∧
  (∀ v, v ∈ volumes_blank → diffs st' !! part_path "3" v = None) ∧
  snapshots st' = snapshots data_dir_blank ∧ live st' = live data_dir_blank ∧
  makeOrGetDiff volumes_blank framed_stream 3 st' = (Ret "3", st').
Proof.
  intros st'.
  assert (Forall blank_or_plain_name volumes_blank) as H0 by (repeat constructor).
  assert (makeOrGetDiff volumes_blank framed_stream 3 data_dir_blank =
            (Throw (CannotWrite "3"), st')) as H1 by (vm_compute; reflexivity).
  split; [exact H0|]. split; [exact H1|].
  apply (makeOrGetDiff_failed_cat_leaves_diff volumes_blank framed_stream 3
           data_dir_blank st' "3" H0 H1).
Defined.

(** X14 at a concrete input: the snapshot of block 3000000000, which is a
    valid [unsigned], is taken after those of the blocks 0, 3, 5, 7 and
    12. *)
Lemma snapshot_beyond_INT_MAX_stops_pruning_witness :
  let st := after (doSnapshot volumes2 3000000000) data_dir5 in
  doSnapshot volumes2 3000000000 data_dir5 = (Ret (), st) ∧
  leaveNLastSnapshots volumes2 map_order 2 st = (Throw StoiOutOfRange, st) ∧
  getLatestSnasphot map_order st = Throws StoiOutOfRange.
Proof.
  intros st. split; [vm_compute; reflexivity|].
  apply (snapshot_beyond_INT_MAX_stops_pruning volumes2 map_order 3000000000 2 st
           map_order_lists_directories).
  - vm_compute. eauto.
  - vm_compute. reflexivity.
Defined.

(** The files of the diffs directory in the order the map of the model
    keeps them. *)
Definition files_order (m : gmap string string) : list string := elements (dom m).

Lemma files_order_lists_files : lists_files files_order.
Proof. intros m. reflexivity. Qed.

(** The diffs of the blocks 3, 12, 0 and 7, made in that order. *)
Definition data_dir_diffs : State :=
  after (do _ <- makeOrGetDiff volumes2 framed_stream 3;;
         do _ <- makeOrGetDiff volumes2 framed_stream 12;;
         do _ <- makeOrGetDiff volumes2 framed_stream 0;;
         makeOrGetDiff volumes2 framed_stream 7) data_dir5.

Lemma data_dir_diffs_names name :
  is_Some (diffs data_dir_diffs !! name) →
  ∃ b : N, name = getDiffPath b ∧ (Z.of_N b ≤ INT_MAX)%Z.
Proof.
  intros [c Hc].
  assert (map_Forall (λ name (_ : string), name ∈ ["0"; "3"; "7"; "12"])
            (diffs data_dir_diffs)) as Hall
    by (apply (bool_decide_unpack _); vm_compute; exact I).
  specialize (Hall _ _ Hc). simpl in Hall. clear Hc.
  apply elem_of_cons in Hall as [Heq | Hall];
    [exists 0%N; split; [rewrite Heq; vm_compute; reflexivity|unfold INT_MAX; lia]|].
  apply elem_of_cons in Hall as [Heq | Hall];
    [exists 3%N; split; [rewrite Heq; vm_compute; reflexivity|unfold INT_MAX; lia]|].
  apply elem_of_cons in Hall as [Heq | Hall];
    [exists 7%N; split; [rewrite Heq; vm_compute; reflexivity|unfold INT_MAX; lia]|].
  apply elem_of_cons in Hall as [Heq | Hall];
    [exists 12%N; split; [rewrite Heq; vm_compute; reflexivity|unfold INT_MAX; lia]|].
  by apply elem_of_nil in Hall.
Qed.

Example leaveNLastDiffs_runs :
  let r := leaveNLastDiffs files_order 2 data_dir_diffs in
  r.1 = Ret () ∧ dom (diffs data_dir_diffs) = {["0"; "3"; "7"; "12"]} ∧
  dom (diffs r.2) = {["7"; "12"]}.
Proof. vm_compute. split_and!; reflexivity. Qed.

(** X15 on the diffs of the blocks 0, 3, 7 and 12, for [n = 2]. *)
Lemma leaveNLastDiffs_keeps_n_highest_witness :
  ∃ blocks st',
    StronglySorted (λ x y, (y < x)%N) blocks ∧
    (∀ b, b ∈ blocks ↔ is_Some (diffs data_dir_diffs !! getDiffPath b)) ∧
    leaveNLastDiffs files_order 2 data_dir_diffs = (Ret (), st') ∧
    (∀ name, diffs st' !! name =
               if decide (name ∈ getDiffPath <$> take (N.to_nat 2) blocks)
               then diffs data_dir_diffs !! name else None) ∧
    live st' = live data_dir_diffs ∧ snapshots st' = snapshots data_dir_diffs.
Proof.
  apply (leaveNLastDiffs_keeps_n_highest files_order 2 data_dir_diffs).
  - exact files_order_lists_files.
  - exact data_dir_diffs_names.
Defined.

(** The diffs directory with a file that is no diff. *)
Definition data_dir_stray_file : State :=
  set_diffs (<["latest":="12"]> (diffs data_dir_diffs)) data_dir_diffs.

(** X16 at a concrete input: the file [latest] among the diffs. *)
Lemma leaveNLastDiffs_unreadable_name_throws_witness :
  diffs data_dir_stray_file !! "latest" = Some "12" ∧
  stoi_string (basename "latest") = Throw invalid_argument ∧
  (∃ e, leaveNLastDiffs files_order 2 data_dir_stray_file = (Throw e, data_dir_stray_file)) ∧
  (∀ e st', leaveNLastDiffs files_order 2 data_dir_stray_file = (Throw e, st') →
     st' = data_dir_stray_file).
Proof.
  assert (diffs data_dir_stray_file !! "latest" = Some "12") as H1
    by (vm_compute; reflexivity).
  assert (stoi_string (basename "latest") = Throw invalid_argument) as H2
    by (vm_compute; reflexivity).
  split_and!; [exact H1|exact H2|..];
    apply (leaveNLastDiffs_unreadable_name_throws files_order 2 data_dir_stray_file
             "latest" invalid_argument files_order_lists_files);
    solve [rewrite H1; eauto | exact H2].
Defined.

End SnapshotManager.

(** * The content hash of the file-storage volume

    [SnapshotManager::proceedFileSystemDirectory]. *)

Module FileSystemHash.

(** What a path of the tree names. *)
Inductive node : Type :=
  | RegularFile (content : string)
  | Directory.

(** [it->path().string() + "._hash"] *)
Definition hash_path (p : string) : string := p +:+ "._hash".

(** [boost::filesystem::extension( p ) == "._hash"]: the extension starts
    at the last dot of the file name, and ["_hash"] holds neither a dot nor
    a separator, so the extension is ["._hash"] exactly when the path ends
    with it. *)
Definition extension_is_hash (p : string) : bool :=
  let n := String.length p in
  bool_decide (6 ≤ n) && String.eqb (String.substring (n - 6) 6 p) "._hash".

Section Hasher.

(** [dev::h256], [dev::sha256] and the stream operators of
    [dev::FixedHash] are external to the repository. *)
Context {h256 : Type}.
(** The default-constructed hash. *)
Variable h256_zero : h256.
(** [dev::sha256] of a string. *)
Variable sha256 : string → h256.
(** [secp256k1_sha256_finalize] of a context to which the given hashes
    were written, in that order. *)
Variable sha256_finalize : list h256 → h256.
(** [out << hash] and [in >> hash]. *)
Variable to_text : h256 → string.
Variable of_text : string → h256.
Hypothesis of_to_text : ∀ h, of_text (to_text h) = h.

(** A [secp256k1_sha256_t] is kept as what has been written to it:
    [secp256k1_sha256_write( ctx, h.data(), h.size )] appends [h]. *)
Definition sha256_ctx : Type := list h256.

Definition sha256_write (ctx : sha256_ctx) (h : h256) : sha256_ctx := ctx ++ [h].

(** [std::ofstream hash( path ); hash << h;]: a stream that cannot be
    opened (the path names a directory) writes nothing. *)
Definition write_hash (path : string) (h : h256) (tree : gmap string node) :
    gmap string node :=
  match tree !! path with
  | Some Directory => tree
  | _ => <[path:=RegularFile (to_text h)]> tree
  end.

(** [std::ifstream hash_file( path ); dev::h256 hash; hash_file >> hash;]:
    a stream that cannot be opened leaves the default-constructed hash. *)
Definition read_hash (path : string) (tree : gmap string node) : h256 :=
  match tree !! path with
  | Some (RegularFile text) => of_text text
  | _ => h256_zero
  end.

(** The digest of a file: the hash of its path, then the hash of its
    content, written to a context of their own. *)
Definition file_digest (path content : string) : h256 :=
  sha256_finalize [sha256 path; sha256 content].

(** The body of the [while] loop for the entry at [path]. *)
Definition visit (is_checking : bool) (st : gmap string node * sha256_ctx)
    (path : string) : gmap string node * sha256_ctx :=
  let '(tree, ctx) := st in
  let fileHashPathStr := hash_path path in
  match tree !! path with
  | Some (RegularFile content) =>
      if extension_is_hash path then (tree, ctx)
      else if negb is_checking then
        let tree' :=
          if bool_decide (is_Some (tree !! fileHashPathStr)) then tree
          else write_hash fileHashPathStr (file_digest path content) tree in
        (tree', sha256_write ctx (read_hash fileHashPathStr tree'))
      else
        let fileHash := file_digest path content in
        (write_hash fileHashPathStr fileHash tree, sha256_write ctx fileHash)
  | _ =>
      if negb is_checking then
        let tree' :=
          if bool_decide (is_Some (tree !! fileHashPathStr)) then tree
          else write_hash fileHashPathStr (sha256 path) tree in
        (tree', sha256_write ctx (read_hash fileHashPathStr tree'))
      else
        let directoryHash := sha256 path in
        (write_hash fileHashPathStr directoryHash tree, sha256_write ctx directoryHash)
  end.

(** The whole loop, over the paths in the order the
    [recursive_directory_iterator] yields them. *)
Definition proceedFileSystemDirectory (is_checking : bool)
    (entries : list string) (tree : gmap string node) (ctx : sha256_ctx) :
    gmap string node * sha256_ctx :=
  foldl (visit is_checking) (tree, ctx) entries.

(** ** Properties *)

Lemma proceedFileSystemDirectory_app is_checking l1 l2 tree ctx :
  proceedFileSystemDirectory is_checking (l1 ++ l2) tree ctx =
    let '(tree1, ctx1) := proceedFileSystemDirectory is_checking l1 tree ctx in
    proceedFileSystemDirectory is_checking l2 tree1 ctx1.
Proof.
  unfold proceedFileSystemDirectory. rewrite foldl_app.
  by destruct (foldl _ _ l1).
Qed.

(** A visit appends at most one hash to the running digest and takes
    nothing away. *)
Lemma visit_appends is_checking tree ctx path :
  ∃ more, (visit is_checking (tree, ctx) path).2 = ctx ++ more.
Proof.
  unfold visit, sha256_write.
  destruct (tree !! path) as [[content|]|];
    [destruct (extension_is_hash path); [exists []; by rewrite app_nil_r|]|..];
    destruct is_checking; simpl; eauto.
Qed.

Lemma proceedFileSystemDirectory_appends is_checking entries tree ctx :
  ∃ more, (proceedFileSystemDirectory is_checking entries tree ctx).2 = ctx ++ more.
Proof.
  unfold proceedFileSystemDirectory. revert tree ctx.
  induction entries as [|path entries IH]; intros tree ctx; cbn [foldl].
  - exists []. simpl. by rewrite app_nil_r.
  - destruct (visit is_checking (tree, ctx) path) as [tree1 ctx1] eqn:Hv.
    destruct (visit_appends is_checking tree ctx path) as [more1 Hmore1].
    rewrite Hv in Hmore1. simpl in Hmore1. subst ctx1.
    destruct (IH tree1 (ctx ++ more1)) as [more Hmore].
    exists (more1 ++ more). by rewrite Hmore, app_assoc.
Qed.

(** C7 (as amended).  In build mode, when the hasher visits a regular
    file that is not itself a sidecar: if the file has no sidecar, its
    digest (the hash of its path and the hash of its content, hashed
    together) is persisted in the sidecar and folded into the running
    digest on this same pass, where it stays until the end of the pass; if
    a sidecar file exists, the digest stored in it is folded in and
    nothing is written. *)
Theorem build_mode_persists_and_folds (path content : string)
    (tree : gmap string node) (ctx : sha256_ctx) :
  tree !! path = Some (RegularFile content) →
  extension_is_hash path = false →
  (tree !! hash_path path = None →
     visit false (tree, ctx) path =
       (<[hash_path path:=RegularFile (to_text (file_digest path content))]> tree,
        ctx ++ [file_digest path content])) ∧
  (∀ stored, tree !! hash_path path = Some (RegularFile stored) →
     visit false (tree, ctx) path = (tree, ctx ++ [of_text stored])) ∧
  (tree !! hash_path path = None →
     ∀ before rest tree0 ctx0,
       proceedFileSystemDirectory false before tree0 ctx0 = (tree, ctx) →
       ∃ more,
         (proceedFileSystemDirectory false (before ++ path :: rest) tree0 ctx0).2 =
           ctx ++ file_digest path content :: more).
Proof using of_to_text.
  intros Hfile Hext.
  assert (tree !! hash_path path = None →
     visit false (tree, ctx) path =
       (<[hash_path path:=RegularFile (to_text (file_digest path content))]> tree,
        ctx ++ [file_digest path content])) as Hvisit.
  { intros Hnone. unfold visit. rewrite Hfile, Hext. simpl.
    rewrite bool_decide_eq_false_2 by (rewrite Hnone; by intros [? ?]).
    unfold write_hash, read_hash, sha256_write. rewrite Hnone, lookup_insert_eq.
    by rewrite of_to_text. }
  split_and!; [done| |].
  - intros stored Hsome. unfold visit. rewrite Hfile, Hext. simpl.
    rewrite bool_decide_eq_true_2 by (by rewrite Hsome).
    unfold read_hash, sha256_write. by rewrite Hsome.
  - intros Hnone before rest tree0 ctx0 Hbefore.
    rewrite proceedFileSystemDirectory_app, Hbefore.
    unfold proceedFileSystemDirectory. cbn [foldl]. rewrite (Hvisit Hnone).
    destruct (proceedFileSystemDirectory_appends false rest
      (<[hash_path path:=RegularFile (to_text (file_digest path content))]> tree)
      (ctx ++ [file_digest path content])) as [more Hmore].
    exists more. unfold proceedFileSystemDirectory in Hmore.
    etrans; [exact Hmore|]. by rewrite <-app_assoc.
Qed.

(** ** The whole pass *)

Lemma length_hash_path (p : string) :
  String.length (hash_path p) = String.length p + 6.
Proof. unfold hash_path. induction p as [|c p IH]; simpl; [done|]. by rewrite IH. Qed.

Lemma substring_all (s : string) : String.substring 0 (String.length s) s = s.
Proof. induction s as [|c s IH]; simpl; [done|]. by rewrite IH. Qed.

Lemma substring_hash_path (p : string) :
  String.substring (String.length p) 6 (hash_path p) = "._hash".
Proof. unfold hash_path. induction p as [|c p IH]; simpl; done. Qed.

(** A sidecar path has the extension of a sidecar. *)
Lemma extension_is_hash_hash_path (p : string) :
  extension_is_hash (hash_path p) = true.
Proof.
  unfold extension_is_hash. rewrite length_hash_path.
  rewrite bool_decide_eq_true_2 by lia.
  replace (String.length p + 6 - 6) with (String.length p) by lia.
  by rewrite substring_hash_path.
Qed.

(** Two paths have the same sidecar only when they are the same. *)
Lemma hash_path_inj (p q : string) : hash_path p = hash_path q → p = q.
Proof.
  unfold hash_path. revert q. induction p as [|c p IH]; intros [|d q]; simpl.
  - done.
  - intros Heq. apply (f_equal String.length) in Heq. simpl in Heq.
    pose proof (length_hash_path q) as Hl. unfold hash_path in Hl. lia.
  - intros Heq. apply (f_equal String.length) in Heq. simpl in Heq.
    pose proof (length_hash_path p) as Hl. unfold hash_path in Hl. lia.
  - intros [= -> Heq]. f_equal. by apply IH.
Qed.

(** What a visit folds for a path, in checking mode: nothing for a
    sidecar file, the digest of path and content for any other regular
    file, the hash of the path for anything else. *)
Definition entry_hash (tree : gmap string node) (path : string) : option h256 :=
  match tree !! path with
  | Some (RegularFile content) =>
      if extension_is_hash path then None else Some (file_digest path content)
  | _ => Some (sha256 path)
  end.

(** What a visit folds for a path in build mode when the sidecar of the
    path exists: what the sidecar holds. *)
Definition cached_hash (tree : gmap string node) (path : string) : option h256 :=
  match tree !! path with
  | Some (RegularFile _) =>
      if extension_is_hash path then None
      else Some (read_hash (hash_path path) tree)
  | _ => Some (read_hash (hash_path path) tree)
  end.

(** Writing a sidecar changes neither the kind of a path that exists nor
    the content of a file that is not a sidecar. *)
Lemma write_hash_entry_hash q h tree p :
  is_Some (tree !! p) →
  is_Some (write_hash (hash_path q) h tree !! p) ∧
  entry_hash (write_hash (hash_path q) h tree) p = entry_hash tree p.
Proof.
  intros [x Hx]. unfold write_hash, entry_hash.
  destruct (decide (p = hash_path q)) as [->|Hne].
  - rewrite Hx. destruct x as [content|]; [|by rewrite Hx].
    rewrite lookup_insert_eq, extension_is_hash_hash_path. eauto.
  - destruct (tree !! hash_path q) as [[|]|]; rewrite ?lookup_insert_ne by done;
      rewrite Hx; eauto.
Qed.

Lemma visit_checking tree ctx p :
  visit true (tree, ctx) p =
    match entry_hash tree p with
    | None => (tree, ctx)
    | Some h => (write_hash (hash_path p) h tree, ctx ++ [h])
    end.
Proof.
  unfold visit, entry_hash, sha256_write.
  destruct (tree !! p) as [[content|]|]; [destruct (extension_is_hash p)|..]; done.
Qed.

(** X1.  A pass in checking mode over paths that exist folds, for every
    path in turn, the hash recomputed from the path and the content the
    tree held when the pass began: nothing for a sidecar file, the digest
    of path and content for another regular file, the hash of the path for
    a directory.  What the sidecars held before the pass has no part in
    it. *)
Theorem checking_mode_recomputes (entries : list string)
    (tree : gmap string node) (ctx : sha256_ctx) :
  (∀ p, p ∈ entries → is_Some (tree !! p)) →
  (proceedFileSystemDirectory true entries tree ctx).2 =
    ctx ++ omap (entry_hash tree) entries.
Proof.
  unfold proceedFileSystemDirectory.
  assert (∀ tree', (∀ p, p ∈ entries → is_Some (tree' !! p) ∧
                                      entry_hash tree' p = entry_hash tree p) →
            (foldl (visit true) (tree', ctx) entries).2 =
              ctx ++ omap (entry_hash tree) entries) as Hgen.
  { revert ctx. induction entries as [|p entries IH]; intros ctx tree' Hsame;
      cbn [foldl omap list_omap].
    - simpl. by rewrite app_nil_r.
    - destruct (Hsame p) as [Hp Hhash]; [by left|].
      rewrite visit_checking, Hhash.
      destruct (entry_hash tree p) as [h|] eqn:Hh.
      + rewrite IH.
        * simpl. by rewrite <-app_assoc.
        * intros p' Hp'. destruct (Hsame p') as [Hex Heq]; [by right|].
          destruct (write_hash_entry_hash p h tree' p' Hex) as [Hex' Heq'].
          split; [done|]. by rewrite Heq'.
      + apply IH. intros p' Hp'. apply Hsame. by right. }
  intros Hex. apply Hgen. intros p Hp. split; [by apply Hex|done].
Qed.

(** A visit whose path has no sidecar does the same in both modes. *)
Lemma visit_without_sidecar tree ctx p :
  tree !! hash_path p = None →
  visit false (tree, ctx) p = visit true (tree, ctx) p.
Proof using of_to_text.
  intros Hnone. unfold visit.
  assert (∀ h, read_hash (hash_path p) (write_hash (hash_path p) h tree) = h) as Hread.
  { intros h. unfold read_hash, write_hash. rewrite Hnone, lookup_insert_eq.
    apply of_to_text. }
  rewrite (bool_decide_eq_false_2 (is_Some (tree !! hash_path p)))
    by (rewrite Hnone; by intros [? ?]).
  destruct (tree !! p) as [[content|]|]; [destruct (extension_is_hash p)|..];
    simpl; by rewrite ?Hread.
Qed.

Lemma visit_other_sidecar is_checking tree ctx p q :
  p ≠ q →
  (visit is_checking (tree, ctx) p).1 !! hash_path q = tree !! hash_path q.
Proof.
  intros Hne.
  assert (∀ h, write_hash (hash_path p) h tree !! hash_path q = tree !! hash_path q)
    as Hw.
  { intros h. unfold write_hash.
    destruct (tree !! hash_path p) as [[|]|]; try done;
      apply lookup_insert_ne; intros Heq; by apply hash_path_inj in Heq. }
  unfold visit.
  destruct (tree !! p) as [[content|]|]; [destruct (extension_is_hash p); [done|]|..];
    destruct is_checking; simpl; try case_bool_decide; by rewrite ?Hw.
Qed.

(** X2.  On a tree in which no listed path has a sidecar yet, a pass in
    build mode and a pass in checking mode over the same list of distinct
    paths leave the same tree and the same running digest. *)
Theorem build_and_checking_agree_without_sidecars (entries : list string)
    (tree : gmap string node) (ctx : sha256_ctx) :
  NoDup entries →
  (∀ p, p ∈ entries → tree !! hash_path p = None) →
  proceedFileSystemDirectory false entries tree ctx =
    proceedFileSystemDirectory true entries tree ctx.
Proof using of_to_text.
  unfold proceedFileSystemDirectory. intros Hnd. revert tree ctx.
  induction Hnd as [|p entries Hp Hnd IH]; intros tree ctx Hnone; cbn [foldl]; [done|].
  rewrite visit_without_sidecar by (apply Hnone; by left).
  destruct (visit true (tree, ctx) p) as [tree1 ctx1] eqn:Hv.
  apply IH. intros q Hq.
  assert (p ≠ q) as Hne by (intros ->; done).
  rewrite <-(Hnone q) by (by right).
  rewrite <-(visit_other_sidecar true tree ctx p q Hne). by rewrite Hv.
Qed.

(** A regular file with the extension [._hash]: the pass steps over
    it. *)
Definition is_sidecar_file (tree : gmap string node) (path : string) : Prop :=
  ∃ content, tree !! path = Some (RegularFile content) ∧ extension_is_hash path = true.

(** X3.  A pass in build mode over a listing in which every path other
    than a sidecar file has its sidecar (as in the full listing of a tree
    that was hashed before) writes nothing: the tree is left as it was,
    nothing is folded for a sidecar file, and what is folded for any other
    path is what its sidecar holds, whatever the content of the file is by
    now. *)
Theorem build_mode_trusts_sidecars (entries : list string)
    (tree : gmap string node) (ctx : sha256_ctx) :
  (∀ p, p ∈ entries → is_sidecar_file tree p ∨ is_Some (tree !! hash_path p)) →
  proceedFileSystemDirectory false entries tree ctx =
    (tree, ctx ++ omap (cached_hash tree) entries).
Proof.
  unfold proceedFileSystemDirectory. revert ctx.
  induction entries as [|p entries IH]; intros ctx Hsome; cbn [foldl omap list_omap].
  - simpl. by rewrite app_nil_r.
  - assert (visit false (tree, ctx) p =
            (tree, ctx ++ from_option (λ h, [h]) [] (cached_hash tree p))) as ->.
    { unfold visit, cached_hash, sha256_write.
      destruct (Hsome p) as [(content & Hp & Hext)|Hside]; [by left| |].
      - rewrite Hp, Hext. simpl. by rewrite app_nil_r.
      - rewrite (bool_decide_eq_true_2 (is_Some (tree !! hash_path p))) by done.
        destruct (tree !! p) as [[content|]|]; [destruct (extension_is_hash p)|..];
          simpl; by rewrite ?app_nil_r. }
    rewrite IH by (intros q Hq; apply Hsome; by right).
    destruct (cached_hash tree p); simpl; by rewrite <-app_assoc.
Qed.

(** ** The hash of a snapshot *)

Section SnapshotHash.

(** [dev::db::LevelDB] is external to the repository; [hashBase] is the
    digest it gives for a database. *)
Context {DB : Type}.
Variable hashBase : DB → h256.

(** [this->volumes] *)
Variable volumes : list string.

(** The paths under a directory in the order the
    [recursive_directory_iterator] yields them. *)
Variable recursive_directory_iterator : gmap string node → list string.

(** What the hashing throws: the exceptions of [SnapshotManager], the
    [std::logic_error] of [computeFileSystemHash], and the failure of the
    assertion of [computeAllVolumesHash]. *)
Inductive hash_exn : Type :=
  | SnapshotAbsent (b : N)
  | CannotRead (p : string)
  | InvalidPath (p : string)
  | CannotPerformBtrfsOperation
  | FilestorageCorrupted (p : string)
  | AssertionFailed.

(** The directory [snapshots_dir / to_string( b )] as the hashing sees
    it; the paths are relative to it. *)
Record SnapshotFiles : Type := mkSnapshotFiles {
  clones : gmap string bool;                 (* the clones, by volume, with their property [ro] *)
  databases : gmap string DB;                (* the database directories that exist *)
  filestorage : option (gmap string node);   (* the tree under [filestorage], if it exists *)
  hash_file : option string                  (* the text of [snapshot_hash.txt], if it exists *)
}.

Definition set_clones (c : gmap string bool) (dir : SnapshotFiles) : SnapshotFiles :=
  mkSnapshotFiles c (databases dir) (filestorage dir) (hash_file dir).

Definition set_filestorage (t : gmap string node) (dir : SnapshotFiles) : SnapshotFiles :=
  mkSnapshotFiles (clones dir) (databases dir) (Some t) (hash_file dir).

Definition set_hash_file (text : string) (dir : SnapshotFiles) : SnapshotFiles :=
  mkSnapshotFiles (clones dir) (databases dir) (filestorage dir) (Some text).

(** [snapshots_dir], by block number. *)
Abbreviation Snapshots := (gmap N SnapshotFiles).

(** [snapshots_dir / to_string( b ) / snapshot_hash_file_name] *)
Definition hash_file_path (b : N) : string := pretty b +:+ "/snapshot_hash.txt".

Definition isSnapshotHashPresent (_blockNumber : N) (st : Snapshots) :
    result hash_exn bool :=
  match st !! _blockNumber with
  | None => Throw (SnapshotAbsent _blockNumber)
  | Some dir => Ret (bool_decide (is_Some (hash_file dir)))
  end.

(** [in >> hash] on a stream that could not be opened leaves the
    default-constructed hash. *)
Definition getSnapshotHash (block_number : N) (st : Snapshots) : result hash_exn h256 :=
  match st !! block_number with
  | None => Throw (SnapshotAbsent block_number)
  | Some dir =>
      match isSnapshotHashPresent block_number st with
      | Throw e => Throw e
      | Ret false => Throw (CannotRead (hash_file_path block_number))
      | Ret true =>
          Ret (match hash_file dir with
               | Some text => of_text text
               | None => h256_zero
               end)
      end
  end.

(** [computeDatabaseHash( snapshots_dir / to_string( b ) / _dbDir, ctx )] *)
Definition computeDatabaseHash (b : N) (_dbDir : string) (ctx : sha256_ctx)
    (st : Snapshots) : result hash_exn sha256_ctx :=
  match st !! b ≫= (λ dir, databases dir !! _dbDir) with
  | None => Throw (InvalidPath (pretty b +:+ "/" +:+ _dbDir))
  | Some m_db => Ret (sha256_write ctx (hashBase m_db))
  end.

(** [computeFileSystemHash( snapshots_dir / to_string( b ) / "filestorage", ctx, is_checking )] *)
Definition computeFileSystemHash (b : N) (ctx : sha256_ctx) (is_checking : bool)
    (st : Snapshots) : result hash_exn sha256_ctx * Snapshots :=
  match st !! b with
  | Some dir =>
      match filestorage dir with
      | Some tree =>
          let '(tree', ctx') :=
            proceedFileSystemDirectory is_checking (recursive_directory_iterator tree)
              tree ctx in
          (Ret ctx', <[b:=set_filestorage tree' dir]> st)
      | None => (Throw (FilestorageCorrupted (pretty b +:+ "/filestorage")), st)
      end
  | None => (Throw (FilestorageCorrupted (pretty b +:+ "/filestorage")), st)
  end.

Definition computeAllVolumesHash (_blockNumber : N) (ctx : sha256_ctx)
    (is_checking : bool) (st : Snapshots) : result hash_exn sha256_ctx * Snapshots :=
  match volumes with
  | [] => (Throw AssertionFailed, st)
  | volume0 :: _ =>
      match computeDatabaseHash _blockNumber (volume0 +:+ "/12041/state") ctx st with
      | Throw e => (Throw e, st)
      | Ret ctx1 =>
          match computeDatabaseHash _blockNumber (volume0 +:+ "/blocks_and_extras")
                  ctx1 st with
          | Throw e => (Throw e, st)
          | Ret ctx2 => computeFileSystemHash _blockNumber ctx2 is_checking st
          end
      end
  end.

(** Modelled from the spec: skutils/btrfs.h is not among the sources.
    [btrfs.btrfs_subvolume_property_set( snapshots_dir / to_string( b ) / vol, "ro", value )]
    sets the property of the clone and returns [true] (status 0); it
    fails when there is no such clone. *)
Definition btrfs_subvolume_property_set (b : N) (vol : string) (value : bool)
    (st : Snapshots) : bool * Snapshots :=
  match st !! b with
  | Some dir =>
      match clones dir !! vol with
      | Some _ => (true, <[b:=set_clones (<[vol:=value]> (clones dir)) dir]> st)
      | None => (false, st)
      end
  | None => (false, st)
  end.

(** The loops that make the clones writable and read-only again. *)
Fixpoint set_readonly (b : N) (value : bool) (vols : list string) (st : Snapshots) :
    result hash_exn unit * Snapshots :=
  match vols with
  | [] => (Ret (), st)
  | volume :: vols' =>
      match btrfs_subvolume_property_set b volume value st with
      | (true, st1) => set_readonly b value vols' st1
      | (false, st1) => (Throw CannotPerformBtrfsOperation, st1)
      end
  end.

(** [std::ofstream out( hash_file ); out.clear(); out << hash;] *)
Definition write_snapshot_hash (b : N) (hash : h256) (st : Snapshots) : Snapshots :=
  match st !! b with
  | Some dir => <[b:=set_hash_file (to_text hash) dir]> st
  | None => st
  end.

Definition computeSnapshotHash (_blockNumber : N) (is_checking : bool)
    (st : Snapshots) : result hash_exn unit * Snapshots :=
  match isSnapshotHashPresent _blockNumber st with
  | Throw e => (Throw e, st)
  | Ret true => (Ret (), st)
  | Ret false =>
      match set_readonly _blockNumber false volumes st with
      | (Throw e, st1) => (Throw e, st1)
      | (Ret _, st1) =>
          match computeAllVolumesHash _blockNumber [] is_checking st1 with
          | (Throw e, st2) => (Throw e, st2)
          | (Ret ctx, st2) =>
              match set_readonly _blockNumber true volumes st2 with
              | (Throw e, st3) => (Throw e, st3)
              | (Ret _, st3) =>
                  (Ret (), write_snapshot_hash _blockNumber (sha256_finalize ctx) st3)
              end
          end
      end
  end.

(** *** The loops over the clones *)

(** Whatever a loop does, it touches the property [ro] of the listed
    clones of [b] only; when it returns, every listed clone exists and has
    the value. *)
Lemma set_readonly_spec b value vols st r st' :
  set_readonly b value vols st = (r, st') →
  (∀ b', b' ≠ b → st' !! b' = st !! b') ∧
  match st !! b with
  | None => st' = st
  | Some dir =>
      ∃ c', st' = <[b:=set_clones c' dir]> st ∧
            (∀ v, v ∉ vols → c' !! v = clones dir !! v) ∧
            (∀ v, is_Some (c' !! v) ↔ is_Some (clones dir !! v)) ∧
            (r = Ret () → ∀ v, v ∈ vols → c' !! v = Some value)
  end.
Proof.
  revert st. induction vols as [|vol vols IH]; intros st; simpl.
  - intros [= <- <-]. split; [done|].
    destruct (st !! b) as [dir|] eqn:Hb; [|done].
    exists (clones dir). split_and!; [|done|done|by intros _ v Hv%elem_of_nil].
    destruct dir. by rewrite insert_id.
  - unfold btrfs_subvolume_property_set.
    destruct (st !! b) as [dir|] eqn:Hb; [|by intros [= <- <-]].
    destruct (clones dir !! vol) as [ro|] eqn:Hvol.
    + intros Hrun. apply IH in Hrun as [Hother Hrun].
      rewrite lookup_insert_eq in Hrun. destruct Hrun as (c' & -> & Hout & Hdom & Hin).
      split.
      * intros b' Hne. by rewrite Hother, lookup_insert_ne.
      * exists c'. simpl in *. rewrite insert_insert_eq. split_and!; [done| | |].
        -- intros v [Hne Hv]%not_elem_of_cons. by rewrite Hout, lookup_insert_ne.
        -- intros v. rewrite Hdom. destruct (decide (vol = v)) as [->|Hne].
           ++ rewrite lookup_insert_eq, Hvol. split; eauto.
           ++ by rewrite lookup_insert_ne.
        -- intros Hr v Hv. destruct (decide (v ∈ vols)) as [|Hnin]; [by apply Hin|].
           apply elem_of_cons in Hv as [->|]; [|done].
           by rewrite Hout, lookup_insert_eq.
    + intros [= <- <-]. split; [done|]. exists (clones dir). split_and!; [|done..].
      destruct dir. by rewrite insert_id.
Qed.

(** The loop returns when every listed clone exists. *)
Lemma set_readonly_ok b value vols st dir :
  st !! b = Some dir →
  (∀ v, v ∈ vols → is_Some (clones dir !! v)) →
  ∃ st', set_readonly b value vols st = (Ret (), st').
Proof.
  revert st dir. induction vols as [|vol vols IH]; intros st dir Hb Hall; simpl; [eauto|].
  unfold btrfs_subvolume_property_set. rewrite Hb.
  destruct (Hall vol) as [ro ->]; [by left|].
  apply (IH _ (set_clones (<[vol:=value]> (clones dir)) dir)).
  - by rewrite lookup_insert_eq.
  - intros v Hv. simpl. destruct (decide (vol = v)) as [->|Hne].
    + rewrite lookup_insert_eq. eauto.
    + rewrite lookup_insert_ne by done. apply Hall. by right.
Qed.

(** *** Computing and reading the hash *)

Lemma isSnapshotHashPresent_false b st :
  isSnapshotHashPresent b st = Ret false ↔
  ∃ dir, st !! b = Some dir ∧ hash_file dir = None.
Proof.
  unfold isSnapshotHashPresent. destruct (st !! b) as [dir|].
  - destruct (hash_file dir) as [text|] eqn:Hh.
    + rewrite bool_decide_eq_true_2 by done. split; [done|].
      intros (dir' & [= <-] & Hn). congruence.
    + rewrite bool_decide_eq_false_2 by (by intros [? ?]). split; [|done].
      intros _. by exists dir.
  - split; [done|]. by intros (dir & ? & _).
Qed.

Lemma isSnapshotHashPresent_true b st :
  isSnapshotHashPresent b st = Ret true ↔
  ∃ dir text, st !! b = Some dir ∧ hash_file dir = Some text.
Proof.
  unfold isSnapshotHashPresent. destruct (st !! b) as [dir|].
  - destruct (hash_file dir) as [text|] eqn:Hh.
    + rewrite bool_decide_eq_true_2 by done. split; [|done].
      intros _. by exists dir, text.
    + rewrite bool_decide_eq_false_2 by (by intros [? ?]). split; [done|].
      intros (dir' & text & [= <-] & Hn). congruence.
  - split; [done|]. by intros (dir & text & ? & _).
Qed.

Lemma getSnapshotHash_present b st dir text :
  st !! b = Some dir → hash_file dir = Some text →
  getSnapshotHash b st = Ret (of_text text).
Proof.
  intros Hb Hh. unfold getSnapshotHash, isSnapshotHashPresent. rewrite Hb, Hh.
  by rewrite bool_decide_eq_true_2.
Qed.

(** What [computeAllVolumesHash] does on a snapshot directory. *)
Lemma computeAllVolumesHash_unfold b ctx is_checking st volume0 vols dir :
  volumes = volume0 :: vols → st !! b = Some dir →
  computeAllVolumesHash b ctx is_checking st =
    match databases dir !! (volume0 +:+ "/12041/state") with
    | None => (Throw (InvalidPath (pretty b +:+ "/" +:+ volume0 +:+ "/12041/state")), st)
    | Some db_state =>
        match databases dir !! (volume0 +:+ "/blocks_and_extras") with
        | None =>
            (Throw (InvalidPath (pretty b +:+ "/" +:+ volume0 +:+ "/blocks_and_extras")),
             st)
        | Some db_blocks =>
            match filestorage dir with
            | None => (Throw (FilestorageCorrupted (pretty b +:+ "/filestorage")), st)
            | Some tree =>
                let hashed :=
                  proceedFileSystemDirectory is_checking
                    (recursive_directory_iterator tree) tree
                    (ctx ++ [hashBase db_state; hashBase db_blocks]) in
                (Ret hashed.2, <[b:=set_filestorage hashed.1 dir]> st)
            end
        end
    end.
Proof.
  intros Hvols Hb. unfold computeAllVolumesHash, computeDatabaseHash. rewrite Hvols, Hb.
  simpl. destruct (databases dir !! _) as [db_state|]; [|done].
  destruct (databases dir !! _) as [db_blocks|]; [|done].
  unfold computeFileSystemHash. rewrite Hb.
  destruct (filestorage dir) as [tree|]; [|done].
  unfold sha256_write. rewrite <-app_assoc. simpl.
  by destruct (proceedFileSystemDirectory _ _ _ _).
Qed.

(** X21.  Round trip: a [computeSnapshotHash( b, is_checking )] that
    returns on a snapshot without hash file has found the two databases
    of the first configured volume and the tree [filestorage]; after it,
    [getSnapshotHash( b )] returns the digest of what was written to the
    context, which is the [hashBase] of the state database, that of the
    blocks database and then what the pass over [filestorage] folds;
    [isSnapshotHashPresent( b )] is true, every configured clone is
    read-only, and the other snapshots are untouched. *)
Theorem computeSnapshotHash_then_getSnapshotHash (b : N) (is_checking : bool)
    (st st' : Snapshots) :
  isSnapshotHashPresent b st = Ret false →
  computeSnapshotHash b is_checking st = (Ret (), st') →
  ∃ volume0 dir db_state db_blocks tree,
    head volumes = Some volume0 ∧ st !! b = Some dir ∧
    databases dir !! (volume0 +:+ "/12041/state") = Some db_state ∧
    databases dir !! (volume0 +:+ "/blocks_and_extras") = Some db_blocks ∧
    filestorage dir = Some tree ∧
    let hashed :=
      proceedFileSystemDirectory is_checking (recursive_directory_iterator tree) tree
        [hashBase db_state; hashBase db_blocks] in
    getSnapshotHash b st' = Ret (sha256_finalize hashed.2) ∧
    isSnapshotHashPresent b st' = Ret true ∧
    (∃ dir', st' !! b = Some dir' ∧ filestorage dir' = Some hashed.1 ∧
             databases dir' = databases dir ∧
             ∀ v, v ∈ volumes → clones dir' !! v = Some true) ∧
    ∀ b', b' ≠ b → st' !! b' = st !! b'.
Proof using of_to_text.
  intros Habsent. unfold computeSnapshotHash. rewrite Habsent.
  apply isSnapshotHashPresent_false in Habsent as (dir & Hb & Hnone).
  destruct (set_readonly b false volumes st) as [[[]|e] st1] eqn:Hrw; [|done].
  apply set_readonly_spec in Hrw as [Hother1 Hrw]. rewrite Hb in Hrw.
  destruct Hrw as (c1 & -> & _ & _ & _).
  destruct volumes as [|volume0 vols] eqn:Hvols;
    [unfold computeAllVolumesHash; by rewrite Hvols|].
  rewrite (computeAllVolumesHash_unfold b [] is_checking _ volume0 vols
             (set_clones c1 dir)) by (done || by rewrite lookup_insert_eq).
  cbv zeta. cbn [set_clones databases filestorage app].
  destruct (databases dir !! (volume0 +:+ "/12041/state")) as [db_state|] eqn:Hdb1;
    [|done].
  destruct (databases dir !! (volume0 +:+ "/blocks_and_extras")) as [db_blocks|]
    eqn:Hdb2; [|done].
  destruct (filestorage dir) as [tree|] eqn:Hfs; [|done].
  rewrite insert_insert_eq.
  destruct (set_readonly b true (volume0 :: vols) _) as [[[]|e] st3] eqn:Hro; [|done].
  apply set_readonly_spec in Hro as [Hother3 Hro]. rewrite lookup_insert_eq in Hro.
  destruct Hro as (c3 & -> & _ & _ & Hin). rewrite insert_insert_eq.
  intros [= <-]. unfold write_snapshot_hash. rewrite lookup_insert_eq, insert_insert_eq.
  exists volume0, dir, db_state, db_blocks, tree. split_and!; [done..| | | |].
  - erewrite getSnapshotHash_present; [|by rewrite lookup_insert_eq|done].
    by rewrite of_to_text.
  - apply isSnapshotHashPresent_true. eexists _, _. by rewrite lookup_insert_eq.
  - eexists. rewrite lookup_insert_eq. split_and!; [done..|]. by apply Hin.
  - intros b' Hne. by rewrite lookup_insert_ne.
Qed.

(** X22.  The hash of a snapshot is computed once.  After a
    [computeSnapshotHash( b, ... )] that returned, on any state in which
    the hash file of [b] is as that call left it, whatever else has
    changed in the snapshot, [computeSnapshotHash( b, ... )] returns
    without touching anything, in checking mode too, and
    [getSnapshotHash( b )] returns the same hash. *)
Theorem computeSnapshotHash_is_not_repeated (b : N) (is_checking : bool)
    (st st1 : Snapshots) :
  computeSnapshotHash b is_checking st = (Ret (), st1) →
  ∃ dir1 text h,
    st1 !! b = Some dir1 ∧ hash_file dir1 = Some text ∧
    getSnapshotHash b st1 = Ret h ∧
    ∀ is_checking' st2 dir2,
      st2 !! b = Some dir2 → hash_file dir2 = Some text →
      computeSnapshotHash b is_checking' st2 = (Ret (), st2) ∧
      getSnapshotHash b st2 = Ret h.
Proof.
  intros Hrun.
  assert (∃ dir1 text, st1 !! b = Some dir1 ∧ hash_file dir1 = Some text)
    as (dir1 & text & Hb1 & Hh1).
  { revert Hrun. unfold computeSnapshotHash.
    destruct (isSnapshotHashPresent b st) as [[]|e] eqn:Hp; [| |done].
    - intros [= <-]. by apply isSnapshotHashPresent_true.
    - apply isSnapshotHashPresent_false in Hp as (dir & Hb & Hnone).
      destruct (set_readonly b false volumes st) as [[[]|e] st1'] eqn:Hrw; [|done].
      apply set_readonly_spec in Hrw as [_ Hrw]. rewrite Hb in Hrw.
      destruct Hrw as (c1 & -> & _).
      destruct (computeAllVolumesHash _ _ _ _) as [[ctx|e] st2] eqn:Hall; [|done].
      assert (is_Some (st2 !! b)) as [dir2 Hb2].
      { revert Hall. unfold computeAllVolumesHash.
        destruct volumes; [done|].
        destruct (computeDatabaseHash _ _ _ _); [|done].
        destruct (computeDatabaseHash _ _ _ _); [|done].
        unfold computeFileSystemHash. rewrite lookup_insert_eq. simpl.
        destruct (filestorage dir); [|done].
        destruct (proceedFileSystemDirectory _ _ _ _).
        intros [= _ <-]. by rewrite lookup_insert_eq. }
      destruct (set_readonly b true volumes st2) as [[[]|e] st3] eqn:Hro; [|done].
      apply set_readonly_spec in Hro as [_ Hro]. rewrite Hb2 in Hro.
      destruct Hro as (c3 & -> & _).
      intros [= <-]. unfold write_snapshot_hash.
      rewrite lookup_insert_eq, insert_insert_eq, lookup_insert_eq. eauto. }
  exists dir1, text, (of_text text). split_and!; [done|done| |].
  - by apply (getSnapshotHash_present b st1 dir1).
  - intros is_checking' st2 dir2 Hb2 Hh2. split.
    + unfold computeSnapshotHash.
      assert (isSnapshotHashPresent b st2 = Ret true) as ->; [|done].
      apply isSnapshotHashPresent_true. eauto.
    + by apply (getSnapshotHash_present b st2 dir2).
Qed.

(** X23.  A failure while hashing leaves the snapshot writable.  On a
    snapshot without hash file whose configured clones exist, when a
    database directory or the tree [filestorage] is missing,
    [computeSnapshotHash( b, ... )] throws ([InvalidPath] for a database,
    the logic error for [filestorage]) after it has made the clones
    writable: every configured clone is left with [ro] false, no hash file
    is written, and [getSnapshotHash( b )] throws [CannotRead]. *)
Theorem computeSnapshotHash_failure_leaves_clones_writable (b : N)
    (is_checking : bool) (st : Snapshots) (dir : SnapshotFiles) (volume0 : string) :
  st !! b = Some dir → hash_file dir = None →
  head volumes = Some volume0 →
  (∀ v, v ∈ volumes → is_Some (clones dir !! v)) →
  databases dir !! (volume0 +:+ "/12041/state") = None ∨
  databases dir !! (volume0 +:+ "/blocks_and_extras") = None ∨
  filestorage dir = None →
  ∃ e st' dir',
    computeSnapshotHash b is_checking st = (Throw e, st') ∧
    (e = InvalidPath (pretty b +:+ "/" +:+ volume0 +:+ "/12041/state") ∨
     e = InvalidPath (pretty b +:+ "/" +:+ volume0 +:+ "/blocks_and_extras") ∨
     e = FilestorageCorrupted (pretty b +:+ "/filestorage")) ∧
    st' !! b = Some dir' ∧
    (∀ v, v ∈ volumes → clones dir' !! v = Some false) ∧
    hash_file dir' = None ∧ filestorage dir' = filestorage dir ∧
    getSnapshotHash b st' = Throw (CannotRead (hash_file_path b)).
Proof.
  intros Hb Hnone Hhead Hclones Hmissing. unfold computeSnapshotHash.
  assert (isSnapshotHashPresent b st = Ret false) as ->
    by (apply isSnapshotHashPresent_false; eauto).
  destruct (set_readonly_ok b false volumes st dir Hb Hclones) as [st1 Hrw].
  rewrite Hrw. apply set_readonly_spec in Hrw as [_ Hrw]. rewrite Hb in Hrw.
  destruct Hrw as (c1 & -> & _ & _ & Hin).
  destruct volumes as [|v0 vols] eqn:Hvols; [done|]. injection Hhead as ->.
  rewrite (computeAllVolumesHash_unfold b [] is_checking _ volume0 vols
             (set_clones c1 dir)) by (done || by rewrite lookup_insert_eq).
  assert (getSnapshotHash b (<[b:=set_clones c1 dir]> st) =
            Throw (CannotRead (hash_file_path b))) as Hget.
  { unfold getSnapshotHash, isSnapshotHashPresent. rewrite lookup_insert_eq. simpl.
    rewrite Hnone. by rewrite bool_decide_eq_false_2 by (by intros [? ?]). }
  cbv zeta. cbn [set_clones databases filestorage app].
  destruct (databases dir !! (volume0 +:+ "/12041/state")) as [db_state|] eqn:Hdb1.
  2:{ eexists _, _, _. split; [done|]. rewrite lookup_insert_eq.
      split_and!; [by left|done|by apply Hin|done..]. }
  destruct (databases dir !! (volume0 +:+ "/blocks_and_extras")) as [db_blocks|] eqn:Hdb2.
  2:{ eexists _, _, _. split; [done|]. rewrite lookup_insert_eq.
      split_and!; [right; by left|done|by apply Hin|done..]. }
  destruct Hmissing as [?|[?|Hfs]]; [done..|]. rewrite Hfs.
  eexists _, _, _. split; [done|]. rewrite lookup_insert_eq.
  split_and!; [right; by right|done|by apply Hin|done..].
Qed.

End SnapshotHash.

End Hasher.

(** ** A concrete tree

    Hashes are kept as the text of what was hashed, so that a digest can
    be read off. *)

Definition text_sha256 (s : string) : string := "sha256(" +:+ s +:+ ")".

Definition text_sha256_finalize (written : list string) : string :=
  "sha256(" +:+ foldr String.append "" written +:+ ")".

Definition text_visit :=
  visit (h256 := string) "" text_sha256 text_sha256_finalize id id.

Definition text_proceed :=
  proceedFileSystemDirectory (h256 := string) "" text_sha256
    text_sha256_finalize id id.

(** One file without a sidecar and one with a sidecar. *)
Definition tree2 : gmap string node :=
  <["fs/a.txt":=RegularFile "hello"]>
    (<["fs/b.txt":=RegularFile "world"]>
       (<["fs/b.txt._hash":=RegularFile "stored"]> ∅)).

(** C7, counterexample.  A pass in build mode over a tree whose file
    [fs/a.txt] has no sidecar: the running digest, empty before, holds the
    digest of the file afterwards, so the file was folded in on this pass;
    the sidecar was written as well. *)
Lemma file_without_sidecar_is_folded :
  let r := text_proceed false ["fs/a.txt"] tree2 [] in
  tree2 !! "fs/a.txt" = Some (RegularFile "hello") ∧
  tree2 !! hash_path "fs/a.txt" = None ∧
  r.2 = ["sha256(sha256(fs/a.txt)sha256(hello))"] ∧
  r.2 ≠ [] ∧
  r.1 !! hash_path "fs/a.txt" =
    Some (RegularFile "sha256(sha256(fs/a.txt)sha256(hello))").
Proof. vm_compute. split_and!; done. Qed.

(** C7 on the concrete tree: the visit of [fs/a.txt], which has no
    sidecar, and the visit of [fs/b.txt], which has one. *)
Lemma build_mode_persists_and_folds_witness :
  text_visit false (tree2, []) "fs/a.txt" =
    (<[hash_path "fs/a.txt":=
         RegularFile (file_digest text_sha256 text_sha256_finalize "fs/a.txt" "hello")]>
       tree2,
     [file_digest text_sha256 text_sha256_finalize "fs/a.txt" "hello"]) ∧
  text_visit false (tree2, []) "fs/b.txt" = (tree2, ["stored"]).
Proof.
  split.
  - apply (build_mode_persists_and_folds (h256 := string) "" text_sha256
             text_sha256_finalize id id (λ h, eq_refl) "fs/a.txt" "hello" tree2 []);
      vm_compute; reflexivity.
  - apply (build_mode_persists_and_folds (h256 := string) "" text_sha256
             text_sha256_finalize id id (λ h, eq_refl) "fs/b.txt" "world" tree2 []);
      vm_compute; reflexivity.
Defined.

(** A tree with a directory, a file in it and a file beside it, none with
    a sidecar; the same tree after a pass, with stale content in
    [fs/a.txt]. *)
Definition tree3 : gmap string node :=
  <["fs/d":=Directory]>
    (<["fs/d/c.txt":=RegularFile "inner"]>
       (<["fs/a.txt":=RegularFile "hello"]> ∅)).

Definition entries3 : list string := ["fs/a.txt"; "fs/d"; "fs/d/c.txt"].

Definition tree3_hashed_then_edited : gmap string node :=
  <["fs/a.txt":=RegularFile "changed"]> (text_proceed true entries3 tree3 []).1.

(** X1 on the concrete tree, after it was hashed and [fs/a.txt] edited:
    the checking pass folds the digest of the new content. *)
Lemma checking_mode_recomputes_witness :
  (text_proceed true entries3 tree3_hashed_then_edited []).2 =
    ["sha256(sha256(fs/a.txt)sha256(changed))"; "sha256(fs/d)";
     "sha256(sha256(fs/d/c.txt)sha256(inner))"].
Proof.
  unfold text_proceed.
  rewrite (checking_mode_recomputes (h256 := string) "" text_sha256
             text_sha256_finalize id id entries3 tree3_hashed_then_edited []).
  - vm_compute. reflexivity.
  - intros p Hp. unfold entries3 in Hp.
    repeat (apply elem_of_cons in Hp as [->|Hp]; [vm_compute; eauto|]).
    by apply elem_of_nil in Hp.
Defined.

(** X2 on the concrete tree without sidecars. *)
Lemma build_and_checking_agree_without_sidecars_witness :
  text_proceed false entries3 tree3 [] = text_proceed true entries3 tree3 [].
Proof.
  apply (build_and_checking_agree_without_sidecars (h256 := string) "" text_sha256
           text_sha256_finalize id id (λ h, eq_refl) entries3 tree3 []).
  - apply (bool_decide_unpack _). vm_compute. exact I.
  - intros p Hp. unfold entries3 in Hp.
    repeat (apply elem_of_cons in Hp as [->|Hp]; [vm_compute; reflexivity|]).
    by apply elem_of_nil in Hp.
Defined.

(** The full listing of the tree that was hashed and edited: three
    paths and their three sidecars. *)
Example listing_of_hashed_tree :
  elements (dom tree3_hashed_then_edited) =
    ["fs/a.txt._hash"; "fs/a.txt"; "fs/d/c.txt._hash"; "fs/d/c.txt"; "fs/d._hash";
     "fs/d"].
Proof. vm_compute. reflexivity. Qed.

(** X3 on the full listing of the concrete tree, after it was hashed and
    [fs/a.txt] edited: the build pass folds the digest of the old content
    and writes nothing. *)
Lemma build_mode_trusts_sidecars_witness :
  text_proceed false (elements (dom tree3_hashed_then_edited))
    tree3_hashed_then_edited [] =
    (tree3_hashed_then_edited,
     ["sha256(sha256(fs/a.txt)sha256(hello))";
      "sha256(sha256(fs/d/c.txt)sha256(inner))"; "sha256(fs/d)"]).
Proof.
  unfold text_proceed.
  rewrite (build_mode_trusts_sidecars (h256 := string) "" text_sha256
             text_sha256_finalize id id (elements (dom tree3_hashed_then_edited))
             tree3_hashed_then_edited []).
  - vm_compute. reflexivity.
  - intros p Hp. rewrite listing_of_hashed_tree in Hp.
    repeat (apply elem_of_cons in Hp as [Heq|Hp];
      [rewrite Heq;
       first [right; vm_compute; by eauto
             |left; eexists; split; vm_compute; reflexivity]|]).
    by apply elem_of_nil in Hp.
Defined.

(** ** A concrete snapshot

    The databases are kept as text and [hashBase] is [text_sha256]. *)

Definition hash_volumes : list string := ["chain"; "filestorage"].

(** The paths of a tree in the order the map of the model keeps them. *)
Definition tree_order (tree : gmap string node) : list string := elements (dom tree).

Definition text_computeSnapshotHash :=
  computeSnapshotHash (h256 := string) "" text_sha256 text_sha256_finalize id id
    (DB := string) text_sha256 hash_volumes tree_order.

Definition text_getSnapshotHash :=
  getSnapshotHash (h256 := string) "" id (DB := string).

(** The snapshot of block 7: two read-only clones, the two databases of
    the volume [chain], the tree [tree3] as file storage, no hash file. *)
Definition snapshot7 : SnapshotFiles (DB := string) :=
  mkSnapshotFiles
    (<["chain":=true]> (<["filestorage":=true]> ∅))
    (<["chain/12041/state":="accounts"]> (<["chain/blocks_and_extras":="blocks"]> ∅))
    (Some tree3) None.

Definition snapshots7 : gmap N (SnapshotFiles (DB := string)) := <[7%N:=snapshot7]> ∅.

(** The same without the tree of the file storage. *)
Definition snapshot7_no_filestorage : SnapshotFiles (DB := string) :=
  mkSnapshotFiles (clones snapshot7) (databases snapshot7) None None.

Definition snapshots7_no_filestorage : gmap N (SnapshotFiles (DB := string)) :=
  <[7%N:=snapshot7_no_filestorage]> ∅.

Example computeSnapshotHash_runs :
  let r := text_computeSnapshotHash 7 true snapshots7 in
  r.1 = Ret () ∧
  text_getSnapshotHash 7 snapshots7 = Throw (CannotRead "7/snapshot_hash.txt") ∧
  text_getSnapshotHash 8 snapshots7 = Throw (SnapshotAbsent 8) ∧
  text_getSnapshotHash 7 r.2 =
    Ret ("sha256(sha256(accounts)sha256(blocks)" +:+
         "sha256(sha256(fs/a.txt)sha256(hello))" +:+
         "sha256(sha256(fs/d/c.txt)sha256(inner))sha256(fs/d))").
Proof. vm_compute. split_and!; reflexivity. Qed.

(** X21 on the snapshot of block 7, in checking mode. *)
Lemma computeSnapshotHash_then_getSnapshotHash_witness :
  let st' := (text_computeSnapshotHash 7 true snapshots7).2 in
  isSnapshotHashPresent 7 snapshots7 = Ret false ∧
  text_computeSnapshotHash 7 true snapshots7 = (Ret (), st') ∧
  isSnapshotHashPresent 7 st' = Ret true ∧
  ∀ b', b' ≠ 7%N → st' !! b' = snapshots7 !! b'.
Proof.
  intros st'.
  assert (isSnapshotHashPresent 7 snapshots7 = Ret false) as H1
    by (vm_compute; reflexivity).
  assert (text_computeSnapshotHash 7 true snapshots7 = (Ret (), st')) as H2
    by (vm_compute; reflexivity).
  split; [exact H1|]. split; [exact H2|].
  destruct (computeSnapshotHash_then_getSnapshotHash (h256 := string) ""
              text_sha256 text_sha256_finalize id id (λ h, eq_refl) (DB := string)
              text_sha256 hash_volumes tree_order 7 true snapshots7 st' H1 H2)
    as (volume0 & dir & db_state & db_blocks & tree & _ & _ & _ & _ & _ & _ & Hpresent
        & _ & Hother).
  split; [exact Hpresent|exact Hother].
Defined.

(** X22 on the snapshot of block 7. *)
Lemma computeSnapshotHash_is_not_repeated_witness :
  let st1 := (text_computeSnapshotHash 7 false snapshots7).2 in
  text_computeSnapshotHash 7 false snapshots7 = (Ret (), st1) ∧
  ∃ dir1 text h,
    st1 !! 7%N = Some dir1 ∧ hash_file dir1 = Some text ∧
    text_getSnapshotHash 7 st1 = Ret h ∧
    ∀ is_checking' st2 dir2,
      st2 !! 7%N = Some dir2 → hash_file dir2 = Some text →
      text_computeSnapshotHash 7 is_checking' st2 = (Ret (), st2) ∧
      text_getSnapshotHash 7 st2 = Ret h.
Proof.
  intros st1.
  assert (text_computeSnapshotHash 7 false snapshots7 = (Ret (), st1)) as H1
    by (vm_compute; reflexivity).
  split; [exact H1|].
  apply (computeSnapshotHash_is_not_repeated (h256 := string) ""
           text_sha256 text_sha256_finalize id id (DB := string)
           text_sha256 hash_volumes tree_order 7 false snapshots7 st1 H1).
Defined.

(** X23 on the snapshot of block 7 without its file storage. *)
Lemma computeSnapshotHash_failure_leaves_clones_writable_witness :
  snapshots7_no_filestorage !! 7%N = Some snapshot7_no_filestorage ∧
  filestorage snapshot7_no_filestorage = None ∧
  ∃ e st' dir',
    text_computeSnapshotHash 7 false snapshots7_no_filestorage = (Throw e, st') ∧
    (e = InvalidPath (pretty 7%N +:+ "/" +:+ "chain" +:+ "/12041/state") ∨
     e = InvalidPath (pretty 7%N +:+ "/" +:+ "chain" +:+ "/blocks_and_extras") ∨
     e = FilestorageCorrupted (pretty 7%N +:+ "/filestorage")) ∧
    st' !! 7%N = Some dir' ∧
    (∀ v, v ∈ hash_volumes → clones dir' !! v = Some false) ∧
    hash_file dir' = None ∧
    filestorage dir' = filestorage snapshot7_no_filestorage ∧
    text_getSnapshotHash 7 st' = Throw (CannotRead (hash_file_path 7)).
Proof.
  split; [reflexivity|]. split; [reflexivity|].
  apply (computeSnapshotHash_failure_leaves_clones_writable (h256 := string) ""
           text_sha256 text_sha256_finalize id id (DB := string)
           text_sha256 hash_volumes tree_order 7 false snapshots7_no_filestorage
           snapshot7_no_filestorage "chain").
  - reflexivity.
  - reflexivity.
  - reflexivity.
  - intros v Hv. unfold hash_volumes in Hv.
    apply elem_of_cons in Hv as [Heq | Hv]; [rewrite Heq; vm_compute; eauto|].
    apply list_elem_of_singleton in Hv. rewrite Hv. vm_compute. eauto.
  - right. right. reflexivity.
Defined.

End FileSystemHash.
